(** * kvstore: a shallow embedding of the block file, the chunk pool, the
    on-disk hash map and the store facade, with the properties of the
    specification stated over it.

    Layout of the development (one Go package per part):
    - little-endian codecs and the FNV-1a hash (encoding/binary, hash/fnv);
    - the two byte streams of the repository: the in-memory
      [readWriteSeeker] of the container tests and a plain file;
    - package container: [Pool], [Chunk], [KVNode], [hashBucket], [HashMap];
    - package block: [DBMeta], [BlockMeta], [BlockDB], [Object];
    - package kvstore: [store], [readTx], [writeTx].

    Integers are [Z]; a [uint32] operation that can wrap is written with
    [u32].  Offsets of type [int64] are file positions and stay far from
    the 64-bit range, so they are left unwrapped. *)

From Stdlib Require Import ZArith List Lia.
From Stdlib.Strings Require Import Byte String Ascii.
From stdpp Require Import gmap list strings pretty.

Local Open Scope Z_scope.

(* ===================================================================== *)
(** * Bytes and little-endian codecs *)
(* ===================================================================== *)

Definition byte_to_Z (b : byte) : Z := Z.of_N (Byte.to_N b).

Definition byte_of_Z (z : Z) : byte :=
  match Byte.of_N (Z.to_N (z mod 256)) with
  | Some b => b
  | None => x00
  end.

#[global] Instance byte_eq_decision : EqDecision byte := Byte.byte_eq_dec.

(** [bytes.Equal] *)
Definition bytes_eqb (a b : list byte) : bool := bool_decide (a = b).

(** [uint32(x)] *)
Definition u32 (z : Z) : Z := z mod 2 ^ 32.

(** [int64(x)] of a 64-bit pattern *)
Definition i64 (z : Z) : Z :=
  let u := z mod 2 ^ 64 in if u <? 2 ^ 63 then u else u - 2 ^ 64.

(** [binary.LittleEndian]: [n] bytes of [z], least significant first. *)
Fixpoint le_encode (n : nat) (z : Z) : list byte :=
  match n with
  | O => []
  | S n' => byte_of_Z z :: le_encode n' (z / 256)
  end.

Fixpoint le_decode (bs : list byte) : Z :=
  match bs with
  | [] => 0
  | b :: bs' => byte_to_Z b + 256 * le_decode bs'
  end.

Definition put_u32 (z : Z) : list byte := le_encode 4 z.
Definition put_i64 (z : Z) : list byte := le_encode 8 z.
Definition put_u8 (z : Z) : list byte := le_encode 1 z.
Definition put_bool (b : bool) : list byte := [if b then x01 else x00].

Definition get_u32 (bs : list byte) : Z := le_decode (take 4 bs).
Definition get_i64 (bs : list byte) : Z := i64 (le_decode (take 8 bs)).
Definition get_u8 (bs : list byte) : Z := le_decode (take 1 bs).
Definition get_bool (bs : list byte) : bool :=
  match bs with
  | b :: _ => negb (Z.eqb (byte_to_Z b) 0)
  | [] => false
  end.

Definition zeros (n : nat) : list byte := repeat x00 n.

(** [hash/fnv]: 32-bit FNV-1a. *)
Definition fnv_offset32 : Z := 2166136261.
Definition fnv_prime32 : Z := 16777619.

Definition fnv1a_32 (bs : list byte) : Z :=
  fold_left (fun h b => u32 (Z.lxor h (byte_to_Z b) * fnv_prime32)) bs fnv_offset32.

(** [strconv.FormatInt(i, 32)]: digits [0-9a-v], most significant first. *)
Definition digit32 (d : Z) : byte :=
  if d <? 10 then byte_of_Z (48 + d) else byte_of_Z (97 + (d - 10)).

Fixpoint format32_loop (fuel : nat) (n : Z) (acc : list byte) : list byte :=
  match fuel with
  | O => acc
  | S fuel' =>
      if n <? 32 then digit32 n :: acc
      else format32_loop fuel' (n / 32) (digit32 (n mod 32) :: acc)
  end.

Definition FormatInt32 (i : Z) : list byte :=
  if i <? 0 then "-"%byte :: format32_loop 13 (- i) []
  else format32_loop 13 i [].

(* ===================================================================== *)
(** * Errors and the result monad *)
(* ===================================================================== *)

Inductive error : Type :=
  | EOF                                   (* io.EOF *)
  | ErrUnexpectedEOF                      (* io.ErrUnexpectedEOF *)
  | ErrNegativePosition                   (* Seek before offset 0 *)
  | ErrInvalidWhence
  | ErrPanic                              (* a Go run-time panic *)
  | ErrChunkNotFound (ptr : Z)            (* "chunk not found at 0x%x" *)
  | ErrChunkTooSmall                      (* "chunk too small" *)
  | ErrExpectedToRead (want got : nat)    (* "expected to read %d bytes, read %d" *)
  | ErrInvalidBucketType (t : Z)          (* "invalid bucket type %v" *)
  | ErrCannotAppend (t : Z)               (* "cannot append to bucket of type %v" *)
  | ErrMapKeyNotFound (key : list byte)   (* "key %q not found" *)
  | ErrDeleteAllNotHead                   (* ".DeleteAll() can only be called on the head node" *)
  | ErrUnknownWhence (w : Z)              (* "unknown whence %d" *)
  | ErrNotEmpty (n : Z)                   (* "expected empty file, found %d bytes" *)
  | ErrBlockSize (n : Z)                  (* "invalid block size ..." *)
  | ErrMagic (m : Z)                      (* "magic doesn't match ..." *)
  | ErrVersion (v : Z)                    (* "unsupported version ..." *)
  | ErrLastFreeBlock                      (* "last free block cannot be at position 0" *)
  | ErrNotExist                           (* os.ErrNotExist *)
  | ErrJSON                               (* an encoding/json error *)
  | ErrBucketNotFound                     (* kvstore.ErrBucketNotFound *)
  | ErrKeyNotFound                        (* kvstore.ErrKeyNotFound *)
  | ErrRolledBack.                        (* "transaction rolled back" *)

(** The outcome of a call: a value, a Go error, or no return within the
    recursion budget. *)
Inductive result (A : Type) : Type :=
  | Ok (a : A)
  | Err (e : error)
  | OutOfFuel.
Arguments Ok {A} a.
Arguments Err {A} e.
Arguments OutOfFuel {A}.

(** Stateful code: the state is threaded through and survives an error,
    as the writes of a failed Go call do. *)
Definition M (St A : Type) : Type := St -> result A * St.

Definition ret {St A} (a : A) : M St A := fun s => (Ok a, s).
Definition fail {St A} (e : error) : M St A := fun s => (Err e, s).
Definition diverge {St A} : M St A := fun s => (OutOfFuel, s).

Definition bind {St A B} (m : M St A) (k : A -> M St B) : M St B :=
  fun s =>
    match m s with
    | (Ok a, s') => k a s'
    | (Err e, s') => (Err e, s')
    | (OutOfFuel, s') => (OutOfFuel, s')
    end.

(** [try m] exposes the Go pair [(value, err)] of a call. *)
Definition try {St A} (m : M St A) : M St (result A) :=
  fun s => let '(r, s') := m s in (Ok r, s').

Definition get_st {St} : M St St := fun s => (Ok s, s).
Definition put_st {St} (s : St) : M St unit := fun _ => (Ok tt, s).
Definition modify {St} (f : St -> St) : M St unit := fun s => (Ok tt, f s).

#[global] Instance M_ret {St} : MRet (M St) := fun A a => ret a.
#[global] Instance M_bind {St} : MBind (M St) := fun A B k m => bind m k.

(** Run a computation on a component of the state. *)
Definition zoom {S T A} (gt : S -> T) (st : T -> S -> S) (m : M T A) : M S A :=
  fun s => let '(r, t') := m (gt s) in (r, st t' s).

Definition zoom_fst {A B X} (m : M A X) : M (A * B) X :=
  fun s => let '(r, a') := m (fst s) in (r, (a', snd s)).
Definition zoom_snd {A B X} (m : M B X) : M (A * B) X :=
  fun s => let '(r, b') := m (snd s) in (r, (fst s, b')).

(* ===================================================================== *)
(** * Byte streams ([io.ReadWriteSeeker]) *)
(* ===================================================================== *)

(** A stream handle [H] lives in a world [W] that several handles may
    share (the objects of one block file share the file and its header);
    [W] is [unit] for a stream that owns its bytes.

    [rws_Read n] is [Read(p)] with [len(p) = n]: the bytes read and the
    error.  [rws_Write p] returns the count and the error.  Both are Go
    pairs [(n, err)], so they come back under [Ok]; [Err] is not used by
    them.  [rws_Seek] takes the recursion budget of the call. *)
Class ReadWriteSeeker (W H : Type) := {
  rws_Read : nat -> M (W * H) (list byte * option error);
  rws_Write : list byte -> M (W * H) (nat * option error);
  rws_Seek : nat -> Z -> Z -> M (W * H) Z
}.

Definition SeekStart : Z := 0.
Definition SeekCurrent : Z := 1.
Definition SeekEnd : Z := 2.

Definition Zlength {A} (l : list A) : Z := Z.of_nat (length l).

(** ** The in-memory stream of the container tests *)

Record readWriteSeeker := mkRWS { rws_pos : Z; rws_b : list byte }.

Definition newReadWriteSeeker (b : list byte) : readWriteSeeker :=
  {| rws_pos := 0; rws_b := b |}.

(** [bytes.Reader.ReadAt(p, pos)], then [pos += n]. *)
Definition readWriteSeeker_Read (n : nat) (buf : readWriteSeeker)
  : (list byte * option error) * readWriteSeeker :=
  if rws_pos buf <? 0 then (([], Some ErrNegativePosition), buf)
  else if Zlength (rws_b buf) <=? rws_pos buf then (([], Some EOF), buf)
  else
    let data := take n (drop (Z.to_nat (rws_pos buf)) (rws_b buf)) in
    ((data, if (length data <? n)%nat then Some EOF else None),
     {| rws_pos := rws_pos buf + Zlength data; rws_b := rws_b buf |}).

Definition readWriteSeeker_Write (p : list byte) (buf : readWriteSeeker)
  : (nat * option error) * readWriteSeeker :=
  let canCopy :=
    if Zlength (rws_b buf) <? rws_pos buf + Zlength p
    then Zlength (rws_b buf) - rws_pos buf else Zlength p in
  if canCopy <? 0 then ((O, Some ErrPanic), buf)   (* slice bounds out of range *)
  else
    let pos := Z.to_nat (rws_pos buf) in
    let k := Z.to_nat canCopy in
    ((length p, None),
     {| rws_pos := rws_pos buf + Zlength p;
        rws_b := take pos (rws_b buf) ++ take k p
                 ++ drop (pos + k) (rws_b buf) ++ drop k p |}).

Definition readWriteSeeker_Seek (offset whence : Z) (buf : readWriteSeeker)
  : result Z * readWriteSeeker :=
  let go abs :=
    if abs <? 0 then (Err ErrNegativePosition, buf)
    else (Ok abs, {| rws_pos := abs; rws_b := rws_b buf |}) in
  if whence =? 0 then go offset
  else if whence =? 1 then go (rws_pos buf + offset)
  else if whence =? 2 then go (Zlength (rws_b buf) + offset)
  else (Err ErrInvalidWhence, buf).

#[global] Instance readWriteSeeker_rws : ReadWriteSeeker unit readWriteSeeker := {
  rws_Read n s := let '(r, b) := readWriteSeeker_Read n (snd s) in (Ok r, (fst s, b));
  rws_Write p s := let '(r, b) := readWriteSeeker_Write p (snd s) in (Ok r, (fst s, b));
  rws_Seek _ off wh s := let '(r, b) := readWriteSeeker_Seek off wh (snd s) in (r, (fst s, b))
}.

(** ** A plain file ([os.File]); the operating system is outside the
    repository, this is its usual behaviour. *)

Record File := mkFile { f_pos : Z; f_data : list byte }.

Definition File_Read (n : nat) (f : File) : (list byte * option error) * File :=
  if (n =? 0)%nat then (([], None), f)
  else if Zlength (f_data f) <=? f_pos f then (([], Some EOF), f)
  else
    let data := take n (drop (Z.to_nat (f_pos f)) (f_data f)) in
    ((data, None), {| f_pos := f_pos f + Zlength data; f_data := f_data f |}).

Definition File_Write (p : list byte) (f : File) : (nat * option error) * File :=
  let pos := Z.to_nat (f_pos f) in
  let old := f_data f ++ zeros (pos - length (f_data f)) in
  ((length p, None),
   {| f_pos := f_pos f + Zlength p;
      f_data := take pos old ++ p ++ drop (pos + length p) old |}).

Definition File_Seek (offset whence : Z) (f : File) : result Z * File :=
  let go abs :=
    if abs <? 0 then (Err ErrNegativePosition, f)
    else (Ok abs, {| f_pos := abs; f_data := f_data f |}) in
  if whence =? 0 then go offset
  else if whence =? 1 then go (f_pos f + offset)
  else if whence =? 2 then go (Zlength (f_data f) + offset)
  else (Err ErrInvalidWhence, f).

#[global] Instance File_rws : ReadWriteSeeker unit File := {
  rws_Read n s := let '(r, b) := File_Read n (snd s) in (Ok r, (fst s, b));
  rws_Write p s := let '(r, b) := File_Write p (snd s) in (Ok r, (fst s, b));
  rws_Seek _ off wh s := let '(r, b) := File_Seek off wh (snd s) in (r, (fst s, b))
}.

(** ** [io.ReadFull] and [encoding/binary] over a stream *)

Section Binary.
Context {W H : Type} `{!ReadWriteSeeker W H}.

Definition s_Read (n : nat) : M (W * H) (list byte * option error) := rws_Read n.

(** [w.Write(p)] where only the error is looked at. *)
Definition s_Write (p : list byte) : M (W * H) unit :=
  r ← rws_Write p;
  match snd r with
  | Some e => fail e
  | None => ret tt
  end.

(** [io.ReadAtLeast(r, buf, min)] with [min = len(buf) = need]: the loop
    [for n < min && err == nil].  A reader that keeps returning
    [(0, nil)] makes the Go loop spin. *)
Fixpoint ReadAtLeast_loop (k need : nat) (acc : list byte) : M (W * H) (list byte) :=
  match k with
  | O => diverge
  | S k' =>
      if (need <=? length acc)%nat then ret acc
      else
        r ← s_Read (need - length acc);
        let acc' := acc ++ fst r in
        match snd r with
        | None => ReadAtLeast_loop k' need acc'
        | Some e =>
            if (need <=? length acc')%nat then ret acc'
            else match e with
                 | EOF => if (0 <? length acc')%nat then fail ErrUnexpectedEOF else fail EOF
                 | _ => fail e
                 end
        end
  end.

Definition ReadFull (need : nat) : M (W * H) (list byte) :=
  ReadAtLeast_loop (S (S need)) need [].

Definition read_u32 : M (W * H) Z := bs ← ReadFull 4; ret (get_u32 bs).
Definition read_bool : M (W * H) bool := bs ← ReadFull 1; ret (get_bool bs).
End Binary.

(* ===================================================================== *)
(** * package container: the chunk pool *)
(* ===================================================================== *)

(** A [*Chunk] is shared by the pool's maps and by every node or bucket
    that holds it.  Its position never changes, so the model names a chunk
    by its position and keeps the one mutable record in [p_chunks]; a Go
    [*Chunk] is its key. *)
Record Chunk := mkChunk { c_pos : Z; c_cap : Z; c_size : Z; c_free : bool }.

Definition sizeCap : Z := 4.
Definition sizeSize : Z := 4.
Definition sizeFree : Z := 1.
Definition headerSize : Z := sizeCap + sizeSize + sizeFree.

(** [p_freeChunks] holds the keys of the Go map [freeChunks] (its values
    are the same [*Chunk]s as in [chunks]).  [p_order] is the run-time's
    choice of map iteration order, consumed by [Alloc] when more than one
    free chunk fits. *)
Record Pool (H : Type) := mkPool {
  p_f : H;
  p_chunks : gmap Z Chunk;
  p_freeChunks : gset Z;
  p_order : list nat
}.
Arguments mkPool {H}.
Arguments p_f {H}.
Arguments p_chunks {H}.
Arguments p_freeChunks {H}.
Arguments p_order {H}.

Definition ChunkPtr := Z.

Section PoolOps.
Context {W H : Type} `{!ReadWriteSeeker W H}.

Abbreviation St := (W * Pool H)%type.

(** Stream calls on the pool's [f]. *)
Definition on_f {A} (m : M (W * H) A) : M St A :=
  fun s =>
    let '(w, p) := s in
    let '(r, (w', h')) := m (w, p_f p) in
    (r, (w', mkPool h' (p_chunks p) (p_freeChunks p) (p_order p))).

Definition f_Seek (fuel : nat) (offset whence : Z) : M St Z :=
  on_f (rws_Seek fuel offset whence).
Definition f_Write (p : list byte) : M St unit := on_f (s_Write p).

Definition set_chunk (c : Chunk) : M St unit :=
  modify (fun s => (fst s, mkPool (p_f (snd s)) (<[c_pos c := c]> (p_chunks (snd s)))
                                  (p_freeChunks (snd s)) (p_order (snd s)))).

(** Dereference of a [*Chunk] held by the caller. *)
Definition the_chunk (c : Z) : M St Chunk :=
  s ← get_st;
  match p_chunks (snd s) !! c with
  | Some ch => ret ch
  | None => fail ErrPanic
  end.

Definition Chunk_writeHeaderTo (c : Chunk) : M St unit :=
  f_Write (put_u32 (c_cap c));;
  f_Write (put_u32 (c_size c));;
  f_Write (put_bool (c_free c)).

Definition Chunk_writeHeader (fuel : nat) (c : Chunk) : M St unit :=
  f_Seek fuel (c_pos c) SeekStart;;
  Chunk_writeHeaderTo c.

(** [readHeaderFrom]: the fields read so far and the error. *)
Definition Chunk_readHeaderFrom : M St (Chunk * option error) :=
  let c0 := mkChunk 0 0 0 false in
  r1 ← try (on_f read_u32);
  match r1 with
  | Err e => ret (c0, Some e)
  | OutOfFuel => diverge
  | Ok cap =>
      let c1 := mkChunk 0 cap 0 false in
      r2 ← try (on_f read_u32);
      match r2 with
      | Err e => ret (c1, Some e)
      | OutOfFuel => diverge
      | Ok size =>
          let c2 := mkChunk 0 cap size false in
          r3 ← try (on_f read_bool);
          match r3 with
          | Err e => ret (c2, Some e)
          | OutOfFuel => diverge
          | Ok free => ret (mkChunk 0 cap size free, None)
          end
      end
  end.

Fixpoint NewPool_loop (fuel k : nat) (pos : Z) : M St unit :=
  match k with
  | O => diverge
  | S k' =>
      r ← Chunk_readHeaderFrom;
      match snd r with
      | Some EOF => ret tt
      | _ =>
          let chunk := mkChunk pos (c_cap (fst r)) (c_size (fst r)) (c_free (fst r)) in
          pos' ← f_Seek fuel (c_cap chunk) SeekCurrent;
          modify (fun s =>
            (fst s, mkPool (p_f (snd s)) (<[c_pos chunk := chunk]> (p_chunks (snd s)))
                           (if c_free chunk then {[c_pos chunk]} ∪ p_freeChunks (snd s)
                            else p_freeChunks (snd s))
                           (p_order (snd s))));;
          NewPool_loop fuel k' pos'
      end
  end.

(** [NewPool(f)]; [order] is the iteration order the run-time will use. *)
Definition NewPool (fuel : nat) (order : list nat) (f : H) : M W (Pool H) :=
  fun w =>
    let '(r, (w', p)) :=
      (f_Seek fuel 0 SeekStart;; NewPool_loop fuel fuel 0) (w, mkPool f ∅ ∅ order) in
    (match r with Ok _ => Ok p | Err e => Err e | OutOfFuel => OutOfFuel end, w').

Definition Pool_Size (p : Pool H) : nat := size (p_chunks p).

(** [Allocated()]: the chunks that are not free (in the order of the map
    enumeration). *)
Definition Pool_Allocated (p : Pool H) : list Chunk :=
  List.filter (fun c => negb (c_free c)) (snd <$> map_to_list (p_chunks p)).

Definition Chunk_initialize (fuel : nat) (cap : Z) : M St Chunk :=
  fileEnd ← f_Seek fuel 0 SeekEnd;
  let c := mkChunk fileEnd cap 0 false in
  Chunk_writeHeaderTo c;;
  f_Write (zeros (Z.to_nat cap));;
  ret c.

(** The free chunks [Alloc]'s loop can stop at. *)
Definition fitting (p : Pool H) (n : Z) : list Z :=
  List.filter (fun pos => match p_chunks p !! pos with
                          | Some c => n <=? c_cap c
                          | None => false
                          end) (elements (p_freeChunks p)).

Definition pick_free (order : list nat) (cands : list Z) : option (Z * list nat) :=
  match cands with
  | [] => None
  | [c] => Some (c, order)
  | c :: _ => Some (nth (hd O order mod length cands) cands c, tl order)
  end.

Definition Pool_Alloc (fuel : nat) (n : Z) : M St Z :=
  s ← get_st;
  let p := snd s in
  match pick_free (p_order p) (fitting p n) with
  | Some (pos, order') =>
      modify (fun s => (fst s, mkPool (p_f (snd s)) (p_chunks (snd s))
                                      (p_freeChunks (snd s)) order'));;
      ch ← the_chunk pos;
      let ch' := mkChunk (c_pos ch) (c_cap ch) 0 false in
      set_chunk ch';;
      Chunk_writeHeader fuel ch';;
      modify (fun s => (fst s, mkPool (p_f (snd s)) (p_chunks (snd s))
                                      (p_freeChunks (snd s) ∖ {[pos]}) (p_order (snd s))));;
      ret pos
  | None =>
      c ← Chunk_initialize fuel n;
      set_chunk c;;
      ret (c_pos c)
  end.

Definition Pool_Get (ptr : ChunkPtr) : M St Z :=
  s ← get_st;
  match p_chunks (snd s) !! ptr with
  | Some _ => ret ptr
  | None => fail (ErrChunkNotFound ptr)
  end.

Definition Chunk_freeChunk (fuel : nat) (c : Z) : M St unit :=
  ch ← the_chunk c;
  let ch' := mkChunk (c_pos ch) (c_cap ch) (c_size ch) true in
  set_chunk ch';;
  r ← try (Chunk_writeHeader fuel ch');
  match r with
  | Ok _ =>
      modify (fun s => (fst s, mkPool (p_f (snd s)) (p_chunks (snd s))
                                      ({[c_pos ch]} ∪ p_freeChunks (snd s)) (p_order (snd s))))
  | Err e => set_chunk ch;; fail e
  | OutOfFuel => diverge
  end.

Definition Chunk_Free := Chunk_freeChunk.

Definition Chunk_Write (fuel : nat) (c : Z) (p : list byte) : M St unit :=
  ch ← the_chunk c;
  if c_cap ch <? Zlength p then fail ErrChunkTooSmall
  else
    let ch' := mkChunk (c_pos ch) (c_cap ch) (u32 (Zlength p)) (c_free ch) in
    set_chunk ch';;
    Chunk_writeHeader fuel ch';;
    f_Write p.

Definition Chunk_WriteAt (fuel : nat) (c : Z) (p : list byte) (off : Z) : M St unit :=
  ch ← the_chunk c;
  if c_cap ch <? off + Zlength p then fail ErrChunkTooSmall
  else
    (if c_size ch <? off + Zlength p then
       let ch' := mkChunk (c_pos ch) (c_cap ch) (u32 (u32 (Zlength p) + u32 off)) (c_free ch) in
       set_chunk ch';;
       Chunk_writeHeader fuel ch'
     else ret tt);;
    f_Seek fuel (c_pos ch + headerSize + off) SeekStart;;
    f_Write p.

(** [Read(p)] with [len(p) = n]. *)
Definition Chunk_Read (fuel : nat) (c : Z) (n : nat) : M St (list byte * option error) :=
  ch ← the_chunk c;
  let n' := if c_size ch <? Z.of_nat n then Z.to_nat (c_size ch) else n in
  f_Seek fuel (c_pos ch + headerSize) SeekStart;;
  on_f (s_Read n').

(** [ReadAll]: the buffer of [size] bytes, or the error of [Read]. *)
Definition Chunk_ReadAll (fuel : nat) (c : Z) : M St (list byte) :=
  ch ← the_chunk c;
  let n := Z.to_nat (c_size ch) in
  r ← Chunk_Read fuel c n;
  match snd r with
  | Some e => fail e
  | None => ret (fst r ++ zeros (n - length (fst r)))
  end.

Definition Pool_AllocAndWrite (fuel : nat) (b : list byte) : M St Z :=
  c ← Pool_Alloc fuel (u32 (Zlength b));
  r ← try (Chunk_Write fuel c b);
  match r with
  | Ok _ => ret c
  | Err e => _ ← try (Chunk_Free fuel c); fail e
  | OutOfFuel => diverge
  end.
End PoolOps.

(* ===================================================================== *)
(** * package container: key/value list nodes *)
(* ===================================================================== *)

Record KVNode := mkKVNode {
  n_chunk : Z;
  n_prev : ChunkPtr;
  n_next : ChunkPtr;
  n_key : ChunkPtr;
  n_value : ChunkPtr
}.

Definition sizeKVNode : Z := 32.

(** [binary.Write(buf, LittleEndian, n.dto())] *)
Definition kvnode_encode (n : KVNode) : list byte :=
  put_i64 (n_prev n) ++ put_i64 (n_next n) ++ put_i64 (n_key n) ++ put_i64 (n_value n).

(** [binary.Read(buf, LittleEndian, &dto)] from a buffer holding [b]. *)
Definition kvnode_decode (chunk : Z) (b : list byte) : result KVNode :=
  if (length b =? 0)%nat then Err EOF
  else if (length b <? 32)%nat then Err ErrUnexpectedEOF
  else Ok (mkKVNode chunk (get_i64 b) (get_i64 (drop 8 b))
                    (get_i64 (drop 16 b)) (get_i64 (drop 24 b))).

Section KVNodeOps.
Context {W H : Type} `{!ReadWriteSeeker W H}.

Abbreviation St := (W * Pool H)%type.

Definition lift_result {A} (r : result A) : M St A := fun s => (r, s).

(** [n.chunk] is set by every constructor of the package, so the branch
    of [Write] for a nil chunk is never taken. *)
Definition KVNode_Write (fuel : nat) (n : KVNode) : M St unit :=
  Chunk_Write fuel (n_chunk n) (kvnode_encode n).

(** [node := &KVNode{chunk: chunk}; node.Read()] *)
Definition KVNode_Read (fuel : nat) (chunk : Z) : M St KVNode :=
  b ← Chunk_ReadAll fuel chunk;
  lift_result (kvnode_decode chunk b).

Definition NewKVNode (fuel : nat) (key value : ChunkPtr) : M St KVNode :=
  chunk ← Pool_Alloc fuel (u32 sizeKVNode);
  let node := mkKVNode chunk 0 0 key value in
  KVNode_Write fuel node;;
  ret node.

Definition NewKVNodeFromChunkPtr (fuel : nat) (chunkPtr : ChunkPtr) : M St KVNode :=
  chunk ← Pool_Get chunkPtr;
  KVNode_Read fuel chunk.

Definition KVNode_Ptr (n : KVNode) : ChunkPtr := n_chunk n.

Definition KVNode_Key (n : KVNode) : M St Z := Pool_Get (n_key n).
Definition KVNode_Value (n : KVNode) : M St Z := Pool_Get (n_value n).

Definition KVNode_KeyBytes (fuel : nat) (n : KVNode) : M St (list byte) :=
  chunk ← Pool_Get (n_key n);
  Chunk_ReadAll fuel chunk.

Definition KVNode_ValueBytes (fuel : nat) (n : KVNode) : M St (list byte) :=
  chunk ← Pool_Get (n_value n);
  Chunk_ReadAll fuel chunk.

(** Returns the old value pointer; the node written is the second
    component. *)
Definition KVNode_SetValue (fuel : nat) (n : KVNode) (value : ChunkPtr)
  : M St (ChunkPtr * KVNode) :=
  oldValue ← KVNode_Value n;
  let n' := mkKVNode (n_chunk n) (n_prev n) (n_next n) (n_key n) value in
  KVNode_Write fuel n';;
  ret (oldValue, n').

(** [nil] is [None]. *)
Definition KVNode_Next (fuel : nat) (n : KVNode) : M St (option KVNode) :=
  if n_next n =? 0 then ret None
  else
    chunk ← Pool_Get (n_next n);
    node ← KVNode_Read fuel chunk;
    ret (Some node).

Definition KVNode_Prev (fuel : nat) (n : KVNode) : M St (option KVNode) :=
  if n_prev n =? 0 then ret None
  else
    chunk ← Pool_Get (n_prev n);
    node ← KVNode_Read fuel chunk;
    ret (Some node).

(** The loop of [ListSize]: [for node.next != 0]. *)
Fixpoint ListSize_loop (fuel k : nat) (node : KVNode) (size : Z) : M St Z :=
  match k with
  | O => diverge
  | S k' =>
      if n_next node =? 0 then ret size
      else
        nx ← KVNode_Next fuel node;
        match nx with
        | Some node' => ListSize_loop fuel k' node' (size + 1)
        | None => fail ErrPanic
        end
  end.

Definition KVNode_ListSize (fuel : nat) (n : KVNode) : M St Z :=
  ListSize_loop fuel fuel n 1.

(** The loop of [Append]: [for lastNode.next != 0]. *)
Fixpoint lastNode_loop (fuel k : nat) (lastNode : KVNode) : M St KVNode :=
  match k with
  | O => diverge
  | S k' =>
      if n_next lastNode =? 0 then ret lastNode
      else
        nx ← KVNode_Next fuel lastNode;
        match nx with
        | Some node' => lastNode_loop fuel k' node'
        | None => fail ErrPanic
        end
  end.

Definition KVNode_Append (fuel : nat) (n : KVNode) (key value : ChunkPtr) : M St KVNode :=
  lastNode ← lastNode_loop fuel fuel n;
  chunk ← Pool_Alloc fuel (u32 sizeKVNode);
  let node := mkKVNode chunk (n_chunk lastNode) 0 key value in
  KVNode_Write fuel node;;
  let lastNode' := mkKVNode (n_chunk lastNode) (n_prev lastNode) (n_chunk node)
                            (n_key lastNode) (n_value lastNode) in
  KVNode_Write fuel lastNode';;
  ret node.

(** The loop of [Delete]: [for head.prev != 0]. *)
Fixpoint head_loop (fuel k : nat) (head : KVNode) : M St KVNode :=
  match k with
  | O => diverge
  | S k' =>
      if n_prev head =? 0 then ret head
      else
        pv ← KVNode_Prev fuel head;
        match pv with
        | Some node' => head_loop fuel k' node'
        | None => fail ErrPanic
        end
  end.

(** [Delete]: the new head pointer, or the pointer returned with the
    error. *)
Definition KVNode_Delete (fuel : nat) (n : KVNode) : M St ChunkPtr :=
  if n_prev n =? 0 then
    Chunk_Free fuel (n_chunk n);;
    next ← KVNode_Next fuel n;
    match next with
    | None => ret (n_next n)
    | Some next =>
        let next' := mkKVNode (n_chunk next) 0 (n_next next) (n_key next) (n_value next) in
        KVNode_Write fuel next';;
        ret (n_next n)
    end
  else
    head ← head_loop fuel fuel n;
    (* [prev, err := n.Prev()]: the error is dropped *)
    rc ← try (Pool_Get (n_prev n));
    match rc with
    | OutOfFuel => diverge
    | Err _ => fail ErrPanic          (* [prev] is nil *)
    | Ok chunk =>
        rn ← try (KVNode_Read fuel chunk);
        match rn with
        | OutOfFuel => diverge
        | _ =>
            let prev := match rn with Ok nd => nd | _ => mkKVNode chunk 0 0 0 0 end in
            let prev' := mkKVNode (n_chunk prev) (n_prev prev) (n_next n)
                                  (n_key prev) (n_value prev) in
            KVNode_Write fuel prev';;
            Chunk_Free fuel (n_chunk n);;
            ret (n_chunk head)
        end
    end.

Fixpoint DeleteAll_loop (fuel k : nat) (n : KVNode) : M St unit :=
  match k with
  | O => diverge
  | S k' =>
      newHead ← KVNode_Delete fuel n;
      if newHead =? 0 then ret tt
      else
        n' ← NewKVNodeFromChunkPtr fuel newHead;
        DeleteAll_loop fuel k' n'
  end.

Definition KVNode_DeleteAll (fuel : nat) (n : KVNode) : M St unit :=
  if negb (n_prev n =? 0) then fail ErrDeleteAllNotHead
  else DeleteAll_loop fuel fuel n.
End KVNodeOps.

(* ===================================================================== *)
(** * package container: bucket arrays and the hash map *)
(* ===================================================================== *)

Definition HashMapN : Z := 128.
Definition HashMapMaxList : Z := 32.

Definition bucketTypeList : Z := 0.
Definition bucketTypeBuckets : Z := 1.

(** A [*hashBucket]: [b_chunk] is the chunk of the array it belongs to,
    [b_idx] its slot. *)
Record hashBucket := mkBucket {
  b_Type : Z;
  b_Head : ChunkPtr;
  b_chunk : Z;
  b_idx : nat
}.

Definition sizeHashBucket : Z := 1 + 8.
Definition sizeHashBuckets : Z := HashMapN * sizeHashBucket.

Definition hashBuckets := list hashBucket.

Definition newHashBuckets (chunk : Z) : hashBuckets :=
  map (fun i => mkBucket 0 0 chunk i) (seq 0 (Z.to_nat HashMapN)).

Definition hashBuckets_encode (bb : hashBuckets) : list byte :=
  flat_map (fun b => put_u8 (b_Type b) ++ put_i64 (b_Head b)) bb.

Definition hashBuckets_decode (bb : hashBuckets) (b : list byte) : hashBuckets :=
  map (fun bk => mkBucket (get_u8 (drop (9 * b_idx bk) b))
                          (get_i64 (drop (9 * b_idx bk + 1) b))
                          (b_chunk bk) (b_idx bk)) bb.

Definition hashKey (b : list byte) : Z := fnv1a_32 b.

(** The slot of [key] in the array stored in the chunk at [pos]. *)
Definition slot_of (pos : Z) (key : list byte) : nat :=
  Z.to_nat (hashKey (FormatInt32 pos ++ key) mod HashMapN).

Definition array_chunk (bb : hashBuckets) : Z :=
  match bb with
  | b :: _ => b_chunk b
  | [] => 0
  end.

Definition hashBuckets_bucket (bb : hashBuckets) (key : list byte) : hashBucket :=
  nth (slot_of (array_chunk bb) key) bb (mkBucket 0 0 0 0).

Definition set_bucket (bb : hashBuckets) (b : hashBucket) : hashBuckets :=
  <[b_idx b := b]> bb.

Section HashMapOps.
Context {W H : Type} `{!ReadWriteSeeker W H}.

Abbreviation St := (W * Pool H)%type.

Definition hashBuckets_WriteTo (fuel : nat) (bb : hashBuckets) (chunk : Z) : M St unit :=
  Chunk_Write fuel chunk (hashBuckets_encode bb).

Definition hashBuckets_ReadFrom (fuel : nat) (bb : hashBuckets) (chunk : Z)
  : M St hashBuckets :=
  b ← Chunk_ReadAll fuel chunk;
  if negb (Zlength b =? sizeHashBuckets)
  then fail (ErrExpectedToRead (Z.to_nat sizeHashBuckets) (length b))
  else ret (hashBuckets_decode bb b).

(** [findBucket]: the leaf bucket of [key] and whether it is an element
    of [bb] itself (and not of an array loaded on the way down). *)
Fixpoint hashBuckets_findBucket (fuel : nat) (bb : hashBuckets) (key : list byte)
  : M St (hashBucket * bool) :=
  match fuel with
  | O => diverge
  | S fuel' =>
      let bucket := hashBuckets_bucket bb key in
      if b_Type bucket =? bucketTypeBuckets then
        chunk ← Pool_Get (b_Head bucket);
        newBuckets ← hashBuckets_ReadFrom fuel' (newHashBuckets chunk) chunk;
        r ← hashBuckets_findBucket fuel' newBuckets key;
        ret (fst r, false)
      else if b_Type bucket =? bucketTypeList then ret (bucket, true)
      else fail (ErrInvalidBucketType (b_Type bucket))
  end.

Definition hashBucket_Write (fuel : nat) (b : hashBucket) : M St unit :=
  Chunk_WriteAt fuel (b_chunk b) (put_u8 (b_Type b) ++ put_i64 (b_Head b))
                (Z.of_nat (b_idx b) * sizeHashBucket).

(** The loop of [findHashMapItem]: [for n != nil]. *)
Fixpoint findHashMapItem_loop (fuel k : nat) (n : option KVNode) (needle : list byte)
  : M St (option KVNode) :=
  match k with
  | O => diverge
  | S k' =>
      match n with
      | None => ret None
      | Some nd =>
          key ← KVNode_KeyBytes fuel nd;
          if bytes_eqb key needle then ret (Some nd)
          else
            nx ← KVNode_Next fuel nd;
            findHashMapItem_loop fuel k' nx needle
      end
  end.

Definition findHashMapItem (fuel : nat) (n : option KVNode) (needle : list byte)
  : M St (option KVNode) :=
  findHashMapItem_loop fuel fuel n needle.

Definition hashBucket_findHashMapItem (fuel : nat) (b : hashBucket) (needle : list byte)
  : M St (option KVNode) :=
  head ← NewKVNodeFromChunkPtr fuel (b_Head b);
  findHashMapItem fuel (Some head) needle.

(** A method that updates the [*hashBucket] it is called on returns the
    bucket as it is left in memory, together with the Go error. *)
Definition with_bucket (b : hashBucket) (m : M St unit) : M St (hashBucket * option error) :=
  r ← try m;
  match r with
  | Ok _ => ret (b, None)
  | Err e => ret (b, Some e)
  | OutOfFuel => diverge
  end.

(** The re-insertion loop of a split: [for node != nil]. *)
Fixpoint split_loop
    (append : hashBucket -> list byte -> ChunkPtr -> ChunkPtr -> M St (hashBucket * option error))
    (fuel k : nat) (newBuckets : hashBuckets) (node : option KVNode)
  : M St hashBuckets :=
  match k with
  | O => diverge
  | S k' =>
      match node with
      | None => ret newBuckets
      | Some nd =>
          nodeKey ← KVNode_KeyBytes fuel nd;
          fb ← hashBuckets_findBucket fuel newBuckets nodeKey;
          r ← append (fst fb) nodeKey (n_key nd) (n_value nd);
          let newBuckets' := if (snd fb : bool) then set_bucket newBuckets (fst r) else newBuckets in
          match snd r with
          | Some e => fail e
          | None =>
              nx ← KVNode_Next fuel nd;
              split_loop append fuel k' newBuckets' nx
          end
      end
  end.

Fixpoint hashBucket_Append (fuel : nat) (b : hashBucket) (keyBytes : list byte)
    (key value : ChunkPtr) : M St (hashBucket * option error) :=
  match fuel with
  | O => diverge
  | S fuel' =>
      if negb (b_Type b =? bucketTypeList) then ret (b, Some (ErrCannotAppend (b_Type b)))
      else if b_Head b =? 0 then
        rh ← try (NewKVNode fuel' key value);
        match rh with
        | OutOfFuel => diverge
        | Err e => ret (b, Some e)
        | Ok head =>
            let b' := mkBucket (b_Type b) (KVNode_Ptr head) (b_chunk b) (b_idx b) in
            with_bucket b' (hashBucket_Write fuel' b')
        end
      else
        rs ← try (head ← NewKVNodeFromChunkPtr fuel' (b_Head b);
                  size ← KVNode_ListSize fuel' head;
                  ret (head, size));
        match rs with
        | OutOfFuel => diverge
        | Err e => ret (b, Some e)
        | Ok (head, size) =>
            if size <? HashMapMaxList then
              with_bucket b (_ ← KVNode_Append fuel' head key value; ret tt)
            else
              rn ← try (chunk ← Pool_Alloc fuel' (u32 sizeHashBuckets);
                        let newBuckets := newHashBuckets chunk in
                        hashBuckets_WriteTo fuel' newBuckets chunk;;
                        newBuckets ← split_loop (hashBucket_Append fuel') fuel' fuel'
                                                newBuckets (Some head);
                        fb ← hashBuckets_findBucket fuel' newBuckets keyBytes;
                        r ← hashBucket_Append fuel' (fst fb) keyBytes key value;
                        match snd r with
                        | Some e => fail e
                        | None => ret chunk
                        end);
              match rn with
              | OutOfFuel => diverge
              | Err e => ret (b, Some e)
              | Ok chunk =>
                  let b' := mkBucket bucketTypeBuckets chunk (b_chunk b) (b_idx b) in
                  with_bucket b' (hashBucket_Write fuel' b';;
                                  KVNode_DeleteAll fuel' head)
              end
        end
  end.

Definition hashBucket_Upsert (fuel : nat) (b : hashBucket) (key : list byte)
    (value : ChunkPtr) : M St (hashBucket * option error) :=
  if b_Head b =? 0 then
    rk ← try (Pool_AllocAndWrite fuel key);
    match rk with
    | OutOfFuel => diverge
    | Err e => ret (b, Some e)
    | Ok keyChunk => hashBucket_Append fuel b key keyChunk value
    end
  else
    rn ← try (hashBucket_findHashMapItem fuel b key);
    match rn with
    | OutOfFuel => diverge
    | Err e => ret (b, Some e)
    | Ok None =>
        rk ← try (Pool_AllocAndWrite fuel key);
        match rk with
        | OutOfFuel => diverge
        | Err e => ret (b, Some e)
        | Ok keyChunk => hashBucket_Append fuel b key keyChunk value
        end
    | Ok (Some node) =>
        with_bucket b (r ← KVNode_SetValue fuel node value;
                       oldChunk ← Pool_Get (fst r);
                       Chunk_Free fuel oldChunk)
    end.
End HashMapOps.

Record HashMap (H : Type) := mkHashMap {
  hm_pool : Pool H;
  headBuckets : hashBuckets;
  headBucketsChunk : Z
}.
Arguments mkHashMap {H}.
Arguments hm_pool {H}.
Arguments headBuckets {H}.
Arguments headBucketsChunk {H}.

Section HashMapAPI.
Context {W H : Type} `{!ReadWriteSeeker W H}.

Abbreviation MSt := (W * HashMap H)%type.

(** Pool code run on the map's pool. *)
Definition on_pool {A} (m : M (W * Pool H) A) : M MSt A :=
  fun s =>
    let '(w, hm) := s in
    let '(r, (w', p')) := m (w, hm_pool hm) in
    (r, (w', mkHashMap p' (headBuckets hm) (headBucketsChunk hm))).

Definition set_headBucket (b : hashBucket) : M MSt unit :=
  modify (fun s => (fst s, mkHashMap (hm_pool (snd s))
                                     (set_bucket (headBuckets (snd s)) b)
                                     (headBucketsChunk (snd s)))).

Definition NewHashMap (fuel : nat) (order : list nat) (f : H) : M W (HashMap H) :=
  fun w =>
    match NewPool fuel order f w with
    | (Ok pool, w') =>
        if (Pool_Size pool =? 0)%nat then
          let '(r, (w'', pool')) :=
            (chunk ← Pool_Alloc fuel (u32 sizeHashBuckets);
             hashBuckets_WriteTo fuel (newHashBuckets chunk) chunk;;
             ret chunk) (w', pool) in
          (match r with
           | Ok chunk => Ok (mkHashMap pool' (newHashBuckets chunk) chunk)
           | Err e => Err e
           | OutOfFuel => OutOfFuel
           end, w'')
        else
          let '(r, (w'', pool')) :=
            (chunk ← Pool_Get 0;
             bb ← hashBuckets_ReadFrom fuel (newHashBuckets chunk) chunk;
             ret (chunk, bb)) (w', pool) in
          (match r with
           | Ok (chunk, bb) => Ok (mkHashMap pool' bb chunk)
           | Err e => Err e
           | OutOfFuel => OutOfFuel
           end, w'')
    | (Err e, w') => (Err e, w')
    | (OutOfFuel, w') => (OutOfFuel, w')
    end.

(** [m.headBuckets.findBucket(key)] *)
Definition HashMap_findBucket (fuel : nat) (key : list byte) : M MSt (hashBucket * bool) :=
  s ← get_st;
  on_pool (hashBuckets_findBucket fuel (headBuckets (snd s)) key).

(** Write a bucket that is an element of [m.headBuckets] back into it. *)
Definition keep_bucket (own : bool) (r : hashBucket * option error) : M MSt unit :=
  (if own then set_headBucket (fst r) else ret tt);;
  match snd r with
  | Some e => fail e
  | None => ret tt
  end.

Definition HashMap_delete (fuel : nat) (key : list byte) : M MSt unit :=
  fb ← HashMap_findBucket fuel key;
  let bucket := fst fb in
  if b_Head bucket =? 0 then fail (ErrMapKeyNotFound key)
  else
    head ← on_pool (NewKVNodeFromChunkPtr fuel (b_Head bucket));
    node ← on_pool (findHashMapItem fuel (Some head) key);
    match node with
    | None => fail (ErrMapKeyNotFound key)
    | Some node =>
        newHead ← on_pool (KVNode_Delete fuel node);
        let bucket' := mkBucket (b_Type bucket) newHead (b_chunk bucket) (b_idx bucket) in
        r ← on_pool (with_bucket bucket' (hashBucket_Write fuel bucket'));
        keep_bucket (snd fb) r
    end.

Definition HashMap_Delete := HashMap_delete.

(** [Load]: the Go triple [(value, found, err)]; [nil] is [[]]. *)
Definition HashMap_load (fuel : nat) (key : list byte)
  : M MSt (list byte * bool * option error) :=
  rb ← try (HashMap_findBucket fuel key);
  match rb with
  | OutOfFuel => diverge
  | Err e => ret (@nil byte, false, Some e)
  | Ok fb =>
      let bucket := fst fb in
      rn ← try (on_pool (
              head ← (if negb (b_Head bucket =? 0)
                      then hd ← NewKVNodeFromChunkPtr fuel (b_Head bucket); ret (Some hd)
                      else ret None);
              findHashMapItem fuel head key));
      match rn with
      | OutOfFuel => diverge
      | Err e => ret (@nil byte, false, Some e)
      | Ok None => ret (@nil byte, false, None)
      | Ok (Some node) =>
          rv ← try (on_pool (KVNode_ValueBytes fuel node));
          match rv with
          | OutOfFuel => diverge
          | Err e => ret (@nil byte, true, Some e)
          | Ok b => ret (b, true, None)
          end
      end
  end.

Definition HashMap_Load := HashMap_load.

(** [m.headBuckets.Upsert(key, value)] *)
Definition HashMap_store (fuel : nat) (key : list byte) (value : ChunkPtr) : M MSt unit :=
  fb ← HashMap_findBucket fuel key;
  r ← on_pool (hashBucket_Upsert fuel (fst fb) key value);
  keep_bucket (snd fb) r.

Definition HashMap_Store (fuel : nat) (key value : list byte) : M MSt unit :=
  valueChunk ← on_pool (Pool_AllocAndWrite fuel value);
  HashMap_store fuel key valueChunk.
End HashMapAPI.

(* ===================================================================== *)
(** * package block: the block file *)
(* ===================================================================== *)

Definition Magic : Z := 1978942581.
Definition LatestVersion : Z := 1.
Definition DefaultBlockSize : Z := 4096.

Record DBMeta := mkDBMeta {
  m_Magic : Z;
  m_Version : Z;
  m_BlockSize : Z;
  m_BlockCount : Z;
  m_FirstFreeBlock : Z
}.

Definition DBMeta_Size : Z := 4 + 4 + 4 + 4 + 4.

(** [pos] and [idx] are fixed when the struct is made; [End] and [Next]
    shadow the block header on disk. *)
Record BlockMeta := mkBlockMeta {
  bm_pos : Z;
  bm_idx : Z;
  bm_End : Z;
  bm_Next : Z
}.

Definition sizeEnd : Z := 4.
Definition sizeNext : Z := 4.
Definition BlockMeta_Size : Z := sizeEnd + sizeNext.
Definition MinimumBlockSize : Z := u32 (BlockMeta_Size + 1).

(** The part of a [BlockDB] that its objects reach through [o.db]: the
    file and the header shadow. *)
Record DBCore := mkDBCore {
  db_f : File;
  db_meta : DBMeta;
  db_sizeMeta : Z
}.

Record Object := mkObject {
  o_blocks : list BlockMeta;
  o_offset : Z;
  o_posBlockIdx : Z;
  o_posBlockOff : Z
}.

Section BlockFile.
(** Calls on [db.f]. *)
Definition on_dbf {A} (m : M (unit * File) A) : M DBCore A :=
  fun db =>
    let '(r, (_, f')) := m (tt, db_f db) in
    (r, mkDBCore f' (db_meta db) (db_sizeMeta db)).

Definition dbf_Seek (offset whence : Z) : M DBCore Z := on_dbf (rws_Seek O offset whence).
Definition dbf_Write (p : list byte) : M DBCore unit := on_dbf (s_Write p).
Definition dbf_put_u32 (z : Z) : M DBCore unit := dbf_Write (put_u32 z).
Definition dbf_get_u32 : M DBCore Z := on_dbf read_u32.

Definition set_meta (m : DBMeta) : M DBCore unit :=
  modify (fun db => mkDBCore (db_f db) m (db_sizeMeta db)).

Definition block_pos (db : DBCore) (idx : Z) : Z :=
  db_sizeMeta db + idx * m_BlockSize (db_meta db).

(** [m.ReadFrom(db.f)] into a struct made with [pos] and [idx]. *)
Definition BlockMeta_ReadFrom (pos idx : Z) : M DBCore BlockMeta :=
  e ← dbf_get_u32;
  n ← dbf_get_u32;
  ret (mkBlockMeta pos idx e n).

Definition BlockMeta_WriteTo (m : BlockMeta) : M DBCore unit :=
  dbf_put_u32 (bm_End m);;
  dbf_put_u32 (bm_Next m).

Definition BlockMeta_WriteEnd (m : BlockMeta) : M DBCore unit :=
  dbf_Seek (bm_pos m) SeekStart;;
  dbf_put_u32 (bm_End m).

Definition BlockMeta_WriteNext (m : BlockMeta) : M DBCore unit :=
  dbf_Seek (bm_pos m + sizeEnd) SeekStart;;
  dbf_put_u32 (bm_Next m).

Definition DBMeta_WriteTo (m : DBMeta) : M DBCore Z :=
  dbf_put_u32 (m_Magic m);;
  dbf_put_u32 (m_Version m);;
  dbf_put_u32 (m_BlockSize m);;
  dbf_put_u32 (m_BlockCount m);;
  dbf_put_u32 (m_FirstFreeBlock m);;
  ret DBMeta_Size.

Definition DBMeta_WriteBlockCount (m : DBMeta) : M DBCore unit :=
  dbf_Seek (4 + 4 + 4) SeekStart;;
  dbf_put_u32 (m_BlockCount m).

Definition DBMeta_WriteFirstFreeBlock (m : DBMeta) : M DBCore unit :=
  dbf_Seek (4 + 4 + 4 + 4) SeekStart;;
  dbf_put_u32 (m_FirstFreeBlock m).

Definition DBMeta_ReadFrom : M DBCore (DBMeta * Z) :=
  magic ← dbf_get_u32;
  if negb (magic =? Magic) then fail (ErrMagic magic) else
  version ← dbf_get_u32;
  if (LatestVersion <? version) || (version =? 0) then fail (ErrVersion version) else
  blockSize ← dbf_get_u32;
  if blockSize <? MinimumBlockSize then fail (ErrBlockSize blockSize) else
  blockCount ← dbf_get_u32;
  firstFree ← dbf_get_u32;
  ret (mkDBMeta magic version blockSize blockCount firstFree, DBMeta_Size).

(** The header loop of [grow]: [for i := 0; i < n; i++]. *)
Fixpoint grow_loop (k : nat) (i n startNewBlocks : Z) : M DBCore (list BlockMeta) :=
  match k with
  | O => ret []
  | S k' =>
      db ← get_st;
      let blockPos := startNewBlocks + i * m_BlockSize (db_meta db) in
      dbf_Seek blockPos SeekStart;;
      let meta := mkBlockMeta blockPos (u32 (m_BlockCount (db_meta db) + i)) 0
                    (if i =? n - 1 then 0 else u32 (m_BlockCount (db_meta db) + i + 1)) in
      BlockMeta_WriteTo meta;;
      rest ← grow_loop k' (i + 1) n startNewBlocks;
      ret (meta :: rest)
  end.

(** The walk of [findLastFreeBlock]. *)
Fixpoint lastFree_loop (k : nat) (curPos : Z) (blockMeta : BlockMeta) : M DBCore Z :=
  match k with
  | O => diverge
  | S k' =>
      if bm_Next blockMeta =? 0 then ret curPos
      else
        db ← get_st;
        curPos' ← dbf_Seek (block_pos db (bm_Next blockMeta)) SeekStart;
        bm ← BlockMeta_ReadFrom 0 0;
        lastFree_loop k' curPos' bm
  end.

Definition BlockDB_findLastFreeBlock (fuel : nat) : M DBCore Z :=
  db ← get_st;
  curPos ← dbf_Seek (block_pos db (m_FirstFreeBlock (db_meta db))) SeekStart;
  bm ← BlockMeta_ReadFrom 0 0;
  curPos' ← lastFree_loop fuel curPos bm;
  let lastFreeBlock := (curPos' - db_sizeMeta db) / m_BlockSize (db_meta db) in
  if lastFreeBlock =? 0 then fail ErrLastFreeBlock
  else ret (u32 lastFreeBlock).

Definition BlockDB_grow (fuel : nat) (n : Z) (free : bool) : M DBCore (list BlockMeta) :=
  db ← get_st;
  let meta := db_meta db in
  let startNewBlocks := db_sizeMeta db + m_BlockCount meta * m_BlockSize meta in
  dbf_Seek startNewBlocks SeekStart;;
  dbf_Write (zeros (Z.to_nat (u32 (n * m_BlockSize meta))));;
  mm ← grow_loop (Z.to_nat n) 0 n startNewBlocks;
  let meta' := mkDBMeta (m_Magic meta) (m_Version meta) (m_BlockSize meta)
                        (u32 (m_BlockCount meta + n)) (m_FirstFreeBlock meta) in
  set_meta meta';;
  DBMeta_WriteBlockCount meta';;
  if negb free then ret mm
  else if m_FirstFreeBlock meta' =? 0 then
    let meta'' := mkDBMeta (m_Magic meta') (m_Version meta') (m_BlockSize meta')
                           (m_BlockCount meta') (u32 (m_BlockCount meta' - n)) in
    set_meta meta'';;
    DBMeta_WriteFirstFreeBlock meta'';;
    ret []
  else
    firstFreeBlock ← BlockDB_findLastFreeBlock fuel;
    match mm with
    | [] => fail ErrPanic
    | m0 :: _ =>
        db' ← get_st;
        let bm := mkBlockMeta (block_pos db' firstFreeBlock) firstFreeBlock 0 (bm_idx m0) in
        dbf_Seek (bm_pos bm) SeekStart;;
        BlockMeta_WriteTo bm;;
        ret []
    end.

Definition BlockDB_Grow (fuel : nat) (n : Z) : M DBCore unit :=
  _ ← BlockDB_grow fuel n true; ret tt.

Fixpoint BlockDB_free (fuel : nat) (idx : Z) : M DBCore unit :=
  match fuel with
  | O => diverge
  | S fuel' =>
      db ← get_st;
      let pos := block_pos db idx in
      dbf_Seek pos SeekStart;;
      meta ← BlockMeta_ReadFrom pos idx;
      let next := bm_Next meta in
      let meta' := mkBlockMeta pos idx 0 (m_FirstFreeBlock (db_meta db)) in
      dbf_Seek pos SeekStart;;
      BlockMeta_WriteTo meta';;
      let dm := db_meta db in
      let dm' := mkDBMeta (m_Magic dm) (m_Version dm) (m_BlockSize dm)
                          (m_BlockCount dm) idx in
      set_meta dm';;
      DBMeta_WriteFirstFreeBlock dm';;
      if negb (next =? 0) then BlockDB_free fuel' next else ret tt
  end.

Definition BlockDB_allocSingle (fuel : nat) : M DBCore BlockMeta :=
  db ← get_st;
  let dm := db_meta db in
  if negb (m_FirstFreeBlock dm =? 0) then
    let pos := block_pos db (m_FirstFreeBlock dm) in
    dbf_Seek pos SeekStart;;
    meta ← BlockMeta_ReadFrom pos (m_FirstFreeBlock dm);
    let dm' := mkDBMeta (m_Magic dm) (m_Version dm) (m_BlockSize dm)
                        (m_BlockCount dm) (bm_Next meta) in
    set_meta dm';;
    DBMeta_WriteFirstFreeBlock dm';;
    let meta' := mkBlockMeta (bm_pos meta) (bm_idx meta) (bm_End meta) 0 in
    dbf_Seek (bm_pos meta') SeekStart;;
    BlockMeta_WriteNext meta';;
    ret meta'
  else
    mm ← BlockDB_grow fuel 1 false;
    match mm with
    | m0 :: _ => ret m0
    | [] => fail ErrPanic
    end.

(** The walk of [db.blocks(start)]: [for block.Next != 0]. *)
Fixpoint blocks_loop (k : nat) (block : BlockMeta) : M DBCore (list BlockMeta) :=
  match k with
  | O => diverge
  | S k' =>
      if bm_Next block =? 0 then ret []
      else
        db ← get_st;
        let pos := block_pos db (bm_Next block) in
        dbf_Seek pos SeekStart;;
        block' ← BlockMeta_ReadFrom pos (bm_Next block);
        rest ← blocks_loop k' block';
        ret (block' :: rest)
  end.

Definition BlockDB_blocks (fuel : nat) (start : Z) : M DBCore (list BlockMeta) :=
  db ← get_st;
  let pos := block_pos db start in
  dbf_Seek pos SeekStart;;
  block ← BlockMeta_ReadFrom pos start;
  rest ← blocks_loop fuel block;
  ret (block :: rest).
End BlockFile.

(* ===================================================================== *)
(** * package block: objects *)
(* ===================================================================== *)

Section ObjectOps.
Abbreviation OSt := (DBCore * Object)%type.

Definition on_db {A} (m : M DBCore A) : M OSt A := zoom_fst m.

Definition get_obj : M OSt Object := s ← get_st; ret (snd s).
Definition set_obj (o : Object) : M OSt unit := modify (fun s => (fst s, o)).

(** [o.blocks[i]]; an index out of range panics. *)
Definition block_at (o : Object) (i : Z) : M OSt BlockMeta :=
  if i <? 0 then fail ErrPanic
  else match o_blocks o !! Z.to_nat i with
       | Some b => ret b
       | None => fail ErrPanic
       end.

Definition Object_size (o : Object) : Z :=
  fold_left (fun size b => size + bm_End b) (o_blocks o) 0.

Definition payload_cap (db : DBCore) : Z :=
  u32 (m_BlockSize (db_meta db) - u32 BlockMeta_Size).

(** [o.read(p)] with [len(p) = n]; [k] bounds the calls, each of which
    reads at least one byte or returns. *)
Fixpoint Object_read_loop (k n : nat) : M OSt (list byte * option error) :=
  match k with
  | O => diverge
  | S k' =>
      o ← get_obj;
      blockMeta ← block_at o (o_posBlockIdx o);
      if o_posBlockOff o =? bm_End blockMeta then ret ([], Some EOF)
      else
        let canRead0 := u32 (bm_End blockMeta - o_posBlockOff o) in
        let canRead := if Z.of_nat n <? canRead0 then u32 (Z.of_nat n) else canRead0 in
        rs ← try (on_db (dbf_Seek (bm_pos blockMeta + BlockMeta_Size + o_posBlockOff o)
                                   SeekStart));
        match rs with
        | OutOfFuel => diverge
        | Err e => ret ([], Some e)
        | Ok _ =>
            r ← on_db (on_dbf (rws_Read (Z.to_nat canRead)));
            match snd r with
            | Some e => ret (fst r, Some e)
            | None =>
                let got := Zlength (fst r) in
                let off' := u32 (o_posBlockOff o + got) in
                let adv := (off' =? bm_End blockMeta) && negb (bm_Next blockMeta =? 0) in
                set_obj (mkObject (o_blocks o) (o_offset o + got)
                                  (if adv then o_posBlockIdx o + 1 else o_posBlockIdx o)
                                  (if adv then 0 else off'));;
                if (n - length (fst r) =? 0)%nat then ret (fst r, None)
                else
                  rest ← Object_read_loop k' (n - length (fst r));
                  ret (fst r ++ fst rest, snd rest)
            end
        end
  end.

Definition Object_read (n : nat) : M OSt (list byte * option error) :=
  Object_read_loop (S n) n.

Definition set_last_Next (bs : list BlockMeta) (nx : Z) : list BlockMeta :=
  match bs with
  | [] => []
  | _ =>
      let i := (length bs - 1)%nat in
      match bs !! i with
      | Some b => <[i := mkBlockMeta (bm_pos b) (bm_idx b) (bm_End b) nx]> bs
      | None => bs
      end
  end.

(** The first loop of [alloc]: [for n > 0 && next != 0], taking blocks
    off the free list.  Returns the blocks taken, the block that follows
    them in the free list and how many are still wanted. *)
Fixpoint alloc_free_loop (n : nat) (next : Z) : M DBCore (list BlockMeta * Z * nat) :=
  match n with
  | O => ret ([], next, O)
  | S n' =>
      if next =? 0 then ret ([], next, n)
      else
        db ← get_st;
        let pos := block_pos db next in
        dbf_Seek pos SeekStart;;
        newBlockMeta ← BlockMeta_ReadFrom pos next;
        r ← alloc_free_loop n' (bm_Next newBlockMeta);
        ret (newBlockMeta :: fst (fst r), snd (fst r), snd r)
  end.

(** The first half of [alloc]: the blocks taken off the free list are
    unlinked from it, linked after the object's tail and appended.  Returns
    whether [alloc] returns here, and how many blocks are still wanted. *)
Definition alloc_take_free (n : Z) : M OSt (bool * Z) :=
  s ← get_st;
  r ← on_db (alloc_free_loop (Z.to_nat n) (m_FirstFreeBlock (db_meta (fst s))));
  let newFreeBlocks := fst (fst r) in
  let next := snd (fst r) in
  let n' := Z.of_nat (snd r) in
  match newFreeBlocks with
  | [] => ret (false, n')
  | first :: _ =>
      db ← on_db get_st;
      let dm := db_meta db in
      let dm' := mkDBMeta (m_Magic dm) (m_Version dm) (m_BlockSize dm)
                          (m_BlockCount dm) next in
      on_db (set_meta dm');;
      on_db (DBMeta_WriteFirstFreeBlock dm');;
      let newFreeBlocks' := set_last_Next newFreeBlocks 0 in
      match last newFreeBlocks' with
      | None => fail ErrPanic
      | Some lastFree =>
          on_db (dbf_Seek (bm_pos lastFree) SeekStart);;
          on_db (BlockMeta_WriteNext lastFree);;
          o ← get_obj;
          let blocks' := set_last_Next (o_blocks o) (bm_idx first) in
          set_obj (mkObject blocks' (o_offset o) (o_posBlockIdx o) (o_posBlockOff o));;
          match last blocks' with
          | None => fail ErrPanic
          | Some tail =>
              on_db (dbf_Seek (bm_pos tail) SeekStart);;
              on_db (BlockMeta_WriteNext tail);;
              set_obj (mkObject (blocks' ++ newFreeBlocks') (o_offset o)
                                (o_posBlockIdx o) (o_posBlockOff o));;
              ret (n' =? 0, n')
          end
      end
  end.

(** The second half of [alloc]: [n] new blocks at the end of the file,
    linked after the object's tail and appended. *)
Definition alloc_grow (fuel : nat) (n : Z) : M OSt unit :=
  blocks ← on_db (BlockDB_grow fuel n false);
  o ← get_obj;
  (match o_blocks o with
   | [] => ret tt
   | _ =>
       match blocks with
       | [] => fail ErrPanic       (* [blocks[0]] *)
       | b0 :: _ =>
           let blocks' := set_last_Next (o_blocks o) (bm_idx b0) in
           set_obj (mkObject blocks' (o_offset o) (o_posBlockIdx o) (o_posBlockOff o));;
           match last blocks' with
           | None => fail ErrPanic
           | Some tail => on_db (BlockMeta_WriteNext tail)
           end
       end
   end);;
  o' ← get_obj;
  set_obj (mkObject (o_blocks o' ++ blocks) (o_offset o') (o_posBlockIdx o')
                    (o_posBlockOff o')).

Definition Object_alloc (fuel : nat) (n : Z) : M OSt unit :=
  r ← alloc_take_free n;
  if (fst r : bool) then ret tt else alloc_grow fuel (snd r).

(** The number of blocks [write] asks [alloc] for when [rem] bytes are
    left: [uint32(len(p) / int(BlockSize))], at least one. *)
Definition newBlocks_for (db : DBCore) (rem : Z) : Z :=
  let nb := u32 (rem / m_BlockSize (db_meta db)) in
  if nb =? 0 then 1 else nb.

(** How one call of [write] ends: it returns, or it calls itself on the
    rest of the input. *)
Inductive write_next :=
  | WReturn (err : option error)
  | WAgain (rest : list byte).

(** The body of [o.write(p)] up to its recursive call: the count written
    by this call and how it goes on. *)
Definition Object_write_once (fuel : nat) (p : list byte) : M OSt (nat * write_next) :=
  s ← get_st;
  let db := fst s in
  let o := snd s in
  blockMeta ← block_at o (o_posBlockIdx o);
  let canWrite0 := u32 (payload_cap db - o_posBlockOff o) in
  let canWrite := if Zlength p <? canWrite0 then u32 (Zlength p) else canWrite0 in
  rs ← try (on_db (dbf_Seek (bm_pos blockMeta + BlockMeta_Size + o_posBlockOff o)
                             SeekStart));
  match rs with
  | OutOfFuel => diverge
  | Err e => ret (O, WReturn (Some e))
  | Ok _ =>
      rw ← on_db (on_dbf (rws_Write (take (Z.to_nat canWrite) p)));
      match snd rw with
      | Some e => ret (fst rw, WReturn (Some e))
      | None =>
          let n := fst rw in
          let off' := u32 (o_posBlockOff o + Z.of_nat n) in
          let grew := bm_End blockMeta <? off' in
          let blockMeta' :=
            if grew then mkBlockMeta (bm_pos blockMeta) (bm_idx blockMeta) off'
                                     (bm_Next blockMeta)
            else blockMeta in
          set_obj (mkObject (<[Z.to_nat (o_posBlockIdx o) := blockMeta']> (o_blocks o))
                            (o_offset o + Z.of_nat n) (o_posBlockIdx o) off');;
          re ← (if grew then try (on_db (BlockMeta_WriteEnd blockMeta')) else ret (Ok tt));
          match re with
          | OutOfFuel => diverge
          | Err e => ret (n, WReturn (Some e))
          | Ok _ =>
              let p' := drop n p in
              if (length p' =? 0)%nat then ret (n, WReturn None)
              else if off' =? payload_cap db then
                ra ← (if bm_Next blockMeta' =? 0
                      then try (Object_alloc fuel (newBlocks_for db (Zlength p')))
                      else ret (Ok tt));
                match ra with
                | OutOfFuel => diverge
                | Err e => ret (n, WReturn (Some e))
                | Ok _ =>
                    o1 ← get_obj;
                    set_obj (mkObject (o_blocks o1) (o_offset o1)
                                      (o_posBlockIdx o1 + 1) 0);;
                    ret (n, WAgain p')
                end
              else ret (n, WAgain p')
          end
      end
  end.

(** [o.write(p)]; returns the count written and the error.  [k] bounds
    the calls: every other one writes at least one byte. *)
Fixpoint Object_write_loop (fuel k : nat) (p : list byte) : M OSt (nat * option error) :=
  match k with
  | O => diverge
  | S k' =>
      r ← Object_write_once fuel p;
      match snd r with
      | WReturn e => ret (fst r, e)
      | WAgain p' =>
          rest ← Object_write_loop fuel k' p';
          ret ((fst r + fst rest)%nat, snd rest)
      end
  end.

Definition Object_write (fuel : nat) (p : list byte) : M OSt (nat * option error) :=
  Object_write_loop fuel (2 * length p + 2) p.

Fixpoint Object_seekFromRelativeBack (fuel : nat) (offset : Z) : M OSt Z :=
  match fuel with
  | O => diverge
  | S fuel' =>
      o ← get_obj;
      if offset =? 0 then ret (o_offset o)
      else if (o_posBlockOff o =? 0) && (o_posBlockIdx o =? 0) then fail EOF
      else
        let canRead := if offset <? o_posBlockOff o then u32 offset else o_posBlockOff o in
        let off' := u32 (o_posBlockOff o - canRead) in
        if (off' =? 0) && negb (o_posBlockIdx o =? 0) then
          prev ← block_at o (o_posBlockIdx o - 1);
          set_obj (mkObject (o_blocks o) (o_offset o - canRead)
                            (o_posBlockIdx o - 1) (bm_End prev));;
          if offset - canRead =? 0 then ret (o_offset o - canRead)
          else Object_seekFromRelativeBack fuel' (offset - canRead)
        else
          set_obj (mkObject (o_blocks o) (o_offset o - canRead) (o_posBlockIdx o) off');;
          if offset - canRead =? 0 then ret (o_offset o - canRead)
          else Object_seekFromRelativeBack fuel' (offset - canRead)
  end.

Fixpoint Object_seekFromRelative (fuel : nat) (offset : Z) : M OSt Z :=
  match fuel with
  | O => diverge
  | S fuel' =>
      if offset <? 0 then Object_seekFromRelativeBack fuel' (i64 (-1 * offset))
      else
        o ← get_obj;
        blockMeta ← block_at o (o_posBlockIdx o);
        if offset =? 0 then ret (o_offset o)
        else if o_posBlockOff o =? bm_End blockMeta then fail EOF
        else
          let canRead0 := u32 (bm_End blockMeta - o_posBlockOff o) in
          let canRead := if offset <? canRead0 then u32 offset else canRead0 in
          let off' := u32 (o_posBlockOff o + canRead) in
          let adv := (off' =? bm_End blockMeta) && negb (bm_Next blockMeta =? 0) in
          set_obj (mkObject (o_blocks o) (o_offset o + canRead)
                            (if adv then o_posBlockIdx o + 1 else o_posBlockIdx o)
                            (if adv then 0 else off'));;
          if offset - canRead =? 0 then ret (o_offset o + canRead)
          else Object_seekFromRelative fuel' (offset - canRead)
  end.

Definition Object_seekFromStart (fuel : nat) (offset : Z) : M OSt Z :=
  o ← get_obj;
  set_obj (mkObject (o_blocks o) 0 0 0);;
  Object_seekFromRelative fuel offset.

Definition Object_seekFromEnd (fuel : nat) (offset : Z) : M OSt Z :=
  o ← get_obj;
  let idx := Zlength (o_blocks o) - 1 in
  tail ← block_at o idx;
  set_obj (mkObject (o_blocks o) (Object_size o) idx (bm_End tail));;
  Object_seekFromRelativeBack fuel offset.

Definition Object_seek (fuel : nat) (offset whence : Z) : M OSt Z :=
  if whence =? 0 then Object_seekFromStart fuel offset
  else if whence =? 1 then Object_seekFromRelative fuel offset
  else if whence =? 2 then Object_seekFromEnd fuel offset
  else fail (ErrUnknownWhence whence).

Definition Object_Seek := Object_seek.
Definition Object_Read := Object_read.
Definition Object_Write := Object_write.
End ObjectOps.

(** An [*Object] is an [io.ReadWriteSeeker]; its world is the block file.
    [alloc] inside [Write] is given the budget of the deepest free-list
    walk it can need, which it does not use ([grow] is called with
    [free = false]). *)
#[global] Instance Object_rws : ReadWriteSeeker DBCore Object := {
  rws_Read n := Object_read n;
  rws_Write p := Object_write O p;
  rws_Seek fuel off wh := Object_seek fuel off wh
}.

(* ===================================================================== *)
(** * package block: the object directory *)
(* ===================================================================== *)

Definition bytes_of (s : string) : list byte := list_byte_of_string s.
Definition quote : byte := x22.
Definition quoted (s : string) : list byte := quote :: bytes_of s ++ [quote].

(** [encoding/json] on [ObjectMeta] (the unexported [chunk] is skipped),
    for names made of characters that the encoder writes as they are. *)
Definition json_Marshal_ObjectMeta (name : string) (startBlock : Z) (deleted : bool)
  : list byte :=
  bytes_of "{" ++ quoted "Name" ++ bytes_of ":" ++ quoted name ++ bytes_of ","
  ++ quoted "StartBlock" ++ bytes_of ":" ++ bytes_of (pretty (Z.to_N startBlock))
  ++ bytes_of "," ++ quoted "Deleted" ++ bytes_of ":"
  ++ bytes_of (if deleted then "true" else "false") ++ bytes_of "}".

Fixpoint strip_prefix (pre l : list byte) : option (list byte) :=
  match pre, l with
  | [], _ => Some l
  | a :: pre', b :: l' => if bool_decide (a = b) then strip_prefix pre' l' else None
  | _ :: _, [] => None
  end.

Fixpoint until_quote (l : list byte) : option (list byte * list byte) :=
  match l with
  | [] => None
  | b :: l' =>
      if bool_decide (b = quote) then Some ([], l')
      else match until_quote l' with
           | Some (s, rest) => Some (b :: s, rest)
           | None => None
           end
  end.

Fixpoint digits (acc : Z) (l : list byte) : Z * list byte :=
  match l with
  | b :: l' =>
      let d := byte_to_Z b - 48 in
      if (0 <=? d) && (d <=? 9) then digits (10 * acc + d) l' else (acc, l)
  | [] => (acc, l)
  end.

(** [json.Unmarshal] on what [json_Marshal_ObjectMeta] writes; any other
    text is rejected here. *)
Definition json_Unmarshal_ObjectMeta (b : list byte) : option (string * Z * bool) :=
  l ← strip_prefix (bytes_of "{" ++ quoted "Name" ++ bytes_of ":" ++ [quote]) b;
  nr ← until_quote l;
  l ← strip_prefix (bytes_of "," ++ quoted "StartBlock" ++ bytes_of ":") (snd nr);
  let '(sb, l) := digits 0 l in
  l ← strip_prefix (bytes_of "," ++ quoted "Deleted" ++ bytes_of ":") l;
  match strip_prefix (bytes_of "true}") l, strip_prefix (bytes_of "false}") l with
  | Some [], _ => Some (string_of_list_byte (fst nr), sb, true)
  | _, Some [] => Some (string_of_list_byte (fst nr), sb, false)
  | _, _ => None
  end.

Record ObjectMeta := mkObjectMeta {
  om_chunk : Z;
  om_Name : string;
  om_StartBlock : Z;
  om_Deleted : bool
}.

(** [db.indexObj] is the stream of [db.index]. *)
Record BlockDB := mkBlockDB {
  db_core : DBCore;
  db_objects : gmap string ObjectMeta;
  db_index : Pool Object
}.

Section Directory.
Definition on_core {A} (m : M DBCore A) : M BlockDB A :=
  fun db => let '(r, c') := m (db_core db) in
            (r, mkBlockDB c' (db_objects db) (db_index db)).

Definition on_index {A} (m : M (DBCore * Pool Object) A) : M BlockDB A :=
  fun db => let '(r, (c', p')) := m (db_core db, db_index db) in
            (r, mkBlockDB c' (db_objects db) p').

Definition set_objects (f : gmap string ObjectMeta -> gmap string ObjectMeta)
  : M BlockDB unit :=
  modify (fun db => mkBlockDB (db_core db) (f (db_objects db)) (db_index db)).

Definition newObject (blocks : list BlockMeta) : Object := mkObject blocks 0 0 0.

(** [block.Create(f, WithBlockSize(blockSize))] *)
Definition block_Create (fuel : nat) (order : list nat) (blockSize : Z) (f : File)
  : result BlockDB :=
  match File_Seek 0 SeekEnd f with
  | (Err e, _) => Err e
  | (OutOfFuel, _) => OutOfFuel
  | (Ok off, f1) =>
      if negb (off =? 0) then Err (ErrNotEmpty off)
      else
        let meta := mkDBMeta Magic LatestVersion blockSize 0 0 in
        if blockSize <? MinimumBlockSize then Err (ErrBlockSize blockSize)
        else
          match DBMeta_WriteTo meta (mkDBCore f1 meta 0) with
          | (Err e, _) => Err e
          | (OutOfFuel, _) => OutOfFuel
          | (Ok sizeMeta, c1) =>
              let c2 := mkDBCore (db_f c1) meta sizeMeta in
              let indexObj := newObject [mkBlockMeta sizeMeta 0 0 0] in
              match NewPool fuel order indexObj c2 with
              | (Err e, _) => Err e
              | (OutOfFuel, _) => OutOfFuel
              | (Ok index, c3) =>
                  match BlockDB_grow fuel 1 false c3 with
                  | (Err e, _) => Err e
                  | (OutOfFuel, _) => OutOfFuel
                  | (Ok _, c4) => Ok (mkBlockDB c4 ∅ index)
                  end
              end
          end
  end.

(** The loop of [Open] over [db.index.Allocated()]. *)
Fixpoint Open_loop (fuel : nat) (chunks : list Chunk) : M BlockDB unit :=
  match chunks with
  | [] => ret tt
  | chunk :: rest =>
      b ← on_index (Chunk_ReadAll fuel (c_pos chunk));
      match json_Unmarshal_ObjectMeta b with
      | None => fail ErrJSON
      | Some (name, sb, del) =>
          set_objects (insert name (mkObjectMeta (c_pos chunk) name sb del));;
          Open_loop fuel rest
      end
  end.

Definition block_Open (fuel : nat) (order : list nat) (f : File) : result BlockDB :=
  match File_Seek 0 SeekStart f with
  | (Err e, _) => Err e
  | (OutOfFuel, _) => OutOfFuel
  | (Ok _, f1) =>
      match DBMeta_ReadFrom (mkDBCore f1 (mkDBMeta 0 0 0 0 0) 0) with
      | (Err e, _) => Err e
      | (OutOfFuel, _) => OutOfFuel
      | (Ok (meta, sizeMeta), c1) =>
          let c2 := mkDBCore (db_f c1) meta sizeMeta in
          match BlockDB_blocks fuel 0 c2 with
          | (Err e, _) => Err e
          | (OutOfFuel, _) => OutOfFuel
          | (Ok indexBlocks, c3) =>
              match NewPool fuel order (newObject indexBlocks) c3 with
              | (Err e, _) => Err e
              | (OutOfFuel, _) => OutOfFuel
              | (Ok index, c4) =>
                  let db := mkBlockDB c4 ∅ index in
                  match Open_loop fuel (Pool_Allocated index) db with
                  | (Err e, _) => Err e
                  | (OutOfFuel, _) => OutOfFuel
                  | (Ok _, db') => Ok db'
                  end
              end
          end
      end
  end.

(** [db.Create(name)] *)
Definition BlockDB_Create (fuel : nat) (name : string) : M BlockDB Object :=
  db ← get_st;
  match db_objects db !! name with
  | Some meta =>
      let pos := block_pos (db_core db) (om_StartBlock meta) in
      on_core (dbf_Seek pos SeekStart);;
      blockMeta ← on_core (BlockMeta_ReadFrom pos (om_StartBlock meta));
      let next := bm_Next blockMeta in
      let blockMeta' := mkBlockMeta pos (om_StartBlock meta) 0 0 in
      on_core (dbf_Seek pos SeekStart);;
      on_core (BlockMeta_WriteTo blockMeta');;
      (if negb (next =? 0) then on_core (BlockDB_free fuel next) else ret tt);;
      ret (newObject [blockMeta'])
  | None =>
      block ← on_core (BlockDB_allocSingle fuel);
      let b := json_Marshal_ObjectMeta name (bm_idx block) false in
      chunk ← on_index (Pool_AllocAndWrite fuel b);
      set_objects (insert name (mkObjectMeta chunk name (bm_idx block) false));;
      ret (newObject [block])
  end.

(** [db.Delete(name)] *)
Definition BlockDB_Delete (fuel : nat) (name : string) : M BlockDB unit :=
  db ← get_st;
  match db_objects db !! name with
  | None => fail ErrNotExist
  | Some meta =>
      let pos := block_pos (db_core db) (om_StartBlock meta) in
      on_core (dbf_Seek pos SeekStart);;
      blockMeta ← on_core (BlockMeta_ReadFrom pos (om_StartBlock meta));
      on_index (Chunk_Free fuel (om_chunk meta));;
      set_objects (delete name);;
      on_core (BlockDB_free fuel (bm_idx blockMeta))
  end.

(** [db.Open(name)] *)
Definition BlockDB_Open (fuel : nat) (name : string) : M BlockDB Object :=
  db ← get_st;
  match db_objects db !! name with
  | None => fail ErrNotExist
  | Some meta =>
      blocks ← on_core (BlockDB_blocks fuel (om_StartBlock meta));
      ret (newObject blocks)
  end.
End Directory.

(* ===================================================================== *)
(** * package kvstore: the store facade *)
(* ===================================================================== *)

Record store := mkStore {
  st_db : BlockDB;
  st_buckets : gmap string (HashMap Object);
  st_bucketsMap : HashMap Object
}.

(** A [*writeTx]; [wtx_live] is [wtx.store != nil]. *)
Record writeTx := mkWriteTx {
  wtx_live : bool;
  writeCache : gmap string (gmap string (list byte));
  deleteCache : gmap string (gmap string bool)
}.

(** [path.Join("bucket", name)] for a name that [path.Clean] leaves as it
    is. *)
Definition bucketPath (name : string) : string := ("bucket/" ++ name)%string.

Section Store.
Definition on_storedb {A} (m : M BlockDB A) : M store A :=
  fun st => let '(r, db') := m (st_db st) in
            (r, mkStore db' (st_buckets st) (st_bucketsMap st)).

(** Hash-map code run on a map of the store; the map comes back with its
    new state. *)
Definition run_map {A} (m : M (DBCore * HashMap Object) A) (hm : HashMap Object)
  : M store (A * HashMap Object) :=
  fun st =>
    let db := st_db st in
    let '(r, (c', hm')) := m (db_core db, hm) in
    let st' := mkStore (mkBlockDB c' (db_objects db) (db_index db))
                       (st_buckets st) (st_bucketsMap st) in
    (match r with
     | Ok a => Ok (a, hm')
     | Err e => Err e
     | OutOfFuel => OutOfFuel
     end, st').

(** As [run_map], for a map held in [st.buckets] under [name]: the Go
    pointer in the map sees every write, also those of a failed call. *)
Definition on_bucket {A} (name : string) (hm : HashMap Object)
    (m : M (DBCore * HashMap Object) A) : M store A :=
  fun st =>
    let db := st_db st in
    let '(r, (c', hm')) := m (db_core db, hm) in
    (r, mkStore (mkBlockDB c' (db_objects db) (db_index db))
                (<[name := hm']> (st_buckets st)) (st_bucketsMap st)).

Definition on_bucketsMap {A} (m : M (DBCore * HashMap Object) A) : M store A :=
  fun st =>
    let db := st_db st in
    let '(r, (c', hm')) := m (db_core db, st_bucketsMap st) in
    (r, mkStore (mkBlockDB c' (db_objects db) (db_index db)) (st_buckets st) hm').

Definition new_map (fuel : nat) (order : list nat) (obj : Object)
  : M BlockDB (HashMap Object) :=
  on_core (NewHashMap fuel order obj).

(** [kvstore.New(f)] *)
Definition New (fuel : nat) (order : list nat) (f : File) : result store :=
  match File_Seek 0 SeekEnd f with
  | (Err e, _) => Err e
  | (OutOfFuel, _) => OutOfFuel
  | (Ok n, f1) =>
      match (if n =? 0 then block_Create fuel order DefaultBlockSize f1
             else block_Open fuel order f1) with
      | Err e => Err e
      | OutOfFuel => OutOfFuel
      | Ok db =>
          match (obj ← BlockDB_Create fuel "objects";
                 new_map fuel order obj) db with
          | (Err e, _) => Err e
          | (OutOfFuel, _) => OutOfFuel
          | (Ok bucketsMap, db') => Ok (mkStore db' ∅ bucketsMap)
          end
      end
  end.

(** What [Close] leaves behind: the file. *)
Definition store_file (st : store) : File := db_f (db_core (st_db st)).

(** [readTx.Get]; the bytes found are what [json.Unmarshal] is given. *)
Definition readTx_Get (fuel : nat) (bucket key : string) : M store (list byte) :=
  st ← get_st;
  let p := bucketPath bucket in
  match st_buckets st !! p with
  | None => fail ErrBucketNotFound
  | Some m =>
      r ← on_bucket p m (HashMap_Load fuel (bytes_of key));
      match r with
      | (_, _, Some e) => fail e
      | (_, false, None) => fail ErrKeyNotFound
      | (b, true, None) => ret b
      end
  end.

(** [store.Get]: a read transaction around [readTx.Get]. *)
Definition store_Get (fuel : nat) (bucket key : string) : M store (list byte) :=
  readTx_Get fuel bucket key.

Definition store_Writer : writeTx := mkWriteTx true ∅ ∅.

(** [Set]; [payload] is [json.Marshal(value)]. *)
Definition writeTx_Set (bucket key : string) (payload : list byte) (wtx : writeTx)
  : writeTx :=
  let b := default ∅ (writeCache wtx !! bucket) in
  mkWriteTx (wtx_live wtx)
    (<[bucket := <[key := payload]> b]> (writeCache wtx))
    (match deleteCache wtx !! bucket with
     | Some d => <[bucket := <[key := false]> d]> (deleteCache wtx)
     | None => deleteCache wtx
     end).

Definition writeTx_Delete (bucket key : string) (wtx : writeTx) : writeTx :=
  let d := default ∅ (deleteCache wtx !! bucket) in
  mkWriteTx (wtx_live wtx) (writeCache wtx)
    (<[bucket := <[key := true]> d]> (deleteCache wtx)).

Definition writeTx_write (fuel : nat) (order : list nat) (bucket key : string)
    (payload : list byte) : M store unit :=
  st ← get_st;
  m ← match st_buckets st !! bucket with
      | Some m => ret m
      | None =>
          let p := bucketPath bucket in
          obj ← on_storedb (BlockDB_Create fuel p);
          m ← on_storedb (new_map fuel order obj);
          on_bucketsMap (HashMap_Store fuel (bytes_of bucket) (bytes_of p));;
          modify (fun st => mkStore (st_db st) (<[bucket := m]> (st_buckets st))
                                    (st_bucketsMap st));;
          ret m
      end;
  on_bucket bucket m (HashMap_Store fuel (bytes_of key) payload).

Fixpoint commit_writes (fuel : nat) (order : list nat) (name : string)
    (deleted : option (gmap string bool)) (kvs : list (string * list byte))
  : M store unit :=
  match kvs with
  | [] => ret tt
  | (k, v) :: rest =>
      (if match deleted with
          | Some d => default false (d !! k)
          | None => false
          end
       then ret tt
       else writeTx_write fuel order name k v);;
      commit_writes fuel order name deleted rest
  end.

Fixpoint commit_buckets (fuel : nat) (order : list nat) (wtx : writeTx)
    (bs : list (string * gmap string (list byte))) : M store unit :=
  match bs with
  | [] => ret tt
  | (name, bucket) :: rest =>
      commit_writes fuel order name (deleteCache wtx !! name) (map_to_list bucket);;
      commit_buckets fuel order wtx rest
  end.

Fixpoint commit_deletes (fuel : nat) (name : string) (ks : list (string * bool))
  : M store unit :=
  match ks with
  | [] => ret tt
  | (k, deleted) :: rest =>
      (if negb deleted then ret tt
       else
         st ← get_st;
         match st_buckets st !! name with
         | None => ret tt
         | Some m => on_bucket name m (HashMap_Delete fuel (bytes_of k))
         end);;
      commit_deletes fuel name rest
  end.

Fixpoint commit_delete_buckets (fuel : nat) (bs : list (string * gmap string bool))
  : M store unit :=
  match bs with
  | [] => ret tt
  | (name, bucket) :: rest =>
      commit_deletes fuel name (map_to_list bucket);;
      commit_delete_buckets fuel rest
  end.

(** [writeTx.Commit]; the Go maps are walked in the order of
    [map_to_list]. *)
Definition writeTx_Commit (fuel : nat) (order : list nat) (wtx : writeTx) : M store unit :=
  if negb (wtx_live wtx) then fail ErrRolledBack
  else
    commit_buckets fuel order wtx (map_to_list (writeCache wtx));;
    commit_delete_buckets fuel (map_to_list (deleteCache wtx)).
End Store.

(* ===================================================================== *)
(** * Runs of the hash map over the in-memory stream *)
(* ===================================================================== *)

Inductive map_op :=
  | OpStore (key value : list byte)
  | OpDelete (key : list byte)
  | OpLoad (key : list byte).

(** What a call gave back: [Done] for a nil error of [Store] or [Delete],
    [Loaded] for the triple of [Load]. *)
Inductive outcome :=
  | Done
  | Failed (e : error)
  | Loaded (value : list byte) (found : bool) (err : option error)
  | NoReturn.

Abbreviation MemMap := (unit * HashMap readWriteSeeker)%type.

Definition unit_outcome (r : result unit) : outcome :=
  match r with
  | Ok _ => Done
  | Err e => Failed e
  | OutOfFuel => NoReturn
  end.

Definition run_op (fuel : nat) (o : map_op) (s : MemMap) : outcome * MemMap :=
  match o with
  | OpStore k v => let '(r, s') := HashMap_Store fuel k v s in (unit_outcome r, s')
  | OpDelete k => let '(r, s') := HashMap_Delete fuel k s in (unit_outcome r, s')
  | OpLoad k =>
      let '(r, s') := HashMap_Load fuel k s in
      (match r with
       | Ok (v, found, e) => Loaded v found e
       | Err e => Failed e
       | OutOfFuel => NoReturn
       end, s')
  end.

Fixpoint run_ops (fuel : nat) (os : list map_op) (s : MemMap) : list outcome * MemMap :=
  match os with
  | [] => ([], s)
  | o :: os' =>
      let '(r, s') := run_op fuel o s in
      let '(rs, s'') := run_ops fuel os' s' in
      (r :: rs, s'')
  end.

(** [NewHashMap(newReadWriteSeeker(nil))], then the calls of [os]. *)
Definition fresh_map_run (fuel : nat) (order : list nat) (os : list map_op)
  : option (list outcome * MemMap) :=
  match NewHashMap fuel order (newReadWriteSeeker []) tt with
  | (Ok hm, _) => Some (run_ops fuel os (tt, hm))
  | _ => None
  end.

Definition outcomes (r : option (list outcome * MemMap)) : list outcome :=
  match r with
  | Some (rs, _) => rs
  | None => []
  end.

Definition final_pool (r : option (list outcome * MemMap)) : option (Pool readWriteSeeker) :=
  match r with
  | Some (_, s) => Some (hm_pool (snd s))
  | None => None
  end.

(** Three keys that fall into slot 26 of the root array. *)
Definition key_a : list byte := bytes_of "k2".
Definition key_b : list byte := bytes_of "k19".
Definition key_c : list byte := bytes_of "k235".

(** The pool of a fresh map after [key_a], [key_b], [key_c] were stored:
    the root array is the chunk at 0 and the nodes of the three keys are
    the chunks at 1182, 1245 and 1309, linked in this order. *)
Definition three_keys (order : list nat) : option (Pool readWriteSeeker) :=
  final_pool (fresh_map_run 100 order
                [OpStore key_a (bytes_of "1");
                 OpStore key_b (bytes_of "2");
                 OpStore key_c (bytes_of "3")]).

Definition node_a : ChunkPtr := 1182.
Definition node_b : ChunkPtr := 1245.
Definition node_c : ChunkPtr := 1309.

(** Load the three nodes, call [Delete] on the middle one and load the
    two others again. *)
Definition delete_middle (p : Pool readWriteSeeker) :=
  (a ← NewKVNodeFromChunkPtr 100 node_a;
   b ← NewKVNodeFromChunkPtr 100 node_b;
   c ← NewKVNodeFromChunkPtr 100 node_c;
   newHead ← KVNode_Delete 100 b;
   a' ← NewKVNodeFromChunkPtr 100 node_a;
   c' ← NewKVNodeFromChunkPtr 100 node_c;
   s ← get_st;
   ret ((a, b, c), newHead, (a', c'), elements (p_freeChunks (snd s)))) (tt, p).

(** A value of 32 bytes that reads as a list node
    [{Prev: 0, Next: 0, Key: 1171, Value: 0}]; 1171 is the key chunk of
    [key_a]. *)
Definition node_shaped_value : list byte :=
  kvnode_encode (mkKVNode 0 0 0 1171 0).

Definition long_value : list byte := repeat "x"%byte 33.

Definition root_free (r : option (list outcome * MemMap)) : option (bool * bool) :=
  match final_pool r with
  | Some p =>
      match p_chunks p !! 0 with
      | Some c => Some (c_free c, bool_decide (0 ∈ p_freeChunks p))
      | None => None
      end
  | None => None
  end.

(* ===================================================================== *)
(** * A run of the store over a file *)
(* ===================================================================== *)

(** Open a store on an empty file, set [key] of [bucket] to [payload] in a
    write transaction, commit, close, open a store on the file again and
    [Get] the key.  The result holds: the error of [Commit], the value the
    bucket's map holds for the key before closing, and what [Get] returns
    after reopening. *)
Definition reopen_and_get (fuel : nat) (order : list nat) (bucket key : string)
    (payload : list byte)
  : option (result unit * option (result (list byte * bool * option error))
            * result (list byte)) :=
  match New fuel order (mkFile 0 []) with
  | Ok st0 =>
      let wtx := writeTx_Set bucket key payload store_Writer in
      let '(committed, st1) := writeTx_Commit fuel order wtx st0 in
      let stored :=
        match st_buckets st1 !! bucket with
        | Some m => Some (fst (HashMap_Load fuel (bytes_of key) (db_core (st_db st1), m)))
        | None => None
        end in
      match New fuel order (store_file st1) with
      | Ok st2 => Some (committed, stored, fst (store_Get fuel bucket key st2))
      | _ => None
      end
  | _ => None
  end.

(* ===================================================================== *)
(** * Invariants of stateful code *)
(* ===================================================================== *)

(** [keeps I m]: running [m] from a state in [I] ends in a state in [I],
    whatever [m] returns. *)
Definition keeps {St A} (I : St -> Prop) (m : M St A) : Prop :=
  forall s, I s -> I (snd (m s)).

(* ===================================================================== *)
(** * Sequences of pool calls *)
(* ===================================================================== *)

(** The calls a holder of the pool can make. *)
Inductive pool_op :=
  | PAlloc (n : Z)
  | PAllocAndWrite (b : list byte)
  | PWrite (c : Z) (p : list byte)
  | PWriteAt (c : Z) (p : list byte) (off : Z)
  | PReadAll (c : Z)
  | PFree (c : Z).

Section PoolRuns.
Context {W H : Type} `{!ReadWriteSeeker W H}.

Definition forget {St A} (m : M St A) : M St unit :=
  fun s => let '(r, s') := m s in
           (match r with Ok _ => Ok tt | Err e => Err e | OutOfFuel => OutOfFuel end, s').

Definition run_pool_op (fuel : nat) (o : pool_op) : M (W * Pool H) unit :=
  match o with
  | PAlloc n => forget (Pool_Alloc fuel n)
  | PAllocAndWrite b => forget (Pool_AllocAndWrite fuel b)
  | PWrite c p => Chunk_Write fuel c p
  | PWriteAt c p off => Chunk_WriteAt fuel c p off
  | PReadAll c => forget (Chunk_ReadAll fuel c)
  | PFree c => Chunk_Free fuel c
  end.

(** The state after the calls of [os], whatever each of them returned. *)
Fixpoint run_pool_ops (fuel : nat) (os : list pool_op) (s : W * Pool H) : W * Pool H :=
  match os with
  | [] => s
  | o :: os' => run_pool_ops fuel os' (snd (run_pool_op fuel o s))
  end.

(** Every chunk of the pool is filed under its own position. *)
Definition keys_ok (p : Pool H) : Prop :=
  forall k c, p_chunks p !! k = Some c -> c_pos c = k.

(** The pool knows the pointers of [D], each filed under its position. *)
Definition knows (D : gset Z) (s : W * Pool H) : Prop :=
  keys_ok (snd s) /\ D ⊆ dom (p_chunks (snd s)).
End PoolRuns.

(* ===================================================================== *)
(** * Well-formed objects and cursor positions *)
(* ===================================================================== *)

(** The bytes held by the first [i] blocks. *)
Definition bytes_before (bs : list BlockMeta) (i : nat) : Z :=
  fold_right Z.add 0 (map bm_End (take i bs)).

(** A chain as [Write] leaves it: every block but the last holds bytes and
    links on, the last one ends the chain. *)
Definition chain_wf (bs : list BlockMeta) : Prop :=
  bs <> []
  /\ (forall i b, bs !! i = Some b -> 0 <= bm_End b < 2 ^ 32)
  /\ (forall i b, bs !! i = Some b -> (S i < length bs)%nat ->
        0 < bm_End b /\ bm_Next b <> 0)
  /\ (forall i b, bs !! i = Some b -> S i = length bs -> bm_Next b = 0).

(** The cursor of [o] rests at the absolute offset [t]. *)
Definition at_offset (o : Object) (t : Z) : Prop :=
  o_offset o = t
  /\ 0 <= o_posBlockIdx o
  /\ exists b, o_blocks o !! Z.to_nat (o_posBlockIdx o) = Some b
       /\ 0 <= o_posBlockOff o <= bm_End b
       /\ bytes_before (o_blocks o) (Z.to_nat (o_posBlockIdx o)) + o_posBlockOff o = t.

(** The cursor is where a forward walk leaves it: inside its block, or at
    the end of the last block. *)
Definition rests_forward (o : Object) : Prop :=
  forall b, o_blocks o !! Z.to_nat (o_posBlockIdx o) = Some b ->
    o_posBlockOff o < bm_End b \/ o_posBlockIdx o = Zlength (o_blocks o) - 1.

(** The result of [Seek(offset, SeekEnd)] on a stream of [size] bytes, as
    the specification words it: a normal stream seek to [size + offset],
    refused with end-of-stream outside the object. *)
Definition stream_seek_end (size offset : Z) : result Z :=
  if (0 <=? size + offset) && (size + offset <=? size) then Ok (size + offset)
  else Err EOF.

(** One call of [seekFromRelative] with a non-negative offset. *)
Definition forward_step (o : Object) (b : BlockMeta) (d : Z) : Object :=
  let canRead0 := u32 (bm_End b - o_posBlockOff o) in
  let canRead := if d <? canRead0 then u32 d else canRead0 in
  let off' := u32 (o_posBlockOff o + canRead) in
  let adv := (off' =? bm_End b) && negb (bm_Next b =? 0) in
  mkObject (o_blocks o) (o_offset o + canRead)
           (if adv then o_posBlockIdx o + 1 else o_posBlockIdx o)
           (if adv then 0 else off').

(** One call of [seekFromRelativeBack]. *)
Definition backward_step (o : Object) (prevEnd : Z) (d : Z) : Object :=
  let canRead := if d <? o_posBlockOff o then u32 d else o_posBlockOff o in
  let off' := u32 (o_posBlockOff o - canRead) in
  if (off' =? 0) && negb (o_posBlockIdx o =? 0)
  then mkObject (o_blocks o) (o_offset o - canRead) (o_posBlockIdx o - 1) prevEnd
  else mkObject (o_blocks o) (o_offset o - canRead) (o_posBlockIdx o) off'.

Definition prev_End (o : Object) : Z :=
  match o_blocks o !! Z.to_nat (o_posBlockIdx o - 1) with
  | Some b => bm_End b
  | None => 0
  end.

(** Where a seek to the end of the object leaves the cursor: in the last
    block, at its [End]. *)
Definition at_tail_end (o : Object) : Prop :=
  o_posBlockIdx o = Zlength (o_blocks o) - 1
  /\ exists b, o_blocks o !! Z.to_nat (o_posBlockIdx o) = Some b
       /\ o_posBlockOff o = bm_End b.

(** The offset [Seek(offset, whence)] aims at: counted from the start,
    from the cursor, or backwards from the end. *)
Definition seek_target (o : Object) (offset whence : Z) : Z :=
  if whence =? SeekStart then offset
  else if whence =? SeekCurrent then o_offset o + offset
  else Object_size o - offset.

(** The object of the block tests: ["baz"] created in a new block file and
    the alphabet written to it. *)
Definition alphabet : list byte := bytes_of "abcdefghijklmnopqrstuvwxyz".

Definition alphabet_object (fuel : nat) : option (DBCore * Object) :=
  match block_Create fuel [] DefaultBlockSize (mkFile 0 []) with
  | Ok db =>
      match BlockDB_Create fuel "baz" db with
      | (Ok obj, db') =>
          match Object_Write fuel alphabet (db_core db', obj) with
          | (Ok (_, None), s) => Some s
          | _ => None
          end
      | _ => None
      end
  | _ => None
  end.

(** A chain of four blocks of a file with 16-byte blocks, holding 26
    bytes, the cursor at the end. *)
Definition four_blocks : Object :=
  mkObject [mkBlockMeta 36 1 8 8; mkBlockMeta 148 8 8 9;
            mkBlockMeta 164 9 8 10; mkBlockMeta 180 10 2 0] 26 3 2.

Definition some_db : DBCore := mkDBCore (mkFile 0 []) (mkDBMeta Magic 1 16 11 0) 20.

(* ===================================================================== *)
(** * The file as 32-bit cells *)
(* ===================================================================== *)

(** What [File_Write] makes of the bytes of a file when [bs] is written
    at [pos]. *)
Definition write_at (data : list byte) (pos : nat) (bs : list byte) : list byte :=
  let old := data ++ zeros (pos - length data) in
  take pos old ++ bs ++ drop (pos + length bs) old.

(** The [uint32] stored at [pos]. *)
Definition cell (data : list byte) (pos : Z) : Z :=
  get_u32 (drop (Z.to_nat pos) data).

Definition with_file (db : DBCore) (pos : Z) (data : list byte) : DBCore :=
  mkDBCore (mkFile pos data) (db_meta db) (db_sizeMeta db).

Definition db_data (db : DBCore) : list byte := f_data (db_f db).

(** The free list as it is linked on disk: [first] is its head, [fl] the
    indexes of its blocks in order; 0 ends it. *)
Fixpoint chain_on_disk (db : DBCore) (first : Z) (fl : list Z) : Prop :=
  match fl with
  | [] => first = 0
  | i :: rest =>
      first = i /\ i <> 0
      /\ chain_on_disk db (cell (db_data db) (block_pos db i + sizeEnd)) rest
  end.

(** [ceil(remaining / BlockSize)], at least one: the number of blocks the
    specification words for an allocation of [rem] bytes. *)
Definition blocks_by_spec (db : DBCore) (rem : Z) : Z :=
  Z.max 1 ((rem + m_BlockSize (db_meta db) - 1) / m_BlockSize (db_meta db)).

(** A new block file with 16-byte blocks and the object ["baz"] in it. *)
Definition small_block_object (fuel : nat) : option (DBCore * Object) :=
  match block_Create fuel [] 16 (mkFile 0 []) with
  | Ok db =>
      match BlockDB_Create fuel "baz" db with
      | (Ok obj, db') => Some (db_core db', obj)
      | _ => None
      end
  | _ => None
  end.

(** The headers of the blocks [l] as they are on disk. *)
Definition blocks_of (db : DBCore) (l : list Z) : list BlockMeta :=
  map (fun i => mkBlockMeta (block_pos db i) i
                  (cell (db_data db) (block_pos db i))
                  (cell (db_data db) (block_pos db i + sizeEnd))) l.

(** Blocks given by index and [End], each linked to the one after it; the
    last one's [Next] is [nx]. *)
Fixpoint linked_blocks (db : DBCore) (l : list (Z * Z)) (nx : Z) : list BlockMeta :=
  match l with
  | [] => []
  | (i, e) :: rest =>
      mkBlockMeta (block_pos db i) i e
        (match rest with [] => nx | (j, _) :: _ => j end)
      :: linked_blocks db rest nx
  end.

(** The block structs that [grow_loop] returns. *)
Fixpoint grow_metas (k : nat) (i n startNewBlocks blockSize blockCount : Z) : list BlockMeta :=
  match k with
  | O => []
  | S k' =>
      mkBlockMeta (startNewBlocks + i * blockSize) (u32 (blockCount + i)) 0
        (if i =? n - 1 then 0 else u32 (blockCount + i + 1))
      :: grow_metas k' (i + 1) n startNewBlocks blockSize blockCount
  end.

(** [fl] is the free list of [db]: linked on disk from the header's
    [FirstFreeBlock], all of its blocks inside the file. *)
Definition free_list (db : DBCore) (fl : list Z) : Prop :=
  chain_on_disk db (m_FirstFreeBlock (db_meta db)) fl
  /\ Forall (fun i => 0 < i < m_BlockCount (db_meta db)) fl.

(** The index of the first block that an allocation appends. *)
Definition first_new (db : DBCore) (fl : list Z) : Z :=
  match fl with
  | i :: _ => i
  | [] => m_BlockCount (db_meta db)
  end.

(** The blocks that an allocation of [n] appends: the first free ones,
    then new ones at the end of the file. *)
Definition new_blocks (db : DBCore) (fl : list Z) (n : Z) : list BlockMeta :=
  let k := Nat.min (Z.to_nat n) (length fl) in
  linked_blocks db
    (map (fun i => (i, cell (db_data db) (block_pos db i))) (take k fl)
     ++ map (fun j => (m_BlockCount (db_meta db) + j, 0)) (seqZ 0 (n - Z.of_nat k)))
    0.

(** A block file of eight 16-byte blocks, all zero, whose free list is
    block 3, and an object of one empty block (block 1). *)
Definition free_db : DBCore :=
  mkDBCore (mkFile 0 (zeros 148)) (mkDBMeta Magic 1 16 8 3) 20.

Definition one_block : Object := mkObject [mkBlockMeta 36 1 0 0] 0 0 0.

(** [b] with its [Next] set. *)
Definition setNext (b : BlockMeta) (nx : Z) : BlockMeta :=
  mkBlockMeta (bm_pos b) (bm_idx b) (bm_End b) nx.

(* ===================================================================== *)
(** * The pool over the in-memory stream, seen as a heap *)
(* ===================================================================== *)

Abbreviation PSt := (unit * Pool readWriteSeeker)%type.

Definition pbytes (s : PSt) : list byte := rws_b (p_f (snd s)).
Definition plen (s : PSt) : Z := Zlength (pbytes s).

Definition set_stream (s : PSt) (pos : Z) (b : list byte) : PSt :=
  (fst s, mkPool (mkRWS pos b) (p_chunks (snd s)) (p_freeChunks (snd s)) (p_order (snd s))).

(** What a chunk is to the code above the pool: its capacity, the bytes
    [ReadAll] returns, and whether [Alloc] may hand it out again. *)
Record chunk_cell := mkCell { v_cap : Z; v_content : list byte; v_free : bool }.

Definition chunk_content (b : list byte) (c : Chunk) : list byte :=
  take (Z.to_nat (c_size c)) (drop (Z.to_nat (c_pos c + headerSize)) b).

Definition view (s : PSt) : gmap Z chunk_cell :=
  (fun c => mkCell (c_cap c) (chunk_content (pbytes s) c)
                   (bool_decide (c_pos c ∈ p_freeChunks (snd s))))
  <$> p_chunks (snd s).

(** The chunks lie inside the stream, one after the other, each filed
    under its position; the free ones are chunks. *)
Definition pool_ok (s : PSt) : Prop :=
  (forall k c, p_chunks (snd s) !! k = Some c ->
     c_pos c = k /\ 0 <= k /\ 0 <= c_size c <= c_cap c /\ c_cap c < 2 ^ 32
     /\ k + headerSize + c_cap c <= plen s)
  /\ (forall k1 c1 k2 c2,
        p_chunks (snd s) !! k1 = Some c1 -> p_chunks (snd s) !! k2 = Some c2 ->
        k1 < k2 -> k1 + headerSize + c_cap c1 <= k2)
  /\ (forall k, k ∈ p_freeChunks (snd s) -> is_Some (p_chunks (snd s) !! k)).

(** Two byte strings that differ at most inside [[a, b)]. *)
Definition agree_outside (a b : Z) (X Y : list byte) : Prop :=
  forall j, (Z.of_nat j < a \/ b <= Z.of_nat j) -> X !! j = Y !! j.

(** The nine header bytes of a chunk. *)
Definition header_bytes (c : Chunk) : list byte :=
  put_u32 (c_cap c) ++ put_u32 (c_size c) ++ put_bool (c_free c).

(** ** Typed contents *)

Definition fits64 (z : Z) : Prop := - 2 ^ 63 <= z < 2 ^ 63.

Definition node_ok (n : KVNode) : Prop :=
  fits64 (n_prev n) /\ fits64 (n_next n) /\ fits64 (n_key n) /\ fits64 (n_value n).

(** The chunk at [k] is in use and holds the node [n]. *)
Definition node_at (v : gmap Z chunk_cell) (k : Z) (n : KVNode) : Prop :=
  n_chunk n = k /\ node_ok n
  /\ exists cap, v !! k = Some (mkCell cap (kvnode_encode n) false).

(** The chunk at [k] is in use and holds the non-empty bytes [bs]. *)
Definition bytes_at (v : gmap Z chunk_cell) (k : Z) (bs : list byte) : Prop :=
  bs <> [] /\ exists cap, v !! k = Some (mkCell cap bs false).

(** [Alloc] may return [k]: it is no chunk yet, or a free one. *)
Definition unused (v : gmap Z chunk_cell) (k : Z) : Prop :=
  v !! k = None \/ exists cl, v !! k = Some cl /\ v_free cl = true.

(** ** Lists of nodes *)

(** A node of a list with the bytes of its key and of its value. *)
Definition entry := (KVNode * list byte * list byte)%type.

Definition e_node (e : entry) : KVNode := fst (fst e).
Definition e_key (e : entry) : list byte := snd (fst e).
Definition e_val (e : entry) : list byte := snd e.

(** The nodes of [l] are linked from [hd] on, the last one to [tl]; every
    node, key and value is a chunk in use. *)
Fixpoint seg (v : gmap Z chunk_cell) (hd : Z) (l : list entry) (tl : Z) : Prop :=
  match l with
  | [] => hd = tl
  | e :: rest =>
      hd <> 0 /\ node_at v hd (e_node e)
      /\ bytes_at v (n_key (e_node e)) (e_key e)
      /\ bytes_at v (n_value (e_node e)) (e_val e)
      /\ seg v (n_next (e_node e)) rest tl
  end.

Definition chain (v : gmap Z chunk_cell) (hd : Z) (l : list entry) : Prop := seg v hd l 0.

Definition node_ptrs (l : list entry) : list Z := map (fun e => n_chunk (e_node e)) l.
Definition data_ptrs (l : list entry) : list Z :=
  flat_map (fun e => [n_key (e_node e); n_value (e_node e)]) l.

(** The nodes of [l] are different chunks, and none is a key or a value. *)
Definition sep (l : list entry) : Prop :=
  NoDup (node_ptrs l) /\ forall k, k ∈ node_ptrs l -> k ∉ data_ptrs l.

(** The chunks in use keep their cells. *)
Definition keeps_live (v v' : gmap Z chunk_cell) : Prop :=
  forall k cl, v !! k = Some cl -> v_free cl = false -> v' !! k = Some cl.

Definition set_next (n : KVNode) (nx : Z) : KVNode :=
  mkKVNode (n_chunk n) (n_prev n) nx (n_key n) (n_value n).
Definition set_prev (n : KVNode) (pv : Z) : KVNode :=
  mkKVNode (n_chunk n) pv (n_next n) (n_key n) (n_value n).

Definition hd_node (l : list entry) : option KVNode :=
  match l with
  | [] => None
  | e :: _ => Some (e_node e)
  end.

(** The node of the first entry of [l] whose key is [needle]. *)
Definition find_node (needle : list byte) (l : list entry) : option KVNode :=
  e_node <$> List.find (fun e => bytes_eqb (e_key e) needle) l.

(* ===================================================================== *)
(** * Properties *)
(* ===================================================================== *)

Example keys_collide :
  slot_of 0 key_a = 26%nat /\ slot_of 0 key_b = 26%nat /\ slot_of 0 key_c = 26%nat.
Proof. vm_compute. auto. Qed.

(** C2 (code at the failing input): on a fresh map, [Store("foo", "bar")],
    [Store("foo", "")] both return nil, and the [Load("foo")] that follows
    returns [(nil, true, io.EOF)] instead of the empty value: the value
    chunk of capacity 0 is the last chunk of the stream, and reading zero
    bytes at the end of the stream reports [io.EOF]. *)
Theorem store_empty_value_load_fails : forall order,
  outcomes (fresh_map_run 100 order
              [OpStore (bytes_of "foo") (bytes_of "bar");
               OpStore (bytes_of "foo") [];
               OpLoad (bytes_of "foo")])
  = [Done; Done; Loaded [] true (Some EOF)].
Proof. intros order. vm_compute. reflexivity. Qed.

(** C7 (code at the failing input): with [key_a], [key_b], [key_c] in one
    list, [Delete(key_b)] and then [Delete(key_c)] both return nil, and
    [Load(key_c)] still finds the value: the first delete left the node of
    [key_c] with its old [Prev], so the second one patched the freed node
    of [key_b] and the node of [key_a] still links to the node of [key_c]. *)
Theorem delete_then_load_finds_key : forall order,
  outcomes (fresh_map_run 100 order
              [OpStore key_a (bytes_of "1");
               OpStore key_b (bytes_of "2");
               OpStore key_c (bytes_of "3");
               OpDelete key_b;
               OpDelete key_c;
               OpLoad key_c])
  = [Done; Done; Done; Done; Done; Loaded (bytes_of "3") true None].
Proof. intros order. vm_compute. reflexivity. Qed.

(** C3 (code at the failing input): in the list [a <-> b <-> c], [Delete]
    on [b] frees the chunk of [b] only, returns the head [a] and sets
    [a.Next] to [c], but [c.Prev] is left pointing at the freed chunk of
    [b]: the successor's link is not patched. *)
Theorem delete_middle_keeps_stale_prev : forall order,
  match three_keys order with
  | Some p =>
      fst (delete_middle p) =
      Ok ((mkKVNode node_a 0 node_b 1171 1161,
           mkKVNode node_b node_a node_c 1233 1223,
           mkKVNode node_c node_b 0 1296 1286),
          node_a,
          (mkKVNode node_a 0 node_c 1171 1161,
           mkKVNode node_c node_b 0 1296 1286),
          [node_b])
  | None => False
  end.
Proof. intros order. vm_compute. reflexivity. Qed.

(** C10 (code at the failing input): after [Delete(key_b)] the freed node
    chunk is reused for the 32-byte value of ["foo"] while the node of
    [key_c] still names it as its [Prev]; [Delete(key_c)] then takes that
    value for the list head, and the [Store(key_a, ...)] that follows finds
    [key_a] in it and frees its "old value", the chunk at pointer 0: the
    root bucket array is marked free and entered in [freeChunks]. *)
Theorem store_frees_root_chunk : forall order,
  let r := fresh_map_run 100 order
             [OpStore key_a (bytes_of "1");
              OpStore key_b (bytes_of "2");
              OpStore key_c (bytes_of "3");
              OpDelete key_b;
              OpStore (bytes_of "foo") node_shaped_value;
              OpDelete key_c;
              OpStore key_a long_value] in
  outcomes r = [Done; Done; Done; Done; Done; Done; Done]
  /\ root_free r = Some (true, true).
Proof. intros order. vm_compute. split; reflexivity. Qed.

(** C1 (code at the failing input): bucket ["foo"], key ["k"], value [1].
    The commit succeeds and the bucket's map holds the value, but after
    reopening [Get] returns [ErrBucketNotFound]: [New] starts every store
    with an empty [buckets] map and never fills it from the file. *)
Theorem reopen_loses_bucket : forall order,
  reopen_and_get 200 order "foo" "k" (bytes_of "1")
  = Some (Ok tt, Some (Ok (bytes_of "1", true, None)), Err ErrBucketNotFound).
Proof. intros order. vm_compute. reflexivity. Qed.

(** [New] starts with no bucket, whatever the file holds. *)
Lemma New_buckets_empty fuel order f st :
  New fuel order f = Ok st -> st_buckets st = ∅.
Proof.
  unfold New. intros HN.
  destruct (File_Seek 0 SeekEnd f) as [[n| |] f1]; try discriminate.
  destruct (if n =? 0 then _ else _) as [db| |]; try discriminate.
  destruct ((obj ← BlockDB_Create fuel "objects"; new_map fuel order obj) db)
    as [[bm| |] db']; try discriminate.
  by inversion HN.
Qed.

(** Hence [Get] on a store that was just opened finds no bucket. *)
Lemma Get_after_New fuel order f st bucket key :
  New fuel order f = Ok st ->
  fst (store_Get fuel bucket key st) = Err ErrBucketNotFound.
Proof.
  intros HN. apply New_buckets_empty in HN.
  unfold store_Get, readTx_Get, mbind, M_bind, bind, get_st. simpl.
  rewrite HN. by rewrite lookup_empty.
Qed.

Section Keeps.
Context {St : Type} (I : St -> Prop).

Lemma keeps_ret {A} (a : A) : keeps I (ret a).
Proof. by intros s Hs. Qed.

Lemma keeps_mret {A} (a : A) : keeps I (mret a : M St A).
Proof. by intros s Hs. Qed.

Lemma keeps_fail {A} e : keeps I (fail e : M St A).
Proof. by intros s Hs. Qed.

Lemma keeps_diverge {A} : keeps I (diverge : M St A).
Proof. by intros s Hs. Qed.

Lemma keeps_get_st : keeps I get_st.
Proof. by intros s Hs. Qed.

Lemma keeps_modify f : (forall s, I s -> I (f s)) -> keeps I (modify f).
Proof. intros Hf s Hs. by apply Hf. Qed.

Lemma keeps_bind {A B} (m : M St A) (k : A -> M St B) :
  keeps I m -> (forall a, keeps I (k a)) -> keeps I (m ≫= k).
Proof.
  intros Hm Hk s Hs. unfold mbind, M_bind, bind.
  specialize (Hm s Hs). destruct (m s) as [[a|e|] s']; simpl in *; auto.
  by apply Hk.
Qed.

Lemma keeps_try {A} (m : M St A) : keeps I m -> keeps I (try m).
Proof.
  intros Hm s Hs. unfold try. specialize (Hm s Hs).
  by destruct (m s) as [r s'].
Qed.

Lemma keeps_lift_result {A} (r : result A) : keeps I (fun s => (r, s)).
Proof. by intros s Hs. Qed.
End Keeps.

(** One step of a [keeps] proof: split a bind or a branch, close a leaf. *)
Ltac keeps_step :=
  lazymatch goal with
  | |- keeps _ (_ ≫= _) => apply keeps_bind; [| intros ?]
  | |- keeps _ (try _) => apply keeps_try
  | |- keeps _ (ret _) => apply keeps_ret
  | |- keeps _ (mret _) => apply keeps_mret
  | |- keeps _ (fail _) => apply keeps_fail
  | |- keeps _ diverge => apply keeps_diverge
  | |- keeps _ get_st => apply keeps_get_st
  | |- keeps _ (match ?x with _ => _ end) => destruct x
  | |- keeps _ (if ?x then _ else _) => destruct x
  | |- keeps _ (let '(_, _) := ?x in _) => destruct x
  end.

(** ** The pool keeps every pointer it knows *)

Section PoolInvariant.
Context {W H : Type} `{!ReadWriteSeeker W H}.
Variable D : gset Z.

Local Abbreviation known := (@knows W H D).

Lemma knows_on_f {A} (m : M (W * H) A) : keeps known (on_f m).
Proof.
  intros [w p] Hs. unfold on_f.
  destruct (m (w, p_f p)) as [r [w' h']]. exact Hs.
Qed.

Lemma knows_same_chunks (s s' : W * Pool H) :
  p_chunks (snd s') = p_chunks (snd s) -> known s -> known s'.
Proof. unfold knows, keys_ok. intros ->. done. Qed.

Lemma knows_set_chunk c : keeps known (set_chunk c).
Proof.
  apply keeps_modify. intros s [Hk Hd]. split; simpl.
  - intros k c' Hl. simpl in Hl. destruct (decide (c_pos c = k)) as [<-|Hne].
    + rewrite lookup_insert_eq in Hl. by inversion Hl.
    + rewrite lookup_insert_ne in Hl by done. by apply Hk.
  - rewrite dom_insert_L. set_solver.
Qed.

Lemma knows_the_chunk c : keeps known (the_chunk c).
Proof. unfold the_chunk. repeat keeps_step. Qed.

Lemma knows_f_Seek fuel off wh : keeps known (f_Seek fuel off wh).
Proof. apply knows_on_f. Qed.

Lemma knows_f_Write p : keeps known (f_Write p).
Proof. apply knows_on_f. Qed.

Lemma knows_writeHeaderTo c : keeps known (Chunk_writeHeaderTo c).
Proof. unfold Chunk_writeHeaderTo. repeat keeps_step; apply knows_f_Write. Qed.

Lemma knows_writeHeader fuel c : keeps known (Chunk_writeHeader fuel c).
Proof.
  unfold Chunk_writeHeader. keeps_step;
    [apply knows_f_Seek | apply knows_writeHeaderTo].
Qed.

Lemma knows_initialize fuel cap : keeps known (Chunk_initialize fuel cap).
Proof.
  unfold Chunk_initialize.
  repeat keeps_step;
    first [apply knows_f_Seek | apply knows_f_Write | apply knows_writeHeaderTo].
Qed.

Lemma knows_modify_free (f : W * Pool H -> W * Pool H) :
  (forall s, p_chunks (snd (f s)) = p_chunks (snd s)) -> keeps known (modify f).
Proof. intros Hf. apply keeps_modify. intros s. by apply knows_same_chunks. Qed.

Lemma knows_Alloc fuel n : keeps known (Pool_Alloc fuel n).
Proof.
  unfold Pool_Alloc.
  repeat keeps_step;
    first [ apply knows_modify_free; done
          | apply knows_the_chunk | apply knows_set_chunk
          | apply knows_writeHeader | apply knows_initialize ].
Qed.

Lemma knows_Get ptr : keeps known (Pool_Get ptr).
Proof. unfold Pool_Get. repeat keeps_step. Qed.

Lemma knows_freeChunk fuel c : keeps known (Chunk_freeChunk fuel c).
Proof.
  unfold Chunk_freeChunk.
  repeat keeps_step;
    first [ apply knows_modify_free; done
          | apply knows_the_chunk | apply knows_set_chunk | apply knows_writeHeader ].
Qed.

Lemma knows_Write fuel c p : keeps known (Chunk_Write fuel c p).
Proof.
  unfold Chunk_Write.
  repeat keeps_step;
    first [ apply knows_the_chunk | apply knows_set_chunk
          | apply knows_writeHeader | apply knows_f_Write ].
Qed.

Lemma knows_WriteAt fuel c p off : keeps known (Chunk_WriteAt fuel c p off).
Proof.
  unfold Chunk_WriteAt.
  repeat keeps_step;
    first [ apply knows_the_chunk | apply knows_set_chunk | apply knows_writeHeader
          | apply knows_f_Write | apply knows_f_Seek ].
Qed.

Lemma knows_Read fuel c n : keeps known (Chunk_Read fuel c n).
Proof.
  unfold Chunk_Read.
  repeat keeps_step;
    first [ apply knows_the_chunk | apply knows_f_Seek | apply knows_on_f ].
Qed.

Lemma knows_ReadAll fuel c : keeps known (Chunk_ReadAll fuel c).
Proof.
  unfold Chunk_ReadAll.
  repeat keeps_step; first [ apply knows_the_chunk | apply knows_Read ].
Qed.

Lemma knows_AllocAndWrite fuel b : keeps known (Pool_AllocAndWrite fuel b).
Proof.
  unfold Pool_AllocAndWrite, Chunk_Free.
  repeat keeps_step;
    first [ apply knows_Alloc | apply knows_Write | apply knows_freeChunk ].
Qed.

Lemma knows_forget {A} (m : M (W * Pool H) A) :
  keeps known m -> keeps known (forget m).
Proof.
  intros Hm s Hs. unfold forget. specialize (Hm s Hs).
  by destruct (m s) as [r s'].
Qed.

Lemma knows_run_pool_op fuel o : keeps known (run_pool_op fuel o).
Proof.
  destruct o; simpl; unfold Chunk_Free;
    first [ apply knows_forget; first [apply knows_Alloc | apply knows_AllocAndWrite
                                       | apply knows_ReadAll]
          | apply knows_Write | apply knows_WriteAt | apply knows_freeChunk ].
Qed.

Lemma knows_run_pool_ops fuel os s :
  known s -> known (run_pool_ops fuel os s).
Proof.
  revert s. induction os as [|o os IH]; intros s Hs; simpl; [done|].
  apply IH. by apply knows_run_pool_op.
Qed.
End PoolInvariant.

(** ** Inversion of successful runs *)

Lemma bind_Ok_inv {St A B} (m : M St A) (k : A -> M St B) s b s' :
  (m ≫= k) s = (Ok b, s') ->
  exists a s1, m s = (Ok a, s1) /\ k a s1 = (Ok b, s').
Proof.
  unfold mbind, M_bind, bind. destruct (m s) as [[a|e|] s1]; intros Hk; try discriminate.
  by exists a, s1.
Qed.

Lemma ret_Ok_inv {St A} (a b : A) (s s' : St) :
  (mret a : M St A) s = (Ok b, s') -> b = a /\ s' = s.
Proof. unfold mret, M_ret, ret. intros Hr. by inversion Hr. Qed.

Lemma keeps_run {St A} (I : St -> Prop) (m : M St A) s r s' :
  keeps I m -> I s -> m s = (r, s') -> I s'.
Proof. intros Hm Hs Hr. specialize (Hm s Hs). by rewrite Hr in Hm. Qed.

Section AllocKnown.
Context {W H : Type} `{!ReadWriteSeeker W H}.

Lemma the_chunk_Ok_inv c (s s' : W * Pool H) ch :
  the_chunk c s = (Ok ch, s') -> s' = s /\ p_chunks (snd s) !! c = Some ch.
Proof.
  unfold the_chunk, mbind, M_bind, bind, get_st.
  destruct (p_chunks (snd s) !! c) as [ch'|]; intros Hc; inversion Hc; by subst.
Qed.

(** A pointer that [Alloc] returns is known to the pool from then on, and
    so is every pointer known before. *)
Lemma Alloc_ptr_known fuel n (s s1 : W * Pool H) ptr :
  keys_ok (snd s) ->
  Pool_Alloc fuel n s = (Ok ptr, s1) ->
  knows ({[ptr]} ∪ dom (p_chunks (snd s))) s1.
Proof.
  intros Hk HA. unfold Pool_Alloc in HA.
  apply bind_Ok_inv in HA as (s0 & sa & Hg & HA).
  inversion Hg; subst s0 sa.
  destruct (pick_free _ _) as [[pos order']|].
  - apply bind_Ok_inv in HA as ([] & sa & Hm & HA).
    inversion Hm; subst sa.
    apply bind_Ok_inv in HA as (ch & sb & Hc & HA).
    apply the_chunk_Ok_inv in Hc as [-> Hc]. simpl in Hc.
    assert (Hpos : ptr = pos).
    { apply bind_Ok_inv in HA as (? & ? & _ & HA).
      apply bind_Ok_inv in HA as (? & ? & _ & HA).
      apply bind_Ok_inv in HA as (? & ? & _ & HA).
      by apply ret_Ok_inv in HA as [-> _]. }
    subst ptr.
    eapply (keeps_run (knows ({[pos]} ∪ dom (p_chunks (snd s))))); [| | exact HA].
    + repeat keeps_step;
        first [ apply knows_modify_free; done | apply knows_set_chunk
              | apply knows_writeHeader ].
    + split; [exact Hk|]. simpl.
      apply elem_of_dom_2 in Hc. set_solver.
  - apply bind_Ok_inv in HA as (c & sa & Hi & HA).
    apply bind_Ok_inv in HA as ([] & sb & Hs & HA).
    apply ret_Ok_inv in HA as [-> ->].
    assert (Hka : knows (dom (p_chunks (snd s))) sa).
    { eapply keeps_run; [apply knows_initialize | | exact Hi]. by split. }
    inversion Hs; subst sb.
    destruct Hka as [Hka Hda]. split; simpl.
    + intros k c' Hl. simpl in Hl. destruct (decide (c_pos c = k)) as [<-|Hne].
      * rewrite lookup_insert_eq in Hl. by inversion Hl.
      * rewrite lookup_insert_ne in Hl by done. by apply Hka.
    + rewrite dom_insert_L. set_solver.
Qed.
End AllocKnown.

(** C8: a pointer returned by [Alloc] stays a key of the pool through any
    later sequence of [Alloc], [AllocAndWrite], [Write], [WriteAt],
    [ReadAll] and [Free] calls (failed ones included), [Get] resolves it,
    the chunk it resolves to has its header at that very position, and no
    chunk known before or in between is dropped: chunks are added or
    updated in place, never moved or removed. *)
Theorem chunk_pointer_stable {W H : Type} `{!ReadWriteSeeker W H}
    (fuel : nat) (n : Z) (ops : list pool_op) (s s1 : W * Pool H) (ptr : ChunkPtr) :
  keys_ok (snd s) ->
  Pool_Alloc fuel n s = (Ok ptr, s1) ->
  let s2 := run_pool_ops fuel ops s1 in
  Pool_Get ptr s2 = (Ok ptr, s2)
  /\ (exists c, p_chunks (snd s2) !! ptr = Some c /\ c_pos c = ptr)
  /\ dom (p_chunks (snd s)) ⊆ dom (p_chunks (snd s1))
  /\ dom (p_chunks (snd s1)) ⊆ dom (p_chunks (snd s2))
  /\ keys_ok (snd s2).
Proof.
  intros Hk HA s2.
  pose proof (Alloc_ptr_known _ _ _ _ _ Hk HA) as [Hk1 Hd1].
  assert (H2 : knows (dom (p_chunks (snd s1))) s2).
  { apply knows_run_pool_ops. by split. }
  destruct H2 as [Hk2 Hd2].
  assert (Hin : ptr ∈ dom (p_chunks (snd s2))) by set_solver.
  apply elem_of_dom in Hin as [c Hc].
  repeat split.
  - unfold Pool_Get, mbind, M_bind, bind, get_st. by rewrite Hc.
  - exists c. split; [done|]. by apply Hk2.
  - set_solver.
  - done.
  - done.
Qed.

Lemma chunk_pointer_stable_witness :
  let s : unit * Pool readWriteSeeker := (tt, mkPool (newReadWriteSeeker []) ∅ ∅ []) in
  let s1 := snd (Pool_Alloc 10 3 s) in
  let ops := [PWrite 0 (bytes_of "abc"); PFree 0; PAlloc 5; PAlloc 2; PFree 12;
              PAllocAndWrite (bytes_of "xy"); PReadAll 0] in
  let s2 := run_pool_ops 10 ops s1 in
  keys_ok (snd s)
  /\ Pool_Alloc 10 3 s = (Ok 0, s1)
  /\ Pool_Get 0 s2 = (Ok 0, s2)
  /\ (exists c, p_chunks (snd s2) !! 0 = Some c /\ c_pos c = 0)
  /\ dom (p_chunks (snd s)) ⊆ dom (p_chunks (snd s1))
  /\ dom (p_chunks (snd s1)) ⊆ dom (p_chunks (snd s2))
  /\ keys_ok (snd s2).
Proof.
  intros s s1 ops s2.
  assert (Hk : keys_ok (snd s)).
  { intros k c Hl. simpl in Hl. by rewrite lookup_empty in Hl. }
  assert (HA : Pool_Alloc 10 3 s = (Ok 0, s1)) by (vm_compute; reflexivity).
  split; [exact Hk|]. split; [exact HA|].
  exact (chunk_pointer_stable 10 3 ops s s1 0 Hk HA).
Defined.

(** C9: a pointer that is not a key of the pool is refused by [Get] with
    the not-found error and without any call on the stream (the state is
    left as it was); so are the dereferences built on [Get]: [Next] and
    [Prev] of a node (for a non-zero pointer; zero is the nil link),
    [Key], [KeyBytes], [Value], [ValueBytes], loading a node by pointer,
    and the descent of [findBucket] into a child array. *)
Theorem unknown_pointer_is_refused {W H : Type} `{!ReadWriteSeeker W H}
    (s : W * Pool H) (ptr : ChunkPtr) :
  p_chunks (snd s) !! ptr = None ->
  Pool_Get ptr s = (Err (ErrChunkNotFound ptr), s)
  /\ (forall fuel, NewKVNodeFromChunkPtr fuel ptr s = (Err (ErrChunkNotFound ptr), s))
  /\ (forall fuel n, n_next n = ptr -> ptr <> 0 ->
        KVNode_Next fuel n s = (Err (ErrChunkNotFound ptr), s))
  /\ (forall fuel n, n_prev n = ptr -> ptr <> 0 ->
        KVNode_Prev fuel n s = (Err (ErrChunkNotFound ptr), s))
  /\ (forall n, n_key n = ptr -> KVNode_Key n s = (Err (ErrChunkNotFound ptr), s))
  /\ (forall fuel n, n_key n = ptr ->
        KVNode_KeyBytes fuel n s = (Err (ErrChunkNotFound ptr), s))
  /\ (forall n, n_value n = ptr -> KVNode_Value n s = (Err (ErrChunkNotFound ptr), s))
  /\ (forall fuel n, n_value n = ptr ->
        KVNode_ValueBytes fuel n s = (Err (ErrChunkNotFound ptr), s))
  /\ (forall fuel bb key,
        b_Type (hashBuckets_bucket bb key) = bucketTypeBuckets ->
        b_Head (hashBuckets_bucket bb key) = ptr ->
        hashBuckets_findBucket (S fuel) bb key s = (Err (ErrChunkNotFound ptr), s)).
Proof.
  intros Hnone.
  assert (HG : Pool_Get ptr s = (Err (ErrChunkNotFound ptr), s)).
  { unfold Pool_Get, mbind, M_bind, bind, get_st. by rewrite Hnone. }
  repeat split.
  - exact HG.
  - intros fuel. unfold NewKVNodeFromChunkPtr, mbind, M_bind, bind. by rewrite HG.
  - intros fuel n Hn Hz. unfold KVNode_Next.
    destruct (n_next n =? 0) eqn:E; [apply Z.eqb_eq in E; congruence|].
    unfold mbind, M_bind, bind. by rewrite Hn, HG.
  - intros fuel n Hn Hz. unfold KVNode_Prev.
    destruct (n_prev n =? 0) eqn:E; [apply Z.eqb_eq in E; congruence|].
    unfold mbind, M_bind, bind. by rewrite Hn, HG.
  - intros n Hn. unfold KVNode_Key. by rewrite Hn.
  - intros fuel n Hn. unfold KVNode_KeyBytes, mbind, M_bind, bind. by rewrite Hn, HG.
  - intros n Hn. unfold KVNode_Value. by rewrite Hn.
  - intros fuel n Hn. unfold KVNode_ValueBytes, mbind, M_bind, bind. by rewrite Hn, HG.
  - intros fuel bb key Ht Hh. simpl. rewrite Ht. simpl.
    unfold mbind, M_bind, bind. by rewrite Hh, HG.
Qed.

Lemma unknown_pointer_is_refused_witness :
  let s : unit * Pool readWriteSeeker := (tt, mkPool (newReadWriteSeeker []) ∅ ∅ []) in
  p_chunks (snd s) !! 77 = None
  /\ Pool_Get 77 s = (Err (ErrChunkNotFound 77), s)
  /\ KVNode_Next 5 (mkKVNode 0 0 77 0 0) s = (Err (ErrChunkNotFound 77), s).
Proof.
  intros s.
  assert (Hn : p_chunks (snd s) !! 77 = None) by reflexivity.
  destruct (unknown_pointer_is_refused s 77 Hn) as (HG & _ & HN & _).
  split; [exact Hn|]. split; [exact HG|].
  apply HN; [reflexivity | lia].
Defined.

(** ** Seeking in an object *)

Lemma Object_size_sum o : Object_size o = bytes_before (o_blocks o) (length (o_blocks o)).
Proof.
  unfold Object_size, bytes_before. rewrite firstn_all.
  generalize (o_blocks o). intros bs.
  assert (H : forall acc, fold_left (fun size b => size + bm_End b) bs acc
                          = acc + fold_right Z.add 0 (map bm_End bs)).
  { induction bs as [|b bs IH]; intros acc; simpl; [lia|]. rewrite IH. lia. }
  rewrite H. lia.
Qed.

Lemma bytes_before_S bs i b :
  bs !! i = Some b -> bytes_before bs (S i) = bytes_before bs i + bm_End b.
Proof.
  unfold bytes_before. revert i. induction bs as [|a bs IH]; intros [|i] Hl; simpl in *;
    try discriminate.
  - inversion Hl; subst. lia.
  - rewrite (IH i Hl). lia.
Qed.

Lemma bytes_before_ge bs i :
  (length bs <= i)%nat -> bytes_before bs i = bytes_before bs (length bs).
Proof. intros Hi. unfold bytes_before. by rewrite !take_ge by lia. Qed.

Lemma bytes_before_mono bs i j :
  (forall k b, bs !! k = Some b -> 0 <= bm_End b) ->
  (i <= j)%nat -> bytes_before bs i <= bytes_before bs j.
Proof.
  intros Hnn Hij. induction Hij as [|j Hij IH]; [lia|].
  destruct (bs !! j) as [b|] eqn:E.
  - rewrite (bytes_before_S _ _ _ E). specialize (Hnn _ _ E). lia.
  - apply lookup_ge_None in E.
    rewrite (bytes_before_ge bs (S j)) by lia.
    rewrite (bytes_before_ge bs j) in IH by lia. lia.
Qed.

Section SeekProofs.
Variable db : DBCore.

Lemma block_at_Some o i b :
  0 <= i -> o_blocks o !! Z.to_nat i = Some b ->
  block_at o i (db, o) = (Ok b, (db, o)).
Proof.
  intros Hi Hl. unfold block_at.
  destruct (i <? 0) eqn:E; [lia|]. by rewrite Hl.
Qed.

Ltac run_m :=
  cbv beta iota delta [mbind M_bind bind get_obj get_st mret M_ret ret set_obj modify fail];
  cbn [fst snd].

Lemma seekFromRelative_step fuel o b d :
  0 <= d -> 0 <= o_posBlockIdx o ->
  o_blocks o !! Z.to_nat (o_posBlockIdx o) = Some b ->
  Object_seekFromRelative (S fuel) d (db, o) =
  if d =? 0 then (Ok (o_offset o), (db, o))
  else if o_posBlockOff o =? bm_End b then (Err EOF, (db, o))
  else
    let o' := forward_step o b d in
    if d - (o_offset o' - o_offset o) =? 0 then (Ok (o_offset o'), (db, o'))
    else Object_seekFromRelative fuel (d - (o_offset o' - o_offset o)) (db, o').
Proof.
  intros Hd Hidx Hb. cbn [Object_seekFromRelative].
  destruct (d <? 0) eqn:Ed; [lia|]. run_m.
  rewrite (block_at_Some _ _ _ Hidx Hb).
  destruct (d =? 0); [done|].
  destruct (o_posBlockOff o =? bm_End b); [done|].
  cbv zeta. unfold forward_step. cbn [o_offset].
  replace (o_offset o + _ - o_offset o) with
    (if d <? u32 (bm_End b - o_posBlockOff o) then u32 d
     else u32 (bm_End b - o_posBlockOff o)) by lia.
  destruct (_ =? 0); done.
Qed.

Lemma u32_small z : 0 <= z < 2 ^ 32 -> u32 z = z.
Proof. intros Hz. unfold u32. by apply Z.mod_small. Qed.

Lemma forward_step_inside o b d :
  0 <= o_posBlockOff o -> bm_End b < 2 ^ 32 ->
  0 <= d < bm_End b - o_posBlockOff o ->
  forward_step o b d =
  mkObject (o_blocks o) (o_offset o + d) (o_posBlockIdx o) (o_posBlockOff o + d).
Proof.
  intros Ho Hb Hd. unfold forward_step. cbv zeta.
  rewrite (u32_small (bm_End b - o_posBlockOff o)) by lia.
  destruct (d <? bm_End b - o_posBlockOff o) eqn:E; [|lia].
  rewrite (u32_small d) by lia.
  rewrite (u32_small (o_posBlockOff o + d)) by lia.
  destruct (o_posBlockOff o + d =? bm_End b) eqn:E2; [lia|]. done.
Qed.

Lemma forward_step_across o b d :
  0 <= o_posBlockOff o < bm_End b -> bm_End b < 2 ^ 32 ->
  bm_End b - o_posBlockOff o <= d ->
  forward_step o b d =
  mkObject (o_blocks o) (o_offset o + (bm_End b - o_posBlockOff o))
           (if bm_Next b =? 0 then o_posBlockIdx o else o_posBlockIdx o + 1)
           (if bm_Next b =? 0 then bm_End b else 0).
Proof.
  intros Ho Hb Hd. unfold forward_step. cbv zeta.
  rewrite (u32_small (bm_End b - o_posBlockOff o)) by lia.
  destruct (d <? bm_End b - o_posBlockOff o) eqn:E; [lia|].
  replace (o_posBlockOff o + (bm_End b - o_posBlockOff o)) with (bm_End b) by lia.
  rewrite (u32_small (bm_End b)) by lia.
  rewrite Z.eqb_refl. destruct (bm_Next b =? 0); done.
Qed.

(** The forward walk. *)
Lemma seekFromRelative_forward fuel : forall o t d,
  chain_wf (o_blocks o) -> at_offset o t -> rests_forward o -> 0 <= d ->
  (length (o_blocks o) - Z.to_nat (o_posBlockIdx o) + 2 <= fuel)%nat ->
  if decide (t + d <= Object_size o) then
    exists o', Object_seekFromRelative fuel d (db, o) = (Ok (t + d), (db, o'))
               /\ o_blocks o' = o_blocks o /\ at_offset o' (t + d) /\ rests_forward o'
  else
    exists o', Object_seekFromRelative fuel d (db, o) = (Err EOF, (db, o'))
               /\ o_blocks o' = o_blocks o.
Proof.
  induction fuel as [|fuel IH]; intros o t d Hwf Hat Hrf Hd Hfuel; [lia|].
  pose proof Hat as (Hoff & Hidx & b & Hb & Hrange & Hsum).
  pose proof Hwf as (Hne & Hend & Hmid & Hlast).
  pose proof (Hend _ _ Hb) as HbE.
  assert (Hlen : (Z.to_nat (o_posBlockIdx o) < length (o_blocks o))%nat)
    by (by apply lookup_lt_Some in Hb).
  assert (Hsize : bytes_before (o_blocks o) (S (Z.to_nat (o_posBlockIdx o))) <= Object_size o).
  { rewrite Object_size_sum. apply bytes_before_mono; [|lia].
    intros k b' Hk. specialize (Hend _ _ Hk). lia. }
  rewrite (bytes_before_S _ _ _ Hb) in Hsize.
  rewrite (seekFromRelative_step _ _ _ _ Hd Hidx Hb).
  destruct (d =? 0) eqn:Ed0.
  { apply Z.eqb_eq in Ed0. subst d. rewrite Z.add_0_r.
    destruct (decide _) as [Hle|Hgt]; [|lia].
    exists o. rewrite Hoff. done. }
  apply Z.eqb_neq in Ed0.
  destruct (o_posBlockOff o =? bm_End b) eqn:Eend.
  { (* at the end of the block: by [rests_forward], of the last block *)
    apply Z.eqb_eq in Eend.
    destruct (Hrf _ Hb) as [Hlt|Htail]; [lia|].
    assert (Hsz : Object_size o = t).
    { rewrite Object_size_sum. rewrite <- Hsum, Eend.
      rewrite <- (bytes_before_S _ _ _ Hb). f_equal.
      unfold Zlength in Htail. lia. }
    destruct (decide _) as [Hle|Hgt]; [lia|]. by exists o. }
  apply Z.eqb_neq in Eend.
  cbv zeta.
  destruct (decide (d < bm_End b - o_posBlockOff o)) as [Hin|Hout].
  { (* the target is inside the current block *)
    rewrite (forward_step_inside o b d) by lia. cbn [o_offset].
    replace (d - (o_offset o + d - o_offset o)) with 0 by lia. cbn [Z.eqb].
    destruct (decide _) as [Hle|Hgt]; [|lia].
    eexists. split; [by rewrite Hoff|]. split; [done|]. split.
    - split; [cbn; lia|]. split; [done|]. exists b. cbn. repeat split; try done; lia.
    - intros b' Hb'. cbn in *. rewrite Hb in Hb'. inversion Hb'; subst b'. left. lia. }
  rewrite (forward_step_across o b d) by lia. cbn [o_offset].
  set (r := bm_End b - o_posBlockOff o).
  replace (d - (o_offset o + r - o_offset o)) with (d - r) by lia.
  destruct (decide (S (Z.to_nat (o_posBlockIdx o)) = length (o_blocks o))) as [Htail|Hmidb].
  - (* the current block is the last one *)
    rewrite (Hlast _ _ Hb Htail). cbn [Z.eqb].
    assert (Hsz : Object_size o = t + r).
    { rewrite Object_size_sum, <- Htail, (bytes_before_S _ _ _ Hb). unfold r. lia. }
    set (o' := mkObject _ _ _ _).
    destruct (d - r =? 0) eqn:Edr.
    + apply Z.eqb_eq in Edr. destruct (decide _) as [Hle|Hgt]; [|lia].
      exists o'. split; [f_equal; f_equal; lia|]. split; [done|]. split.
      * split; [cbn; lia|]. split; [done|]. exists b. cbn. repeat split; try done; lia.
      * intros b' Hb'. right. cbn. unfold Zlength. lia.
    + apply Z.eqb_neq in Edr. destruct (decide _) as [Hle|Hgt]; [lia|].
      exists o'. split; [|done].
      destruct fuel as [|fuel']; [lia|].
      rewrite (seekFromRelative_step fuel' o' b (d - r)); [|lia|done|done].
      destruct (d - r =? 0) eqn:E1; [lia|]. cbn [o_posBlockOff o'].
      by rewrite Z.eqb_refl.
  - (* a block follows *)
    destruct (Hmid _ _ Hb) as [Hpos Hnext]; [lia|].
    destruct (bm_Next b =? 0) eqn:En; [apply Z.eqb_eq in En; lia|].
    set (o' := mkObject _ _ _ _).
    assert (Hb1 : exists b1, o_blocks o !! S (Z.to_nat (o_posBlockIdx o)) = Some b1).
    { apply lookup_lt_is_Some. lia. }
    destruct Hb1 as [b1 Hb1].
    assert (Hidx1 : Z.to_nat (o_posBlockIdx o + 1) = S (Z.to_nat (o_posBlockIdx o))) by lia.
    assert (Hat' : at_offset o' (t + r)).
    { split; [cbn; lia|]. split; [cbn; lia|]. exists b1. cbn.
      rewrite Hidx1. split; [done|]. pose proof (Hend _ _ Hb1).
      split; [lia|]. rewrite (bytes_before_S _ _ _ Hb). unfold r. lia. }
    assert (Hrf' : rests_forward o').
    { intros b' Hb'. cbn in Hb'. rewrite Hidx1, Hb1 in Hb'. inversion Hb'; subst b'.
      cbn. destruct (decide (S (S (Z.to_nat (o_posBlockIdx o))) = length (o_blocks o))).
      - right. unfold Zlength. lia.
      - left. apply (Hmid _ _ Hb1). lia. }
    destruct (d - r =? 0) eqn:Edr.
    + apply Z.eqb_eq in Edr. destruct (decide _) as [Hle|Hgt]; [|lia].
      exists o'. split; [f_equal; f_equal; lia|]. split; [done|].
      replace (t + d) with (t + r) by lia. done.
    + specialize (IH o' (t + r) (d - r) Hwf Hat' Hrf').
      replace (t + r + (d - r)) with (t + d) in IH by lia.
      replace (Object_size o') with (Object_size o) in IH by done.
      apply IH; [lia|]. cbn. lia.
Qed.

Lemma seekFromRelativeBack_step fuel o b d :
  0 <= o_posBlockIdx o ->
  o_blocks o !! Z.to_nat (o_posBlockIdx o) = Some b ->
  Object_seekFromRelativeBack (S fuel) d (db, o) =
  if d =? 0 then (Ok (o_offset o), (db, o))
  else if (o_posBlockOff o =? 0) && (o_posBlockIdx o =? 0) then (Err EOF, (db, o))
  else
    let o' := backward_step o (prev_End o) d in
    if d - (o_offset o - o_offset o') =? 0 then (Ok (o_offset o'), (db, o'))
    else Object_seekFromRelativeBack fuel (d - (o_offset o - o_offset o')) (db, o').
Proof.
  intros Hidx Hb. cbn [Object_seekFromRelativeBack]. run_m.
  destruct (d =? 0); [done|].
  destruct ((o_posBlockOff o =? 0) && (o_posBlockIdx o =? 0)); [done|].
  cbv zeta. unfold backward_step, prev_End.
  set (canRead := if d <? o_posBlockOff o then u32 d else o_posBlockOff o).
  destruct ((u32 (o_posBlockOff o - canRead) =? 0) && negb (o_posBlockIdx o =? 0)) eqn:E.
  - apply andb_true_iff in E as [_ E]. apply negb_true_iff, Z.eqb_neq in E.
    assert (Hp : exists p, o_blocks o !! Z.to_nat (o_posBlockIdx o - 1) = Some p).
    { apply lookup_lt_is_Some. apply lookup_lt_Some in Hb. lia. }
    destruct Hp as [p Hp]. rewrite Hp.
    rewrite (block_at_Some o (o_posBlockIdx o - 1) p) by (done || lia).
    cbn [o_offset].
    replace (o_offset o - (o_offset o - canRead)) with canRead by lia.
    destruct (d - canRead =? 0); done.
  - cbn [o_offset].
    replace (o_offset o - (o_offset o - canRead)) with canRead by lia.
    cbn [fst snd]. destruct (d - canRead =? 0); done.
Qed.

(** The backward walk. *)
Lemma seekFromRelativeBack_backward fuel : forall o t d,
  chain_wf (o_blocks o) -> at_offset o t -> 0 <= d ->
  (2 * Z.to_nat (o_posBlockIdx o) + 2 <= fuel)%nat ->
  if decide (d <= t) then
    exists o', Object_seekFromRelativeBack fuel d (db, o) = (Ok (t - d), (db, o'))
               /\ o_blocks o' = o_blocks o /\ at_offset o' (t - d)
  else
    exists o', Object_seekFromRelativeBack fuel d (db, o) = (Err EOF, (db, o'))
               /\ o_blocks o' = o_blocks o.
Proof.
  induction fuel as [|fuel IH]; intros o t d Hwf Hat Hd Hfuel; [lia|].
  pose proof Hat as (Hoff & Hidx & b & Hb & Hrange & Hsum).
  pose proof Hwf as (Hne & Hend & Hmid & Hlast).
  pose proof (Hend _ _ Hb) as HbE.
  rewrite (seekFromRelativeBack_step _ _ _ _ Hidx Hb).
  destruct (d =? 0) eqn:Ed0.
  { apply Z.eqb_eq in Ed0. subst d. rewrite Z.sub_0_r.
    assert (Ht : 0 <= t).
    { rewrite <- Hsum.
      pose proof (bytes_before_mono (o_blocks o) 0 (Z.to_nat (o_posBlockIdx o))) as Hm.
      unfold bytes_before at 1 in Hm. simpl in Hm.
      assert (0 <= bytes_before (o_blocks o) (Z.to_nat (o_posBlockIdx o))).
      { apply Hm; [|lia]. intros k b' Hk. specialize (Hend _ _ Hk). lia. }
      lia. }
    destruct (decide _) as [Hle|Hgt]; [|lia].
    exists o. rewrite Hoff. done. }
  apply Z.eqb_neq in Ed0.
  destruct ((o_posBlockOff o =? 0) && (o_posBlockIdx o =? 0)) eqn:Estart.
  { apply andb_true_iff in Estart as [E1 E2].
    apply Z.eqb_eq in E1, E2.
    assert (Ht : t = 0).
    { rewrite <- Hsum, E1, E2. unfold bytes_before. simpl. done. }
    destruct (decide _) as [Hle|Hgt]; [lia|]. by exists o. }
  cbv zeta. unfold backward_step.
  destruct (decide (d < o_posBlockOff o)) as [Hin|Hout].
  { destruct (d <? o_posBlockOff o) eqn:E; [|lia].
    rewrite (u32_small d) by lia.
    rewrite (u32_small (o_posBlockOff o - d)) by lia.
    destruct (o_posBlockOff o - d =? 0) eqn:E0; [lia|]. cbn [andb o_offset].
    replace (d - (o_offset o - (o_offset o - d))) with 0 by lia. cbn [Z.eqb].
    assert (Ht : d <= t).
    { rewrite <- Hsum.
      pose proof (bytes_before_mono (o_blocks o) 0 (Z.to_nat (o_posBlockIdx o))) as Hm.
      unfold bytes_before at 1 in Hm. simpl in Hm.
      assert (0 <= bytes_before (o_blocks o) (Z.to_nat (o_posBlockIdx o))).
      { apply Hm; [|lia]. intros k b' Hk. specialize (Hend _ _ Hk). lia. }
      lia. }
    destruct (decide _) as [Hle|Hgt]; [|lia].
    eexists. split; [by rewrite Hoff|]. split; [done|].
    split; [cbn; lia|]. split; [done|]. exists b. cbn. repeat split; try done; lia. }
  destruct (d <? o_posBlockOff o) eqn:E; [lia|].
  replace (o_posBlockOff o - o_posBlockOff o) with 0 by lia.
  rewrite (u32_small 0) by lia. cbn [Z.eqb andb].
  destruct (o_posBlockIdx o =? 0) eqn:Ei; cbn [negb].
  - (* first block *)
    apply Z.eqb_eq in Ei.
    assert (Ht : t = o_posBlockOff o).
    { rewrite <- Hsum, Ei. unfold bytes_before. simpl. lia. }
    assert (Hpos : o_posBlockOff o <> 0).
    { intros Hz. rewrite Hz in Estart. done. }
    cbn [o_offset].
    replace (d - (o_offset o - (o_offset o - o_posBlockOff o))) with (d - o_posBlockOff o)
      by lia.
    set (o' := mkObject _ _ _ _).
    destruct (d - o_posBlockOff o =? 0) eqn:Edr.
    + apply Z.eqb_eq in Edr. destruct (decide _) as [Hle|Hgt]; [|lia].
      exists o'. split; [f_equal; f_equal; cbn; lia|]. split; [done|].
      split; [cbn; lia|]. split; [done|]. exists b. cbn.
      rewrite Ei in Hb |- *. repeat split; try done; [lia|].
      unfold bytes_before. simpl. lia.
    + apply Z.eqb_neq in Edr. destruct (decide _) as [Hle|Hgt]; [lia|].
      exists o'. split; [|done].
      destruct fuel as [|fuel']; [lia|].
      rewrite (seekFromRelativeBack_step fuel' o' b); [|done|done].
      destruct (d - o_posBlockOff o =? 0) eqn:E1; [lia|].
      subst o'. cbn [o_posBlockOff o_posBlockIdx]. by rewrite Ei.
  - (* step into the block before *)
    apply Z.eqb_neq in Ei.
    assert (Hp : exists p, o_blocks o !! Z.to_nat (o_posBlockIdx o - 1) = Some p).
    { apply lookup_lt_is_Some. apply lookup_lt_Some in Hb. lia. }
    destruct Hp as [p Hp].
    unfold prev_End. rewrite Hp. cbn [o_offset].
    replace (d - (o_offset o - (o_offset o - o_posBlockOff o))) with (d - o_posBlockOff o)
      by lia.
    set (o' := mkObject _ _ _ _).
    assert (Hidx1 : Z.to_nat (o_posBlockIdx o) = S (Z.to_nat (o_posBlockIdx o - 1))) by lia.
    assert (Hat' : at_offset o' (t - o_posBlockOff o)).
    { split; [cbn; lia|]. split; [cbn; lia|]. exists p. cbn.
      split; [done|]. pose proof (Hend _ _ Hp). split; [lia|].
      rewrite <- Hsum, Hidx1, (bytes_before_S _ _ _ Hp). lia. }
    destruct (d - o_posBlockOff o =? 0) eqn:Edr.
    + apply Z.eqb_eq in Edr.
      assert (Ht : d <= t).
      { destruct Hat' as (_ & _ & p' & _ & Hr' & Hs'). cbn in Hs', Hr'.
        pose proof (bytes_before_mono (o_blocks o) 0 (Z.to_nat (o_posBlockIdx o - 1))) as Hm.
        unfold bytes_before at 1 in Hm. simpl in Hm.
        assert (0 <= bytes_before (o_blocks o) (Z.to_nat (o_posBlockIdx o - 1))).
        { apply Hm; [|lia]. intros k b' Hk. specialize (Hend _ _ Hk). lia. }
        lia. }
      destruct (decide _) as [Hle|Hgt]; [|lia].
      exists o'. split; [f_equal; f_equal; cbn; lia|]. split; [done|].
      replace (t - d) with (t - o_posBlockOff o) by lia. done.
    + specialize (IH o' (t - o_posBlockOff o) (d - o_posBlockOff o) Hwf Hat').
      replace (t - o_posBlockOff o - (d - o_posBlockOff o)) with (t - d) in IH by lia.
      destruct (decide (d <= t)) as [Hle|Hgt].
      * destruct (decide (d - o_posBlockOff o <= t - o_posBlockOff o)); [|lia].
        apply IH; [lia|]. cbn. lia.
      * destruct (decide (d - o_posBlockOff o <= t - o_posBlockOff o)); [lia|].
        apply IH; [lia|]. cbn. lia.
Qed.

Lemma at_offset_nonneg o t : chain_wf (o_blocks o) -> at_offset o t -> 0 <= t.
Proof.
  intros (Hne & Hend & _) (Hoff & Hidx & b & Hb & Hrange & Hsum).
  pose proof (bytes_before_mono (o_blocks o) 0 (Z.to_nat (o_posBlockIdx o))) as Hm.
  unfold bytes_before at 1 in Hm. simpl in Hm.
  assert (0 <= bytes_before (o_blocks o) (Z.to_nat (o_posBlockIdx o))).
  { apply Hm; [|lia]. intros k b' Hk. specialize (Hend _ _ Hk). lia. }
  lia.
Qed.

Lemma at_offset_le_size o t : chain_wf (o_blocks o) -> at_offset o t -> t <= Object_size o.
Proof.
  intros (Hne & Hend & _) (Hoff & Hidx & b & Hb & Hrange & Hsum).
  assert (Hsize : bytes_before (o_blocks o) (S (Z.to_nat (o_posBlockIdx o))) <= Object_size o).
  { rewrite Object_size_sum. apply bytes_before_mono.
    - intros k b' Hk. specialize (Hend _ _ Hk). lia.
    - apply lookup_lt_Some in Hb. lia. }
  rewrite (bytes_before_S _ _ _ Hb) in Hsize. lia.
Qed.

Lemma forward_rest_at_size o :
  chain_wf (o_blocks o) -> at_offset o (Object_size o) -> rests_forward o -> at_tail_end o.
Proof.
  intros Hwf Hat Hrf.
  pose proof Hat as (Hoff & Hidx & b & Hb & Hrange & Hsum).
  pose proof Hwf as (Hne & Hend & _).
  assert (Hsize : bytes_before (o_blocks o) (S (Z.to_nat (o_posBlockIdx o))) <= Object_size o).
  { rewrite Object_size_sum. apply bytes_before_mono.
    - intros k b' Hk. specialize (Hend _ _ Hk). lia.
    - apply lookup_lt_Some in Hb. lia. }
  rewrite (bytes_before_S _ _ _ Hb) in Hsize.
  destruct (Hrf _ Hb) as [Hlt|Htail]; [lia|].
  split; [done|]. exists b. split; [done|].
  rewrite Object_size_sum in Hsum.
  assert (Hl : length (o_blocks o) = S (Z.to_nat (o_posBlockIdx o))).
  { unfold Zlength in Htail. lia. }
  rewrite Hl, (bytes_before_S _ _ _ Hb) in Hsum. lia.
Qed.

Lemma i64_neg offset : - 2 ^ 63 < offset < 0 -> i64 (-1 * offset) = - offset.
Proof.
  intros Ho. unfold i64. cbv zeta.
  rewrite Z.mod_small by lia.
  destruct (-1 * offset <? 2 ^ 63) eqn:E; lia.
Qed.

(** C4 (amended): on a well-formed chain, [Seek(offset, whence)] aims at
    [offset] (start), [cursor + offset] (current) or [size - offset] (end:
    the offset counts backwards from the end, and is not negative).  When
    the target lies in [0, size] the call returns it, the cursor rests at
    that offset and the chain is unchanged; a target equal to [size]
    leaves the cursor at [(tailIndex, tail.End)].  Otherwise the call
    returns [io.EOF] and the chain and the file are unchanged: nothing is
    grown.  For a forward move from the cursor, the cursor must rest where
    a forward walk or a seek to the end leaves it. *)
Theorem Object_Seek_lands o fuel offset whence :
  chain_wf (o_blocks o) ->
  (2 * length (o_blocks o) + 4 <= fuel)%nat ->
  - 2 ^ 63 < offset < 2 ^ 63 ->
  (whence = SeekStart
   \/ (whence = SeekCurrent /\ at_offset o (o_offset o) /\ (0 <= offset -> rests_forward o))
   \/ (whence = SeekEnd /\ 0 <= offset)) ->
  let target := seek_target o offset whence in
  if decide (0 <= target <= Object_size o) then
    exists o', Object_Seek fuel offset whence (db, o) = (Ok target, (db, o'))
      /\ o_blocks o' = o_blocks o /\ at_offset o' target
      /\ (target = Object_size o -> at_tail_end o')
  else
    exists o', Object_Seek fuel offset whence (db, o) = (Err EOF, (db, o'))
      /\ o_blocks o' = o_blocks o.
Proof.
  intros Hwf Hfuel Hoff Hwh target.
  pose proof Hwf as (Hne & Hend & Hmid & Hlast).
  assert (Hb0 : exists b0, o_blocks o !! 0%nat = Some b0).
  { destruct (o_blocks o) as [|b0 bs]; [done|]. by exists b0. }
  destruct Hb0 as [b0 Hb0].
  destruct Hwh as [-> | [(-> & Hat & Hrf) | (-> & Hnn)]].
  - (* from the start *)
    unfold Object_Seek, Object_seek, Object_seekFromStart. cbn [Z.eqb SeekStart]. run_m.
    set (o0 := mkObject (o_blocks o) 0 0 0).
    assert (Hat0 : at_offset o0 0).
    { split; [done|]. split; [done|]. exists b0. cbn.
      specialize (Hend _ _ Hb0). repeat split; try done; lia. }
    assert (Hrf0 : rests_forward o0).
    { intros b' Hb'. change (o_blocks o !! 0%nat = Some b') in Hb'.
      rewrite Hb0 in Hb'. inversion Hb'; subst b'.
      change (0 < bm_End b0 \/ 0 = Zlength (o_blocks o) - 1).
      destruct (decide (1%nat = length (o_blocks o))).
      - right. unfold Zlength. lia.
      - left. apply (Hmid _ _ Hb0). apply lookup_lt_Some in Hb0. lia. }
    unfold target, seek_target. cbn [Z.eqb SeekStart].
    destruct (decide (0 <= offset)) as [Hpos|Hneg].
    + pose proof (seekFromRelative_forward fuel o0 0 offset Hwf Hat0 Hrf0 Hpos) as HF.
      replace (Object_size o0) with (Object_size o) in HF by done.
      rewrite Z.add_0_l in HF.
      destruct (decide (offset <= Object_size o)) as [Hle|Hgt].
      * destruct (decide (0 <= offset <= Object_size o)); [|lia].
        destruct HF as (o' & Hrun & Hbl & Hat' & Hrf'); [cbn; lia|].
        exists o'. split; [done|]. split; [done|]. split; [done|].
        intros Heq. apply forward_rest_at_size; [by rewrite Hbl| |done].
        rewrite Heq in Hat'.
        by replace (Object_size o') with (Object_size o)
          by (unfold Object_size; by rewrite Hbl).
      * destruct (decide (0 <= offset <= Object_size o)); [lia|].
        apply HF. cbn. lia.
    + destruct (decide (0 <= offset <= Object_size o)); [lia|].
      destruct fuel as [|fuel']; [lia|]. cbn [Object_seekFromRelative].
      destruct (offset <? 0) eqn:E; [|lia].
      rewrite i64_neg by lia.
      pose proof (seekFromRelativeBack_backward fuel' o0 0 (- offset) Hwf Hat0) as HB.
      destruct (decide (- offset <= 0)); [lia|].
      apply HB; [lia|]. cbn. lia.
  - (* from the cursor *)
    unfold Object_Seek, Object_seek, target, seek_target.
    change (SeekCurrent =? 0) with false. change (SeekCurrent =? SeekStart) with false.
    change (SeekCurrent =? 1) with true. change (SeekCurrent =? SeekCurrent) with true.
    cbv iota.
    pose proof (at_offset_nonneg _ _ Hwf Hat) as Ht0.
    pose proof (at_offset_le_size _ _ Hwf Hat) as Hts.
    destruct (decide (0 <= offset)) as [Hpos|Hneg].
    + pose proof (seekFromRelative_forward fuel o (o_offset o) offset Hwf Hat (Hrf Hpos) Hpos)
        as HF.
      specialize (HF ltac:(lia)).
      destruct (decide (o_offset o + offset <= Object_size o)) as [Hle|Hgt].
      * destruct (decide (0 <= o_offset o + offset <= Object_size o)); [|lia].
        destruct HF as (o' & Hrun & Hbl & Hat' & Hrf').
        exists o'. split; [done|]. split; [done|]. split; [done|].
        intros Heq. apply forward_rest_at_size; [by rewrite Hbl| |done].
        rewrite Heq in Hat'.
        by replace (Object_size o') with (Object_size o)
          by (unfold Object_size; by rewrite Hbl).
      * destruct (decide (0 <= o_offset o + offset <= Object_size o)); [lia|].
        apply HF.
    + destruct fuel as [|fuel']; [lia|]. cbn [Object_seekFromRelative].
      destruct (offset <? 0) eqn:E; [|lia].
      rewrite i64_neg by lia.
      pose proof (seekFromRelativeBack_backward fuel' o (o_offset o) (- offset) Hwf Hat) as HB.
      replace (o_offset o - - offset) with (o_offset o + offset) in HB by lia.
      assert (Hidxb : (Z.to_nat (o_posBlockIdx o) < length (o_blocks o))%nat).
      { destruct Hat as (_ & _ & b & Hb & _). by apply lookup_lt_Some in Hb. }
      destruct (decide (- offset <= o_offset o)) as [Hle|Hgt].
      * destruct (decide (0 <= o_offset o + offset <= Object_size o)); [|lia].
        destruct HB as (o' & Hrun & Hbl & Hat'); [lia|lia|].
        exists o'. split; [done|]. split; [done|]. split; [done|]. lia.
      * destruct (decide (0 <= o_offset o + offset <= Object_size o)); [lia|].
        apply HB; lia.
  - (* from the end, backwards *)
    unfold Object_Seek, Object_seek, Object_seekFromEnd, target, seek_target.
    change (SeekEnd =? 0) with false. change (SeekEnd =? SeekStart) with false.
    change (SeekEnd =? 1) with false. change (SeekEnd =? SeekCurrent) with false.
    change (SeekEnd =? 2) with true.
    cbv iota. run_m.
    assert (Hbt : exists bt, o_blocks o !! Z.to_nat (Zlength (o_blocks o) - 1) = Some bt).
    { apply lookup_lt_is_Some. unfold Zlength. apply lookup_lt_Some in Hb0. lia. }
    destruct Hbt as [bt Hbt].
    assert (Hlen : 0 <= Zlength (o_blocks o) - 1).
    { unfold Zlength. apply lookup_lt_Some in Hb0. lia. }
    rewrite (block_at_Some _ _ _ Hlen Hbt).
    set (oe := mkObject (o_blocks o) (Object_size o) (Zlength (o_blocks o) - 1) (bm_End bt)).
    assert (Hate : at_offset oe (Object_size o)).
    { split; [done|]. split; [done|]. exists bt. cbn. split; [done|].
      pose proof (Hend _ _ Hbt). split; [lia|].
      rewrite Object_size_sum.
      replace (length (o_blocks o)) with (S (Z.to_nat (Zlength (o_blocks o) - 1)))
        by (unfold Zlength in *; lia).
      by rewrite (bytes_before_S _ _ _ Hbt). }
    pose proof (seekFromRelativeBack_backward fuel oe (Object_size o) offset Hwf Hate Hnn) as HB.
    destruct (decide (offset <= Object_size o)) as [Hle|Hgt].
    + destruct (decide (0 <= Object_size o - offset <= Object_size o)); [|lia].
      destruct HB as (o' & Hrun & Hbl & Hat'); [cbn; unfold Zlength in *; lia|].
      exists o'. split; [done|]. split; [done|]. split; [done|].
      intros Heq. assert (offset = 0) by lia. subst offset.
      destruct fuel as [|fuel']; [lia|].
      rewrite (seekFromRelativeBack_step fuel' oe bt) in Hrun; [|done|done].
      cbn in Hrun. inversion Hrun; subst o'.
      split; [done|]. exists bt. done.
    + destruct (decide (0 <= Object_size o - offset <= Object_size o)); [lia|].
      apply HB. cbn. unfold Zlength in *. lia.
Qed.
End SeekProofs.

Lemma four_blocks_wf : chain_wf (o_blocks four_blocks).
Proof.
  unfold chain_wf, four_blocks. cbn [o_blocks].
  split; [done|].
  split; [|split]; intros i b Hl;
    destruct i as [|[|[|[|j]]]]; simpl in Hl; inversion Hl; subst; simpl; intros; lia.
Qed.

Lemma Object_Seek_lands_witness :
  chain_wf (o_blocks four_blocks)
  /\ exists o', Object_Seek 20 5 SeekEnd (some_db, four_blocks) = (Ok 21, (some_db, o'))
       /\ o_blocks o' = o_blocks four_blocks /\ at_offset o' 21.
Proof.
  split; [exact four_blocks_wf|].
  pose proof (Object_Seek_lands some_db four_blocks 20 5 SeekEnd four_blocks_wf) as HS.
  assert (Hf : (2 * length (o_blocks four_blocks) + 4 <= 20)%nat) by (simpl; lia).
  assert (Hr : - 2 ^ 63 < 5 < 2 ^ 63) by lia.
  assert (Hw : SeekEnd = SeekStart
               \/ (SeekEnd = SeekCurrent /\ at_offset four_blocks (o_offset four_blocks)
                   /\ (0 <= 5 -> rests_forward four_blocks))
               \/ (SeekEnd = SeekEnd /\ 0 <= 5)) by (right; right; split; [done|lia]).
  specialize (HS Hf Hr Hw).
  cbv zeta in HS.
  destruct (decide _) as [Hin|Hout] in HS.
  - destruct HS as (o' & Hrun & Hbl & Hat & _). exists o'. auto.
  - exfalso. apply Hout. vm_compute. split; discriminate.
Defined.

(** C4 (counterexample): on the 26-byte object of the block tests,
    [Seek(5, SeekEnd)] returns 21: it counts backwards from the end, where
    a stream seek to [size + offset] = 31 is past the end and would be
    refused. *)
Lemma seek_end_counts_backwards :
  match alphabet_object 50 with
  | Some s =>
      Object_size (snd s) = 26
      /\ fst (Object_Seek 50 5 SeekEnd s) = Ok 21
      /\ fst (Object_Seek 50 5 SeekEnd s) <> stream_seek_end (Object_size (snd s)) 5
  | None => False
  end.
Proof. vm_compute. repeat split; discriminate. Qed.

(* ===================================================================== *)
(** * C5: the blocks that [write] allocates *)
(* ===================================================================== *)

(** ** Bytes *)

Lemma byte_to_of_Z z : byte_to_Z (byte_of_Z z) = z mod 256.
Proof.
  unfold byte_to_Z, byte_of_Z.
  assert (Hr : 0 <= z mod 256 < 256) by (apply Z.mod_pos_bound; lia).
  destruct (Byte.of_N (Z.to_N (z mod 256))) as [b|] eqn:E.
  - apply Byte.to_of_N in E. rewrite E. lia.
  - apply Byte.of_N_None_iff in E. lia.
Qed.

Lemma le_decode_encode n z : le_decode (le_encode n z) = z mod 256 ^ Z.of_nat n.
Proof.
  revert z. induction n as [|n IH]; intros z.
  - simpl. by rewrite Z.mod_1_r.
  - cbn [le_encode le_decode]. rewrite IH, byte_to_of_Z.
    rewrite Nat2Z.inj_succ, Z.pow_succ_r by lia.
    rewrite Z.rem_mul_r by lia. lia.
Qed.

Lemma length_le_encode n z : length (le_encode n z) = n.
Proof. revert z. induction n; intros; simpl; auto. Qed.

Lemma get_put_u32 v : get_u32 (put_u32 v) = u32 v.
Proof.
  unfold get_u32, put_u32. rewrite take_ge by (rewrite length_le_encode; lia).
  rewrite le_decode_encode. done.
Qed.

(** ** Writes and cells *)

Lemma length_zeros n : length (zeros n) = n.
Proof. apply repeat_length. Qed.

Lemma write_at_lookup_other data pos bs j :
  (j < pos \/ pos + length bs <= j)%nat -> (j < length data)%nat ->
  write_at data pos bs !! j = data !! j.
Proof.
  intros Hj Hl. unfold write_at.
  set (old := data ++ zeros (pos - length data)).
  assert (Hold : old !! j = data !! j) by (subst old; by rewrite lookup_app_l).
  assert (Hlen : (length old = Nat.max (length data) pos)%nat).
  { subst old. rewrite length_app, length_zeros. lia. }
  destruct Hj as [Hj|Hj].
  - rewrite lookup_app_l by (rewrite length_take; lia).
    by rewrite lookup_take_lt.
  - rewrite lookup_app_r by (rewrite length_take; lia).
    rewrite length_take, Hlen.
    rewrite lookup_app_r by lia.
    rewrite lookup_drop. rewrite <- Hold. f_equal. lia.
Qed.

Lemma write_at_lookup_in data pos bs j :
  (j < length bs)%nat -> write_at data pos bs !! (pos + j)%nat = bs !! j.
Proof.
  intros Hj. unfold write_at.
  set (old := data ++ zeros (pos - length data)).
  assert (Hlen : (length old = Nat.max (length data) pos)%nat).
  { subst old. rewrite length_app, length_zeros. lia. }
  rewrite lookup_app_r by (rewrite length_take; lia).
  rewrite length_take, Hlen.
  rewrite lookup_app_l by lia. f_equal. lia.
Qed.

Lemma length_write_at data pos bs :
  length (write_at data pos bs) = Nat.max (length data) (pos + length bs).
Proof.
  unfold write_at. rewrite !length_app, length_take, length_drop, !length_app, length_zeros. lia.
Qed.

Lemma cell_ext X Y p :
  0 <= p ->
  (forall i, (i < 4)%nat -> X !! (Z.to_nat p + i)%nat = Y !! (Z.to_nat p + i)%nat) ->
  cell X p = cell Y p.
Proof.
  intros Hp H. unfold cell, get_u32. f_equal. apply list_eq. intros i.
  destruct (decide (i < 4)%nat) as [Hi|Hi].
  - rewrite !lookup_take_lt, !lookup_drop by done. by apply H.
  - rewrite !lookup_take_ge by lia. done.
Qed.

Lemma cell_write_at_other data pos bs p :
  0 <= p -> p + 4 <= Zlength data ->
  (p + 4 <= Z.of_nat pos \/ Z.of_nat pos + Zlength bs <= p) ->
  cell (write_at data pos bs) p = cell data p.
Proof.
  unfold Zlength. intros Hp Hl Hd. apply cell_ext; [done|]. intros i Hi.
  apply write_at_lookup_other; lia.
Qed.

Lemma cell_write_at_same data pos v :
  cell (write_at data pos (put_u32 v)) (Z.of_nat pos) = u32 v.
Proof.
  rewrite <- get_put_u32. unfold cell, get_u32. f_equal. apply list_eq. intros i.
  destruct (decide (i < 4)%nat) as [Hi|Hi].
  - rewrite !lookup_take_lt, lookup_drop by done.
    rewrite Nat2Z.id. apply write_at_lookup_in. unfold put_u32. rewrite length_le_encode. done.
  - rewrite !lookup_take_ge by lia. done.
Qed.

(** ** The file operations of the block layer as equations *)

Lemma with_file_same db : with_file db (f_pos (db_f db)) (db_data db) = db.
Proof. by destruct db as [[? ?] ? ?]. Qed.

Lemma with_file_with_file db p d p' d' :
  with_file (with_file db p d) p' d' = with_file db p' d'.
Proof. done. Qed.

Lemma db_data_with_file db p d : db_data (with_file db p d) = d.
Proof. done. Qed.

Lemma f_pos_with_file db p d : f_pos (db_f (with_file db p d)) = p.
Proof. done. Qed.

Lemma db_meta_with_file db p d : db_meta (with_file db p d) = db_meta db.
Proof. done. Qed.

Lemma db_sizeMeta_with_file db p d : db_sizeMeta (with_file db p d) = db_sizeMeta db.
Proof. done. Qed.

Lemma block_pos_with_file db p d i : block_pos (with_file db p d) i = block_pos db i.
Proof. done. Qed.

Lemma Zlength_put_u32 v : Zlength (put_u32 v) = 4.
Proof. unfold Zlength, put_u32. by rewrite length_le_encode. Qed.

Ltac dbs :=
  rewrite ?with_file_with_file, ?db_data_with_file, ?f_pos_with_file,
          ?db_meta_with_file, ?db_sizeMeta_with_file, ?block_pos_with_file,
          ?Zlength_put_u32.

Ltac same_file := dbs; unfold ret; f_equal; f_equal; try (f_equal; lia); try lia.

Lemma dbf_Seek_eq db pos :
  0 <= pos -> dbf_Seek pos SeekStart db = (Ok pos, with_file db pos (db_data db)).
Proof.
  intros Hp. unfold dbf_Seek, on_dbf. cbn. unfold File_Seek.
  change (SeekStart =? 0) with true. cbn.
  destruct (pos <? 0) eqn:E; [lia|]. done.
Qed.

Lemma dbf_Write_eq db p :
  dbf_Write p db
  = (Ok tt, with_file db (f_pos (db_f db) + Zlength p)
              (write_at (db_data db) (Z.to_nat (f_pos (db_f db))) p)).
Proof. done. Qed.

Lemma dbf_get_u32_eq db :
  0 <= f_pos (db_f db) -> f_pos (db_f db) + 4 <= Zlength (db_data db) ->
  dbf_get_u32 db
  = (Ok (cell (db_data db) (f_pos (db_f db))), with_file db (f_pos (db_f db) + 4) (db_data db)).
Proof.
  unfold db_data. intros Hp Hl. unfold dbf_get_u32, on_dbf, read_u32, ReadFull.
  set (bs := take 4 (drop (Z.to_nat (f_pos (db_f db))) (f_data (db_f db)))).
  assert (Hlen : length bs = 4%nat).
  { subst bs. unfold Zlength in Hl. rewrite length_take, length_drop. lia. }
  assert (Hr : s_Read 4 (tt, db_f db)
               = (Ok (bs, None), (tt, mkFile (f_pos (db_f db) + 4) (f_data (db_f db))))).
  { unfold s_Read. cbn [rws_Read File_rws snd fst]. unfold File_Read. cbn [Nat.eqb].
    destruct (Zlength (f_data (db_f db)) <=? f_pos (db_f db)) eqn:E; [lia|].
    fold bs. unfold Zlength at 1. rewrite Hlen. done. }
  cbn [ReadAtLeast_loop length Nat.leb Nat.sub].
  cbv beta iota delta [mbind M_bind bind mret M_ret ret].
  rewrite Hr. cbn [fst snd app]. rewrite Hlen. cbn [Nat.leb].
  unfold cell, get_u32, with_file. fold bs. subst bs. rewrite take_take. done.
Qed.

Lemma run_bind {St A B} (m : M St A) (k : A -> M St B) s a s' :
  m s = (Ok a, s') -> (m ≫= k) s = k a s'.
Proof. intros Hm. unfold mbind, M_bind, bind. by rewrite Hm. Qed.

Lemma on_db_eq {A} (m : M DBCore A) db (o : Object) r db' :
  m db = (r, db') -> on_db m (db, o) = (r, (db', o)).
Proof. intros Hm. unfold on_db, zoom_fst. cbn. by rewrite Hm. Qed.

Lemma dbf_put_u32_eq db v :
  dbf_put_u32 v db
  = (Ok tt, with_file db (f_pos (db_f db) + 4)
              (write_at (db_data db) (Z.to_nat (f_pos (db_f db))) (put_u32 v))).
Proof. unfold dbf_put_u32. rewrite dbf_Write_eq. by dbs. Qed.

Lemma BlockMeta_ReadFrom_eq db pos idx :
  0 <= f_pos (db_f db) -> f_pos (db_f db) + 8 <= Zlength (db_data db) ->
  BlockMeta_ReadFrom pos idx db
  = (Ok (mkBlockMeta pos idx (cell (db_data db) (f_pos (db_f db)))
                     (cell (db_data db) (f_pos (db_f db) + sizeEnd))),
     with_file db (f_pos (db_f db) + 8) (db_data db)).
Proof.
  intros Hp Hl. unfold BlockMeta_ReadFrom.
  erewrite run_bind by (apply dbf_get_u32_eq; lia).
  erewrite run_bind by (apply dbf_get_u32_eq; dbs; lia).
  unfold sizeEnd. same_file.
Qed.

Lemma BlockMeta_WriteNext_eq db m :
  0 <= bm_pos m + sizeEnd ->
  BlockMeta_WriteNext m db
  = (Ok tt, with_file db (bm_pos m + 8)
              (write_at (db_data db) (Z.to_nat (bm_pos m + sizeEnd)) (put_u32 (bm_Next m)))).
Proof.
  intros Hp. unfold BlockMeta_WriteNext.
  erewrite run_bind by (apply dbf_Seek_eq; lia).
  rewrite dbf_put_u32_eq. unfold sizeEnd. same_file.
Qed.

Lemma BlockMeta_WriteEnd_eq db m :
  0 <= bm_pos m ->
  BlockMeta_WriteEnd m db
  = (Ok tt, with_file db (bm_pos m + 4)
              (write_at (db_data db) (Z.to_nat (bm_pos m)) (put_u32 (bm_End m)))).
Proof.
  intros Hp. unfold BlockMeta_WriteEnd.
  erewrite run_bind by (apply dbf_Seek_eq; lia).
  rewrite dbf_put_u32_eq. same_file.
Qed.

Lemma BlockMeta_WriteTo_eq db m :
  BlockMeta_WriteTo m db
  = (Ok tt, with_file db (f_pos (db_f db) + 8)
              (write_at (write_at (db_data db) (Z.to_nat (f_pos (db_f db))) (put_u32 (bm_End m)))
                        (Z.to_nat (f_pos (db_f db) + 4)) (put_u32 (bm_Next m)))).
Proof.
  unfold BlockMeta_WriteTo.
  erewrite run_bind by apply dbf_put_u32_eq.
  rewrite dbf_put_u32_eq. same_file.
Qed.

Lemma DBMeta_WriteFirstFreeBlock_eq db m :
  DBMeta_WriteFirstFreeBlock m db
  = (Ok tt, with_file db 20 (write_at (db_data db) 16 (put_u32 (m_FirstFreeBlock m)))).
Proof.
  unfold DBMeta_WriteFirstFreeBlock.
  erewrite run_bind by (apply dbf_Seek_eq; lia).
  rewrite dbf_put_u32_eq. same_file.
Qed.

Lemma DBMeta_WriteBlockCount_eq db m :
  DBMeta_WriteBlockCount m db
  = (Ok tt, with_file db 16 (write_at (db_data db) 12 (put_u32 (m_BlockCount m)))).
Proof.
  unfold DBMeta_WriteBlockCount.
  erewrite run_bind by (apply dbf_Seek_eq; lia).
  rewrite dbf_put_u32_eq. same_file.
Qed.

(** ** The free list *)

Lemma chain_on_disk_frame db db' first fl :
  db_sizeMeta db' = db_sizeMeta db ->
  m_BlockSize (db_meta db') = m_BlockSize (db_meta db) ->
  Forall (fun i => cell (db_data db') (block_pos db i + sizeEnd)
                   = cell (db_data db) (block_pos db i + sizeEnd)) fl ->
  chain_on_disk db first fl -> chain_on_disk db' first fl.
Proof.
  intros Hs Hb. revert first. induction fl as [|i fl IH]; intros first Hc Hch; [done|].
  inversion Hc as [|? ? Hi Hrest]; subst.
  destruct Hch as (-> & Hn & Hch). cbn [chain_on_disk].
  split; [done|]. split; [done|].
  replace (block_pos db' i) with (block_pos db i) by (unfold block_pos; by rewrite Hs, Hb).
  rewrite Hi. by apply IH.
Qed.

Lemma blocks_of_with_file db p l :
  blocks_of (with_file db p (db_data db)) l = blocks_of db l.
Proof. done. Qed.

Lemma chain_nth db first fl : chain_on_disk db first fl -> nth 0 fl 0 = first.
Proof. destruct fl; cbn; [done|]. by intros (-> & _). Qed.

Lemma alloc_free_loop_spec db fl : forall n first pos,
  chain_on_disk db first fl ->
  Forall (fun i => 0 <= block_pos db i /\ block_pos db i + 8 <= Zlength (db_data db)) fl ->
  exists pos',
    alloc_free_loop n first (with_file db pos (db_data db))
    = (Ok (blocks_of db (take n fl), nth n fl 0, (n - length fl)%nat),
       with_file db pos' (db_data db)).
Proof.
  induction fl as [|i fl IH]; intros n first pos Hch Hin.
  - cbn in Hch. subst first. exists pos. destruct n; done.
  - destruct Hch as (-> & Hn & Hch). inversion Hin as [|? ? [Hi1 Hi2] Hrest]; subst.
    destruct n as [|n].
    + exists pos. done.
    + cbn [alloc_free_loop]. destruct (i =? 0) eqn:E; [lia|].
      destruct (IH n (cell (db_data db) (block_pos db i + sizeEnd)) (block_pos db i + 8) Hch Hrest)
        as [pos' Hrec].
      exists pos'.
      erewrite run_bind by reflexivity.
      erewrite run_bind by (apply dbf_Seek_eq; dbs; lia).
      erewrite run_bind by (apply BlockMeta_ReadFrom_eq; dbs; lia).
      dbs. cbn [bm_Next].
      erewrite run_bind by exact Hrec.
      done.
Qed.

(** ** Growing the file *)

Lemma grow_loop_spec n start : forall k i db,
  0 <= i -> 0 <= start -> 0 <= m_BlockSize (db_meta db) ->
  exists db',
    grow_loop k i n start db
    = (Ok (grow_metas k i n start (m_BlockSize (db_meta db)) (m_BlockCount (db_meta db))), db')
    /\ db_meta db' = db_meta db /\ db_sizeMeta db' = db_sizeMeta db
    /\ Zlength (db_data db) <= Zlength (db_data db')
    /\ forall p, 0 <= p -> p + 4 <= start -> p + 4 <= Zlength (db_data db) ->
         cell (db_data db') p = cell (db_data db) p.
Proof.
  induction k as [|k IH]; intros i db Hi Hs Hb.
  - exists db. cbn. repeat split; try done; lia.
  - cbn [grow_loop grow_metas].
    set (blockPos := start + i * m_BlockSize (db_meta db)).
    assert (Hbp : start <= blockPos) by (subst blockPos; nia).
    set (meta := mkBlockMeta blockPos _ 0 _).
    set (db1 := with_file db (blockPos + 8)
                  (write_at (write_at (db_data db) (Z.to_nat blockPos) (put_u32 (bm_End meta)))
                            (Z.to_nat (blockPos + 4)) (put_u32 (bm_Next meta)))).
    destruct (IH (i + 1) db1 ltac:(lia) Hs Hb) as (db' & Hrun & Hm & Hsz & Hlen & Hfr).
    exists db'.
    erewrite run_bind by reflexivity.
    erewrite run_bind by (apply dbf_Seek_eq; lia).
    erewrite run_bind by (rewrite BlockMeta_WriteTo_eq; dbs; reflexivity).
    fold db1. erewrite run_bind by exact Hrun.
    assert (Hl1 : Zlength (db_data db) <= Zlength (db_data db1)).
    { subst db1. dbs. unfold Zlength. rewrite !length_write_at. lia. }
    split; [done|]. split; [done|]. split; [done|]. split; [lia|].
    intros p Hp0 Hp1 Hp2. rewrite Hfr by lia.
    subst db1. dbs.
    rewrite cell_write_at_other.
    + rewrite cell_write_at_other; [done|lia|lia|]. left. lia.
    + lia.
    + unfold Zlength. rewrite length_write_at. unfold Zlength in Hp2. lia.
    + left. lia.
Qed.

Lemma Zlength_write_at_ge data pos bs : Zlength data <= Zlength (write_at data pos bs).
Proof. unfold Zlength. rewrite length_write_at. lia. Qed.

Lemma BlockDB_grow_spec fuel n db :
  0 < n -> 0 <= m_BlockSize (db_meta db) -> 0 <= m_BlockCount (db_meta db) ->
  0 <= db_sizeMeta db ->
  let meta := db_meta db in
  let start := db_sizeMeta db + m_BlockCount meta * m_BlockSize meta in
  exists db',
    BlockDB_grow fuel n false db
    = (Ok (grow_metas (Z.to_nat n) 0 n start (m_BlockSize meta) (m_BlockCount meta)), db')
    /\ db_meta db' = mkDBMeta (m_Magic meta) (m_Version meta) (m_BlockSize meta)
                              (u32 (m_BlockCount meta + n)) (m_FirstFreeBlock meta)
    /\ db_sizeMeta db' = db_sizeMeta db
    /\ Zlength (db_data db) <= Zlength (db_data db')
    /\ forall p, 16 <= p -> p + 4 <= start -> p + 4 <= Zlength (db_data db) ->
         cell (db_data db') p = cell (db_data db) p.
Proof.
  intros Hn Hb Hc Hs meta start.
  assert (Hst : 0 <= start) by (subst start meta; nia).
  unfold BlockDB_grow. fold meta. fold start.
  set (zs := zeros (Z.to_nat (u32 (n * m_BlockSize meta)))).
  set (db1 := with_file db (start + Zlength zs) (write_at (db_data db) (Z.to_nat start) zs)).
  destruct (grow_loop_spec n start (Z.to_nat n) 0 db1 ltac:(lia) Hst Hb)
    as (db2 & Hrun & Hm2 & Hs2 & Hl2 & Hfr2).
  revert Hrun. subst db1. dbs. fold meta. intros Hrun.
  eexists.
  erewrite run_bind by reflexivity.
  erewrite run_bind by (apply dbf_Seek_eq; lia).
  erewrite run_bind by (rewrite dbf_Write_eq; dbs; reflexivity).
  erewrite run_bind by exact Hrun.
  erewrite run_bind by reflexivity.
  erewrite run_bind by apply DBMeta_WriteBlockCount_eq.
  cbn [negb]. split; [reflexivity|].
  dbs. cbn [db_meta db_sizeMeta].
  split; [done|]. split; [done|].
  assert (Hl1 : Zlength (db_data db) <= Zlength (db_data db2)).
  { etrans; [|exact Hl2]. dbs. apply Zlength_write_at_ge. }
  split.
  { etrans; [exact Hl1|]. unfold db_data at 2. cbn [db_f f_data]. apply Zlength_write_at_ge. }
  intros p Hp0 Hp1 Hp2.
  rewrite cell_write_at_other.
  - unfold db_data at 1. cbn [db_f f_data]. fold (db_data db2).
    rewrite Hfr2.
    + dbs. apply cell_write_at_other; [lia|lia|]. left. lia.
    + lia.
    + lia.
    + dbs. pose proof (Zlength_write_at_ge (db_data db) (Z.to_nat start) zs). lia.
  - lia.
  - unfold db_data at 1. cbn [db_f f_data]. fold (db_data db2). lia.
  - right. rewrite Zlength_put_u32. lia.
Qed.

Lemma grow_metas_linked db n : forall k i,
  0 <= i -> i + Z.of_nat k = n ->
  0 <= m_BlockCount (db_meta db) -> m_BlockCount (db_meta db) + n < 2 ^ 32 ->
  grow_metas k i n (db_sizeMeta db + m_BlockCount (db_meta db) * m_BlockSize (db_meta db))
             (m_BlockSize (db_meta db)) (m_BlockCount (db_meta db))
  = linked_blocks db (map (fun j => (m_BlockCount (db_meta db) + j, 0)) (seqZ i (Z.of_nat k))) 0.
Proof.
  induction k as [|k IH]; intros i Hi Hk Hc Hn; [done|].
  rewrite seqZ_cons by lia. cbn [grow_metas map linked_blocks].
  rewrite IH by lia.
  replace (Z.pred (Z.of_nat (S k))) with (Z.of_nat k) by lia.
  replace (Z.succ i) with (i + 1) by lia.
  f_equal. unfold block_pos, u32.
  rewrite !Z.mod_small by lia.
  f_equal; [lia|].
  destruct k as [|k].
  - cbn. destruct (i =? n - 1) eqn:E; [done|lia].
  - rewrite seqZ_cons by lia. cbn [map]. destruct (i =? n - 1) eqn:E; [lia|lia].
Qed.

(** ** Setting the [Next] of the last block *)

Lemma set_last_Next_snoc l b nx : set_last_Next (l ++ [b]) nx = l ++ [setNext b nx].
Proof.
  unfold set_last_Next. destruct (l ++ [b]) eqn:E; [by destruct l|]. rewrite <- E.
  rewrite length_app. cbn [length].
  replace (length l + 1 - 1)%nat with (length l + 0)%nat by lia.
  rewrite lookup_app_r, Nat.add_0_r, Nat.sub_diag by lia. cbn.
  rewrite insert_app_r_alt, Nat.sub_diag by lia. done.
Qed.

Lemma set_last_Next_app l1 l2 nx :
  l2 <> [] -> set_last_Next (l1 ++ l2) nx = l1 ++ set_last_Next l2 nx.
Proof.
  intros Hne. destruct (last l2) as [b|] eqn:E.
  - apply last_Some in E as [l2' ->].
    rewrite app_assoc, !set_last_Next_snoc. by rewrite app_assoc.
  - apply last_None in E. done.
Qed.

Lemma set_last_Next_twice l x y : set_last_Next (set_last_Next l x) y = set_last_Next l y.
Proof.
  destruct (last l) as [b|] eqn:E.
  - apply last_Some in E as [l' ->]. by rewrite !set_last_Next_snoc.
  - apply last_None in E. by subst.
Qed.

Lemma last_set_last_Next l b nx :
  last l = Some b -> last (set_last_Next l nx) = Some (setNext b nx).
Proof.
  intros E. apply last_Some in E as [l' ->]. rewrite set_last_Next_snoc. apply last_snoc.
Qed.

Lemma linked_blocks_app db l1 l2 nx :
  linked_blocks db (l1 ++ l2) nx
  = linked_blocks db l1 (match l2 with [] => nx | (j, _) :: _ => j end)
    ++ linked_blocks db l2 nx.
Proof.
  induction l1 as [|[i e] l1 IH]; [done|].
  cbn [app linked_blocks]. rewrite IH. f_equal.
  destruct l1 as [|[j e'] l1]; done.
Qed.

Lemma taken_linked db : forall fl first k nx,
  chain_on_disk db first fl -> take k fl <> [] ->
  set_last_Next (blocks_of db (take k fl)) nx
  = linked_blocks db (map (fun i => (i, cell (db_data db) (block_pos db i))) (take k fl)) nx.
Proof.
  induction fl as [|i rest IH]; intros first k nx Hch Hne.
  - by destruct k.
  - destruct k as [|k]; [done|]. destruct Hch as (-> & Hn & Hch).
    cbn [take]. destruct (take k rest) as [|j l] eqn:E; [done|].
    assert (Hj : cell (db_data db) (block_pos db i + sizeEnd) = j).
    { destruct rest as [|j' rest']; [by destruct k|].
      destruct k; [done|]. cbn in E. injection E as -> _. by destruct Hch as (-> & _). }
    change (blocks_of db (i :: j :: l)) with ([mkBlockMeta (block_pos db i) i
      (cell (db_data db) (block_pos db i)) (cell (db_data db) (block_pos db i + sizeEnd))]
      ++ blocks_of db (j :: l)).
    rewrite set_last_Next_app by done.
    rewrite <- E, (IH _ k nx Hch) by (by rewrite E).
    rewrite E, Hj. done.
Qed.

Lemma last_blocks_of db l j :
  last l = Some j ->
  last (blocks_of db l)
  = Some (mkBlockMeta (block_pos db j) j (cell (db_data db) (block_pos db j))
                      (cell (db_data db) (block_pos db j + sizeEnd))).
Proof.
  intros E. apply last_Some in E as [l' ->]. unfold blocks_of.
  rewrite map_app. cbn [map]. apply last_snoc.
Qed.

(** ** The two halves of [alloc] *)

Lemma alloc_free_loop_run db fl n first :
  chain_on_disk db first fl ->
  Forall (fun i => 0 <= block_pos db i /\ block_pos db i + 8 <= Zlength (db_data db)) fl ->
  exists pos',
    alloc_free_loop n first db
    = (Ok (blocks_of db (take n fl), nth n fl 0, (n - length fl)%nat),
       with_file db pos' (db_data db)).
Proof.
  intros Hch Hin.
  destruct (alloc_free_loop_spec db fl n first (f_pos (db_f db)) Hch Hin) as [pos' H].
  exists pos'. by rewrite with_file_same in H.
Qed.

Lemma alloc_grow_spec fuel n db o t :
  0 < n -> 0 <= m_BlockSize (db_meta db) -> 0 <= m_BlockCount (db_meta db) ->
  m_BlockCount (db_meta db) + n < 2 ^ 32 ->
  0 <= db_sizeMeta db ->
  last (o_blocks o) = Some t -> 0 <= bm_pos t ->
  let meta := db_meta db in
  let start := db_sizeMeta db + m_BlockCount meta * m_BlockSize meta in
  exists db',
    alloc_grow fuel n (db, o)
    = (Ok tt, (db', mkObject (set_last_Next (o_blocks o) (m_BlockCount meta)
                              ++ grow_metas (Z.to_nat n) 0 n start (m_BlockSize meta)
                                            (m_BlockCount meta))
                             (o_offset o) (o_posBlockIdx o) (o_posBlockOff o)))
    /\ db_meta db' = mkDBMeta (m_Magic meta) (m_Version meta) (m_BlockSize meta)
                              (m_BlockCount meta + n) (m_FirstFreeBlock meta)
    /\ db_sizeMeta db' = db_sizeMeta db
    /\ cell (db_data db') (bm_pos t + sizeEnd) = m_BlockCount meta
    /\ forall p, 16 <= p -> p + 4 <= start -> p + 4 <= Zlength (db_data db) ->
         (p + 4 <= bm_pos t + sizeEnd \/ bm_pos t + 8 <= p) ->
         cell (db_data db') p = cell (db_data db) p.
Proof.
  intros Hn Hb Hc Hov Hs Hlast Hpos meta start. subst meta.
  destruct (BlockDB_grow_spec fuel n db Hn Hb Hc Hs) as (db2 & Hrun & Hm2 & Hs2 & Hl2 & Hfr2).
  fold start in Hrun, Hfr2.
  unfold alloc_grow.
  erewrite run_bind by (apply on_db_eq, Hrun).
  erewrite run_bind by reflexivity. cbn [snd].
  destruct (o_blocks o) as [|b0 bs] eqn:Eb; [done|]. rewrite <- Eb in *.
  destruct (Z.to_nat n) as [|kk] eqn:En; [lia|]. cbn [grow_metas bm_idx].
  assert (Hu : u32 (m_BlockCount (db_meta db) + 0) = m_BlockCount (db_meta db))
    by (rewrite Z.add_0_r; unfold u32; apply Z.mod_small; lia).
  rewrite !Hu.
  set (grown := _ :: grow_metas kk _ _ _ _ _).
  set (tail := setNext t (m_BlockCount (db_meta db))).
  assert (Htail : last (set_last_Next (o_blocks o) (m_BlockCount (db_meta db))) = Some tail)
    by (by apply last_set_last_Next).
  eexists.
  erewrite run_bind; cycle 1.
  { erewrite run_bind by reflexivity. cbn [fst snd]. rewrite Htail.
    apply on_db_eq. apply BlockMeta_WriteNext_eq. cbn [tail setNext bm_pos]. unfold sizeEnd. lia. }
  erewrite run_bind by reflexivity. cbn [fst snd o_blocks o_offset o_posBlockIdx o_posBlockOff].
  split; [reflexivity|].
  cbn [fst snd]. dbs. rewrite Hm2, Hs2. unfold u32. rewrite Z.mod_small by lia.
  split; [done|]. split; [done|].
  cbn [tail setNext bm_pos bm_Next].
  split.
  - replace (bm_pos t + sizeEnd) with (Z.of_nat (Z.to_nat (bm_pos t + sizeEnd))) at 2
      by (unfold sizeEnd; lia).
    rewrite cell_write_at_same. unfold u32. rewrite Z.mod_small by lia. done.
  - intros p Hp0 Hp1 Hp2 Hd.
    rewrite cell_write_at_other; [by apply Hfr2|lia|lia|].
    rewrite Zlength_put_u32. unfold sizeEnd in *. lia.
Qed.

Lemma take_min {A} (l : list A) n : take (Nat.min n (length l)) l = take n l.
Proof.
  destruct (le_lt_dec n (length l)).
  - by rewrite Nat.min_l.
  - rewrite Nat.min_r by lia. by rewrite !take_ge by lia.
Qed.

Lemma nth_min (l : list Z) n : nth (Nat.min n (length l)) l 0 = nth n l 0.
Proof.
  destruct (le_lt_dec n (length l)).
  - by rewrite Nat.min_l.
  - rewrite Nat.min_r by lia. by rewrite !nth_overflow by lia.
Qed.

Lemma free_positions db fl :
  8 <= m_BlockSize (db_meta db) -> 0 <= db_sizeMeta db ->
  db_sizeMeta db + m_BlockCount (db_meta db) * m_BlockSize (db_meta db)
    <= Zlength (db_data db) ->
  Forall (fun i => 0 < i < m_BlockCount (db_meta db)) fl ->
  Forall (fun i => 0 <= block_pos db i /\ block_pos db i + 8 <= Zlength (db_data db)) fl.
Proof.
  intros Hb Hs Hl HF. eapply Forall_impl; [exact HF|]. cbn. intros i Hi. unfold block_pos. nia.
Qed.

Lemma alloc_take_free_nil db o n :
  free_list db [] ->
  exists pos',
    alloc_take_free n (db, o)
    = (Ok (false, Z.of_nat (Z.to_nat n)), (with_file db pos' (db_data db), o)).
Proof.
  intros [Hch _]. unfold alloc_take_free.
  destruct (alloc_free_loop_run db [] (Z.to_nat n) _ Hch ltac:(constructor)) as [pos' Hrun].
  exists pos'.
  erewrite run_bind by reflexivity. cbn [fst].
  erewrite run_bind by (apply on_db_eq, Hrun).
  cbn [fst snd]. rewrite take_nil. cbn [blocks_of map length]. rewrite Nat.sub_0_r. done.
Qed.

Ltac blk := unfold setNext; cbn [bm_pos bm_idx bm_End bm_Next].

Lemma alloc_take_free_cons db o n t i fl :
  8 <= m_BlockSize (db_meta db) -> 0 <= db_sizeMeta db ->
  0 < n -> m_BlockCount (db_meta db) < 2 ^ 32 ->
  db_sizeMeta db + m_BlockCount (db_meta db) * m_BlockSize (db_meta db)
    <= Zlength (db_data db) ->
  free_list db (i :: fl) ->
  last (o_blocks o) = Some t -> 0 <= bm_pos t ->
  let meta := db_meta db in
  let taken := blocks_of db (take (Z.to_nat n) (i :: fl)) in
  let n' := Z.of_nat (Z.to_nat n - length (i :: fl)) in
  exists db',
    alloc_take_free n (db, o)
    = (Ok (n' =? 0, n'),
       (db', mkObject (set_last_Next (o_blocks o) i ++ set_last_Next taken 0)
                      (o_offset o) (o_posBlockIdx o) (o_posBlockOff o)))
    /\ db_meta db' = mkDBMeta (m_Magic meta) (m_Version meta) (m_BlockSize meta)
                              (m_BlockCount meta) (nth (Z.to_nat n) (i :: fl) 0)
    /\ db_sizeMeta db' = db_sizeMeta db
    /\ Zlength (db_data db) <= Zlength (db_data db')
    /\ cell (db_data db') (bm_pos t + sizeEnd) = i.
Proof.
  intros Hb Hs Hn Hc Hl [Hch Hfl] Hlast Hpos meta taken n'. subst meta.
  pose proof (free_positions db _ Hb Hs Hl Hfl) as Hin.
  unfold alloc_take_free.
  destruct (alloc_free_loop_run db _ (Z.to_nat n) _ Hch Hin) as [pos' Hrun].
  erewrite run_bind by reflexivity. cbn [fst].
  erewrite run_bind by (apply on_db_eq, Hrun).
  cbn [fst snd]. fold taken. fold n'.
  destruct (Z.to_nat n) as [|m] eqn:En; [lia|].
  assert (Htk : taken = mkBlockMeta (block_pos db i) i (cell (db_data db) (block_pos db i))
                          (cell (db_data db) (block_pos db i + sizeEnd))
                        :: blocks_of db (take m fl)) by done.
  destruct (last (take (S m) (i :: fl))) as [j|] eqn:Ej; [|by apply last_None in Ej].
  assert (Hj : 0 <= block_pos db j).
  { apply last_Some_elem_of, elem_of_take in Ej as (x & Hx & _).
    rewrite Forall_lookup in Hin. by destruct (Hin _ _ Hx). }
  pose proof (last_blocks_of db _ j Ej) as Hlt. fold taken in Hlt.
  clearbody taken n'. destruct taken as [|first rest]; [discriminate|].
  assert (Hfirst : bm_idx first = i) by (by injection Htk as -> _).
  clear Htk.
  erewrite run_bind by reflexivity.
  erewrite run_bind by reflexivity.
  erewrite run_bind by (apply on_db_eq, DBMeta_WriteFirstFreeBlock_eq).
  rewrite (last_set_last_Next _ _ 0 Hlt). blk.
  erewrite run_bind by (apply on_db_eq, dbf_Seek_eq; blk; done).
  erewrite run_bind by (apply on_db_eq, BlockMeta_WriteNext_eq; blk; unfold sizeEnd; lia).
  erewrite run_bind by reflexivity.
  erewrite run_bind by reflexivity.
  cbn [fst snd o_blocks o_offset o_posBlockIdx o_posBlockOff].
  rewrite Hfirst.
  rewrite (last_set_last_Next _ _ i Hlast). blk.
  erewrite run_bind by (apply on_db_eq, dbf_Seek_eq; blk; done).
  erewrite run_bind by (apply on_db_eq, BlockMeta_WriteNext_eq; blk; unfold sizeEnd; lia).
  erewrite run_bind by reflexivity.
  eexists. split; [reflexivity|]. cbn [fst snd]. blk.
  dbs. split; [done|]. split; [done|]. split.
  - etrans; [|apply Zlength_write_at_ge]. etrans; [|apply Zlength_write_at_ge].
    dbs. apply Zlength_write_at_ge.
  - replace (bm_pos t + sizeEnd) with (Z.of_nat (Z.to_nat (bm_pos t + sizeEnd))) at 2
      by (unfold sizeEnd; lia).
    rewrite cell_write_at_same. unfold u32. apply Z.mod_small.
    inversion Hfl; subst. lia.
Qed.

Lemma Object_alloc_spec fuel db o fl n t :
  8 <= m_BlockSize (db_meta db) -> 20 <= db_sizeMeta db ->
  0 <= m_BlockCount (db_meta db) -> 0 < n -> m_BlockCount (db_meta db) + n < 2 ^ 32 ->
  db_sizeMeta db + m_BlockCount (db_meta db) * m_BlockSize (db_meta db)
    <= Zlength (db_data db) ->
  free_list db fl ->
  last (o_blocks o) = Some t -> bm_pos t = block_pos db (bm_idx t) ->
  0 <= bm_idx t < m_BlockCount (db_meta db) -> bm_idx t ∉ fl ->
  let meta := db_meta db in
  let k := Nat.min (Z.to_nat n) (length fl) in
  exists db',
    Object_alloc fuel n (db, o)
    = (Ok tt, (db', mkObject (set_last_Next (o_blocks o) (first_new db fl)
                              ++ new_blocks db fl n)
                             (o_offset o) (o_posBlockIdx o) (o_posBlockOff o)))
    /\ db_sizeMeta db' = db_sizeMeta db
    /\ db_meta db' = mkDBMeta (m_Magic meta) (m_Version meta) (m_BlockSize meta)
                              (m_BlockCount meta + (n - Z.of_nat k)) (nth k fl 0)
    /\ cell (db_data db') (bm_pos t + sizeEnd) = first_new db fl.
Proof.
  intros Hb Hs Hc Hn Hov Hl Hfree Hlast Hpos Hidx Hnotin meta k. subst meta.
  assert (Hpt : 20 <= bm_pos t) by (rewrite Hpos; unfold block_pos; nia).
  unfold Object_alloc, new_blocks. fold k.
  destruct fl as [|i fl].
  - (* nothing is free: all blocks are new *)
    destruct (alloc_take_free_nil db o n Hfree) as [pos' Hrun].
    erewrite run_bind by exact Hrun. cbn [fst snd]. rewrite Z2Nat.id by lia.
    destruct (alloc_grow_spec fuel n (with_file db pos' (db_data db)) o t)
      as (db' & Hg & Hm & Hs' & Hcell & _); dbs; try lia; try done.
    revert Hg Hm Hs' Hcell. dbs. intros Hg Hm Hs' Hcell.
    exists db'. subst k. cbn [length take map app first_new]. rewrite Nat.min_0_r.
    destruct Hfree as [Hch _]. cbn in Hch.
    split; [|split; [done|split; [|done]]].
    + rewrite Hg. rewrite (grow_metas_linked db n) by lia.
      rewrite Z2Nat.id, Z.sub_0_r by lia. done.
    + rewrite Hm, Hch. cbn [nth]. do 2 f_equal. lia.
  - (* some blocks come from the free list *)
    destruct (alloc_take_free_cons db o n t i fl) as (db1 & Hrun & Hm1 & Hs1 & Hl1 & Hc1);
      try lia; try done.
    assert (Hne : take (Z.to_nat n) (i :: fl) <> []).
    { destruct (Z.to_nat n) eqn:E; [lia|done]. }
    destruct Hfree as [Hch Hfl].
    erewrite run_bind by exact Hrun. cbn [fst snd first_new].
    assert (Hk : take k (i :: fl) = take (Z.to_nat n) (i :: fl)) by apply take_min.
    assert (Hnk : Z.of_nat (Z.to_nat n - length (i :: fl)) = n - Z.of_nat k) by (subst k; lia).
    assert (Hnth : nth (Z.to_nat n) (i :: fl) 0 = nth k (i :: fl) 0)
      by (symmetry; apply nth_min).
    rewrite Hnk, Hk. rewrite Hnth in Hm1.
    destruct (n - Z.of_nat k =? 0) eqn:Ed.
    + (* enough free blocks *)
      exists db1. apply Z.eqb_eq in Ed. rewrite Ed in *.
      split; [|split; [done|split; [|done]]].
      * cbn [seqZ map]. rewrite app_nil_r.
        by rewrite (taken_linked db _ _ _ 0 Hch Hne).
      * rewrite Hm1. do 2 f_equal. lia.
    + (* the free list runs out: the rest is new *)
      apply Z.eqb_neq in Ed.
      destruct (last (take (Z.to_nat n) (i :: fl))) as [j|] eqn:Ej; [|by apply last_None in Ej].
      assert (Hjin : j ∈ i :: fl).
      { apply last_Some_elem_of, elem_of_take in Ej as (x & Hx & _).
        by eapply list_elem_of_lookup_2. }
      assert (Hjr : 0 < j < m_BlockCount (db_meta db))
        by (rewrite Forall_forall in Hfl; by apply Hfl).
      assert (Hjt : j <> bm_idx t) by (intros ->; done).
      pose proof (last_blocks_of db _ j Ej) as Hlt.
      pose proof (last_set_last_Next _ _ 0 Hlt) as Hlt0.
      set (t1 := setNext _ 0) in Hlt0.
      set (o1 := mkObject _ _ _ _) in Hrun |- *.
      assert (Hlast1 : last (o_blocks o1) = Some t1).
      { subst o1. cbn [o_blocks]. by rewrite last_app, Hlt0. }
      destruct (alloc_grow_spec fuel (n - Z.of_nat k) db1 o1 t1)
        as (db' & Hg & Hm & Hs' & Hcell & Hfr); rewrite ?Hm1, ?Hs1; cbn [m_BlockSize m_BlockCount];
        try lia; try done.
      { subst t1. blk. unfold block_pos. nia. }
      revert Hg Hm Hfr. rewrite ?Hm1, ?Hs1. cbn [m_BlockSize m_BlockCount m_Magic m_Version m_FirstFreeBlock].
      intros Hg Hm Hfr.
      exists db'.
      split; [|split; [lia|split; [done|]]].
      * rewrite Hg. subst o1. cbn [o_blocks o_offset o_posBlockIdx o_posBlockOff].
        f_equal. f_equal.
        rewrite set_last_Next_app by (intros E; rewrite E in Hlt0; done).
        rewrite set_last_Next_twice, <- app_assoc. f_equal.
        rewrite (taken_linked db _ _ _ _ Hch Hne).
        rewrite (grow_metas_linked db (n - Z.of_nat k)) by lia.
        rewrite linked_blocks_app. rewrite Z2Nat.id by lia.
        rewrite (seqZ_cons 0) by lia. cbn [map]. rewrite Z.add_0_r. done.
      * rewrite Hfr, Hc1; [done| | | |].
        -- unfold sizeEnd. lia.
        -- rewrite Hpos. unfold sizeEnd, block_pos. nia.
        -- rewrite Hpos. unfold sizeEnd, block_pos.
           assert (db_sizeMeta db + bm_idx t * m_BlockSize (db_meta db) + 8
                   <= Zlength (db_data db)) by nia.
           lia.
        -- subst t1. blk. rewrite Hpos. unfold sizeEnd, block_pos.
           destruct (Z.lt_total j (bm_idx t)) as [Hlt'|[Heq|Hgt]]; [right; nia|done|left; nia].
Qed.

Lemma run_try {St A} (m : M St A) s r s' : m s = (r, s') -> try m s = (Ok r, s').
Proof. intros Hm. unfold try. by rewrite Hm. Qed.

Lemma dbf_rws_Write_eq db bs :
  on_dbf (rws_Write bs) db
  = (Ok (length bs, None),
     with_file db (f_pos (db_f db) + Zlength bs)
       (write_at (db_data db) (Z.to_nat (f_pos (db_f db))) bs)).
Proof. done. Qed.

Lemma write_once_fill fuel db o t p :
  MinimumBlockSize <= m_BlockSize (db_meta db) < 2 ^ 32 ->
  0 <= o_posBlockIdx o -> o_blocks o !! Z.to_nat (o_posBlockIdx o) = Some t ->
  0 <= bm_pos t -> bm_Next t = 0 -> 0 <= bm_End t <= payload_cap db ->
  0 <= o_posBlockOff o <= payload_cap db ->
  let n := payload_cap db - o_posBlockOff o in
  n < Zlength p ->
  let t' := mkBlockMeta (bm_pos t) (bm_idx t) (payload_cap db) 0 in
  let o2 := mkObject (<[Z.to_nat (o_posBlockIdx o) := t']> (o_blocks o))
                     (o_offset o + n) (o_posBlockIdx o) (payload_cap db) in
  exists db2,
    Object_write_once fuel p (db, o)
    = (match Object_alloc fuel (newBlocks_for db (Zlength p - n)) (db2, o2) with
       | (Ok _, (dbA, oA)) =>
           (Ok (Z.to_nat n, WAgain (drop (Z.to_nat n) p)),
            (dbA, mkObject (o_blocks oA) (o_offset oA) (o_posBlockIdx oA + 1) 0))
       | (Err e, s) => (Ok (Z.to_nat n, WReturn (Some e)), s)
       | (OutOfFuel, s) => (OutOfFuel, s)
       end)
    /\ db_meta db2 = db_meta db /\ db_sizeMeta db2 = db_sizeMeta db
    /\ Zlength (db_data db) <= Zlength (db_data db2)
    /\ forall q, 0 <= q -> q + 4 <= Zlength (db_data db) ->
         (q + 4 <= bm_pos t \/ bm_pos t + m_BlockSize (db_meta db) <= q) ->
         cell (db_data db2) q = cell (db_data db) q.
Proof.
  change MinimumBlockSize with 9.
  intros Hb Hi Hlk Hpos Hnx He Hoff n Hp t' o2.
  assert (Hcap : payload_cap db = m_BlockSize (db_meta db) - 8).
  { unfold payload_cap, BlockMeta_Size, sizeEnd, sizeNext, u32.
    rewrite (Z.mod_small (4 + 4)) by lia. apply Z.mod_small. lia. }
  assert (Hcw : u32 (payload_cap db - o_posBlockOff o) = n)
    by (unfold u32; apply Z.mod_small; lia).
  set (bs := take (Z.to_nat n) p).
  assert (Hlen : length bs = Z.to_nat n).
  { subst bs. rewrite length_take. unfold Zlength in Hp. lia. }
  assert (Hoff' : u32 (o_posBlockOff o + Z.of_nat (length bs)) = payload_cap db).
  { rewrite Hlen. unfold u32. rewrite Z.mod_small by lia. lia. }
  unfold Object_write_once.
  erewrite run_bind by reflexivity. cbn [fst snd].
  erewrite run_bind by (by apply block_at_Some).
  rewrite Hcw. destruct (Zlength p <? n) eqn:E; [lia|]. clear E. fold bs.
  erewrite run_bind
    by (apply run_try, on_db_eq, dbf_Seek_eq; unfold BlockMeta_Size, sizeEnd, sizeNext; lia).
  cbv beta iota.
  erewrite run_bind by (apply on_db_eq, dbf_rws_Write_eq).
  cbn [fst snd]. rewrite Hoff', Hlen. dbs.
  set (pw := bm_pos t + BlockMeta_Size + o_posBlockOff o).
  set (data1 := write_at (db_data db) (Z.to_nat pw) bs).
  assert (Hdrop : (length (drop (Z.to_nat n) p) =? 0)%nat = false).
  { apply Nat.eqb_neq. rewrite length_drop. unfold Zlength in Hp. lia. }
  assert (Hfr1 : forall q, 0 <= q -> q + 4 <= Zlength (db_data db) ->
            (q + 4 <= bm_pos t \/ bm_pos t + m_BlockSize (db_meta db) <= q) ->
            cell data1 q = cell (db_data db) q).
  { intros q Hq0 Hq1 Hq2. apply cell_write_at_other; [done|done|].
    unfold Zlength. rewrite Hlen. subst pw. unfold BlockMeta_Size, sizeEnd, sizeNext. lia. }
  assert (Hrem : Zlength (drop (Z.to_nat n) p) = Zlength p - n).
  { unfold Zlength in *. rewrite length_drop. lia. }
  rewrite Hrem.
  replace (Z.of_nat (Z.to_nat n)) with n by lia.
  destruct (bm_End t <? payload_cap db) eqn:Eg.
  - (* the block grows: its [End] is written *)
    erewrite run_bind by reflexivity.
    erewrite run_bind by (apply run_try, on_db_eq, BlockMeta_WriteEnd_eq; done).
    rewrite Hdrop, Z.eqb_refl. cbn [bm_Next bm_pos bm_End]. rewrite Hnx. cbn [Z.eqb].
    dbs. fold data1.
    unfold mbind, M_bind, bind, try. cbn [fst snd].
    match goal with |- context [Object_alloc _ _ (?d, _)] => exists d end. split.
    { unfold mbind, M_bind, bind, try. fold t'. unfold o2, n.
      match goal with |- context [Object_alloc ?f ?a ?s] => destruct (Object_alloc f a s) as [[?|?|] [? ?]] end;
        reflexivity. }
    dbs. split; [done|]. split; [done|]. split.
    { etrans; [|apply Zlength_write_at_ge]. apply Zlength_write_at_ge. }
    intros q Hq0 Hq1 Hq2. rewrite cell_write_at_other; [by apply Hfr1|done| |].
    + pose proof (Zlength_write_at_ge (db_data db) (Z.to_nat pw) bs). fold data1 in H. lia.
    + rewrite Zlength_put_u32. lia.
  - (* the block was full already *)
    erewrite run_bind by reflexivity.
    erewrite run_bind by reflexivity.
    rewrite Hdrop, Z.eqb_refl. rewrite Hnx. cbn [Z.eqb].
    assert (Ht : t = t') by (subst t'; destruct t; cbn in *; f_equal; lia).
    rewrite Ht.
    unfold mbind, M_bind, bind, try. cbn [fst snd].
    match goal with |- context [Object_alloc _ _ (?d, _)] => exists d end. split.
    { unfold mbind, M_bind, bind, try. unfold o2, n. cbn [fst snd].
      match goal with |- context [Object_alloc ?f ?a ?s] => destruct (Object_alloc f a s) as [[?|?|] [? ?]] end;
        reflexivity. }
    dbs. split; [done|]. split; [done|]. split; [apply Zlength_write_at_ge|].
    done.
Qed.

(** ** The blocks an allocation appends *)

Lemma linked_blocks_same_pos db db2 l nx :
  db_sizeMeta db2 = db_sizeMeta db ->
  m_BlockSize (db_meta db2) = m_BlockSize (db_meta db) ->
  linked_blocks db2 l nx = linked_blocks db l nx.
Proof.
  intros Hs Hb. induction l as [|[i e] l IH]; [done|].
  cbn [linked_blocks]. rewrite IH. unfold block_pos. by rewrite Hs, Hb.
Qed.

Lemma new_blocks_frame db db2 fl n :
  db_meta db2 = db_meta db -> db_sizeMeta db2 = db_sizeMeta db ->
  Forall (fun i => cell (db_data db2) (block_pos db i) = cell (db_data db) (block_pos db i)) fl ->
  new_blocks db2 fl n = new_blocks db fl n.
Proof.
  intros Hm Hs Hc. unfold new_blocks.
  rewrite (linked_blocks_same_pos db db2) by (by rewrite ?Hm).
  rewrite Hm. f_equal. f_equal.
  apply (Forall_take _ (Nat.min (Z.to_nat n) (length fl))) in Hc.
  induction Hc as [|i l Hi _ IH]; [done|].
  cbn [map]. rewrite IH. f_equal. f_equal.
  replace (block_pos db2 i) with (block_pos db i); [done|].
  unfold block_pos. by rewrite Hs, Hm.
Qed.

Lemma length_linked_blocks db l nx : length (linked_blocks db l nx) = length l.
Proof. induction l as [|[i e] l IH]; [done|]. cbn. by rewrite IH. Qed.

Lemma idx_linked_blocks db l nx : map bm_idx (linked_blocks db l nx) = map fst l.
Proof. induction l as [|[i e] l IH]; [done|]. cbn. by rewrite IH. Qed.

Lemma length_new_blocks db fl n : 0 <= n -> length (new_blocks db fl n) = Z.to_nat n.
Proof.
  intros Hn. unfold new_blocks.
  rewrite length_linked_blocks, length_app, !length_map, length_take, length_seqZ. lia.
Qed.

Lemma idx_new_blocks db fl n :
  let k := Nat.min (Z.to_nat n) (length fl) in
  map bm_idx (new_blocks db fl n)
  = take k fl ++ map (fun j => m_BlockCount (db_meta db) + j) (seqZ 0 (n - Z.of_nat k)).
Proof.
  intros k. unfold new_blocks. fold k.
  rewrite idx_linked_blocks, map_app, !map_map. cbn [fst].
  by rewrite map_id.
Qed.

Lemma newBlocks_for_floor db rem :
  0 < m_BlockSize (db_meta db) -> 0 <= rem -> rem / m_BlockSize (db_meta db) < 2 ^ 32 ->
  newBlocks_for db rem = Z.max 1 (rem / m_BlockSize (db_meta db)).
Proof.
  intros Hb Hr Hlt. unfold newBlocks_for, u32.
  assert (0 <= rem / m_BlockSize (db_meta db)) by (apply Z.div_pos; lia).
  rewrite Z.mod_small by lia.
  destruct (rem / m_BlockSize (db_meta db) =? 0) eqn:E; lia.
Qed.

(** C5 (amended): when [write] fills the tail block of an object (its
    [Next] is 0) and [rem] > 0 input bytes remain, the call allocates exactly
    [max 1 (rem / BlockSize)] blocks, the quotient rounded down: the first
    [k] blocks of the free list in order, then new blocks numbered from
    [BlockCount] at the end of the file; they are linked one after the
    other and appended after the old tail, whose [Next] is the first new
    block both in the object and on disk; the header's free list and block
    count are advanced, and the call goes on with the rest of the input at
    the start of the next block. *)
Theorem write_allocates_blocks fuel db o t fl p :
  let BS := m_BlockSize (db_meta db) in
  let BC := m_BlockCount (db_meta db) in
  let cap := payload_cap db in
  let n := cap - o_posBlockOff o in
  let rem := Zlength p - n in
  let N := Z.max 1 (rem / BS) in
  let k := Nat.min (Z.to_nat N) (length fl) in
  MinimumBlockSize <= BS < 2 ^ 32 -> 20 <= db_sizeMeta db ->
  0 <= BC -> BC + N < 2 ^ 32 ->
  db_sizeMeta db + BC * BS <= Zlength (db_data db) ->
  free_list db fl -> bm_idx t ∉ fl ->
  last (o_blocks o) = Some t -> o_posBlockIdx o = Zlength (o_blocks o) - 1 ->
  bm_pos t = block_pos db (bm_idx t) -> 0 <= bm_idx t < BC ->
  bm_Next t = 0 -> 0 <= bm_End t <= cap ->
  0 <= o_posBlockOff o <= cap -> 0 < rem ->
  exists db',
    Object_write_once fuel p (db, o)
    = (Ok (Z.to_nat n, WAgain (drop (Z.to_nat n) p)),
       (db', mkObject (<[Z.to_nat (o_posBlockIdx o) :=
                          mkBlockMeta (bm_pos t) (bm_idx t) cap (first_new db fl)]> (o_blocks o)
                       ++ new_blocks db fl N)
                      (o_offset o + n) (o_posBlockIdx o + 1) 0))
    /\ newBlocks_for db rem = N
    /\ length (new_blocks db fl N) = Z.to_nat N
    /\ map bm_idx (new_blocks db fl N)
       = take k fl ++ map (fun j => BC + j) (seqZ 0 (N - Z.of_nat k))
    /\ m_FirstFreeBlock (db_meta db') = nth k fl 0
    /\ m_BlockCount (db_meta db') = BC + (N - Z.of_nat k)
    /\ cell (db_data db') (bm_pos t + sizeEnd) = first_new db fl.
Proof.
  change MinimumBlockSize with 9.
  intros BS BC cap n rem N k Hb Hs Hc Hov Hl Hfree Hnotin Hlast Hidx Hpos Hti Hnx He Hoff Hrem.
  assert (Hcap : cap = BS - 8).
  { subst cap BS. unfold payload_cap, BlockMeta_Size, sizeEnd, sizeNext, u32.
    rewrite (Z.mod_small (4 + 4)) by lia. apply Z.mod_small. lia. }
  assert (HN : newBlocks_for db rem = N).
  { apply newBlocks_for_floor; fold BS; [lia|lia|]. subst N. lia. }
  destruct (proj1 (last_Some _ _) Hlast) as [l0 Hbl].
  assert (Hix : Z.to_nat (o_posBlockIdx o) = length l0).
  { rewrite Hidx, Hbl. unfold Zlength. rewrite length_app. cbn. lia. }
  assert (Hlk : o_blocks o !! Z.to_nat (o_posBlockIdx o) = Some t).
  { rewrite Hix, Hbl. by rewrite lookup_app_r, Nat.sub_diag by lia. }
  assert (Hpt : 20 <= bm_pos t) by (rewrite Hpos; unfold block_pos; fold BS; nia).
  destruct (write_once_fill fuel db o t p) as (db2 & Hrun & Hm2 & Hs2 & Hl2 & Hfr2);
    try done; fold cap; fold n; try lia.
  { rewrite Hidx, Hbl. unfold Zlength. rewrite length_app. cbn. lia. }
  fold cap n rem in Hrun. rewrite HN in Hrun. fold BS in Hfr2.
  set (t' := mkBlockMeta (bm_pos t) (bm_idx t) cap 0) in Hrun.
  set (o2 := mkObject _ _ _ _) in Hrun.
  (* the free list and the headers of its blocks are as before *)
  destruct Hfree as [Hch Hfl].
  assert (Hcells : forall i d, i ∈ fl -> 0 <= d <= 4 ->
            cell (db_data db2) (block_pos db i + d) = cell (db_data db) (block_pos db i + d)).
  { intros i d Hin Hd. rewrite Forall_forall in Hfl. specialize (Hfl i Hin). fold BC in Hfl.
    assert (i <> bm_idx t) by (intros ->; done).
    apply Hfr2; rewrite ?Hpos; unfold block_pos; fold BS; fold BC; [nia|nia|].
    destruct (Z.lt_total i (bm_idx t)) as [Hlt|[Heq|Hgt]]; [left; nia|done|right; nia]. }
  assert (Hfree2 : free_list db2 fl).
  { split; rewrite Hm2; [|done].
    apply (chain_on_disk_frame db); [done|by rewrite Hm2| |done].
    apply Forall_forall. intros i Hin. apply Hcells; [done|unfold sizeEnd; lia]. }
  assert (Hnew : new_blocks db2 fl N = new_blocks db fl N).
  { apply new_blocks_frame; [done|done|].
    apply Forall_forall. intros i Hin.
    rewrite <- (Z.add_0_r (block_pos db i)). apply Hcells; [done|lia]. }
  assert (Hlast2 : last (o_blocks o2) = Some t').
  { subst o2. cbn [o_blocks]. rewrite Hix, Hbl.
    rewrite insert_app_r_alt, Nat.sub_diag by lia. cbn. apply last_snoc. }
  destruct (Object_alloc_spec fuel db2 o2 fl N t') as (db' & Hal & Hs' & Hm' & Hcell);
    rewrite ?Hm2, ?Hs2; fold BS; fold BC; try done; try lia.
  { subst t'. cbn [bm_pos bm_idx]. rewrite Hpos. unfold block_pos. by rewrite Hs2, Hm2. }
  rewrite Hal in Hrun. clear Hal.
  revert Hm'. rewrite Hm2. fold BC. fold k. intros Hm'.
  exists db'. split; [|split; [done|split; [|split; [|split; [|split]]]]].
  - rewrite Hrun. f_equal. f_equal.
    subst o2. cbn [o_blocks o_offset o_posBlockIdx o_posBlockOff].
    rewrite Hnew. f_equal. f_equal.
    replace (first_new db2 fl) with (first_new db fl) by (unfold first_new; by rewrite Hm2).
    rewrite Hix, Hbl. rewrite !insert_app_r_alt, Nat.sub_diag by lia. cbn [insert list_insert].
    by rewrite set_last_Next_snoc.
  - apply length_new_blocks. lia.
  - apply idx_new_blocks.
  - by rewrite Hm'.
  - by rewrite Hm'.
  - replace (first_new db fl) with (first_new db2 fl) by (unfold first_new; by rewrite Hm2).
    exact Hcell.
Qed.

Lemma write_allocates_blocks_witness :
  free_list free_db [3]
  /\ exists db',
    Object_write_once 0 (repeat "x"%byte 48) (free_db, one_block)
    = (Ok (8%nat, WAgain (repeat "x"%byte 40)),
       (db', mkObject [mkBlockMeta 36 1 8 3; mkBlockMeta 68 3 0 8; mkBlockMeta 148 8 0 0]
                      8 1 0))
    /\ newBlocks_for free_db 40 = 2
    /\ m_FirstFreeBlock (db_meta db') = 0
    /\ m_BlockCount (db_meta db') = 9
    /\ cell (db_data db') 40 = 3.
Proof.
  assert (Hfree : free_list free_db [3]).
  { split; [|repeat constructor].
    vm_compute. split; [done|]. split; [discriminate|done]. }
  split; [exact Hfree|].
  destruct (write_allocates_blocks 0 free_db one_block (mkBlockMeta 36 1 0 0) [3]
              (repeat "x"%byte 48))
    as (db' & Hrun & HN & _ & _ & Hff & Hbc & Hcell).
  - vm_compute. split; [discriminate|done].
  - vm_compute. discriminate.
  - vm_compute. discriminate.
  - vm_compute. done.
  - vm_compute. discriminate.
  - exact Hfree.
  - rewrite list_elem_of_singleton. discriminate.
  - done.
  - done.
  - done.
  - vm_compute. split; [discriminate|done].
  - done.
  - vm_compute. split; discriminate.
  - vm_compute. split; discriminate.
  - vm_compute. done.
  - exists db'. split; [exact Hrun|]. split; [exact HN|]. split; [exact Hff|].
    split; [exact Hbc|exact Hcell].
Defined.

(** C5 (counterexample): on a new object in a file of 16-byte blocks, a
    write of 28 bytes fills the only block with 8 of them; 20 bytes remain
    and the block's [Next] is 0.  [ceil(20 / 16)] is 2, the call appends one
    block. *)
Lemma write_allocates_one_where_two_fit :
  match small_block_object 50 with
  | Some s =>
      let '(r, s') := Object_write_once 50 (repeat "x"%byte 28) s in
      r = Ok (8%nat, WAgain (repeat "x"%byte 20))
      /\ bm_Next <$> last (o_blocks (snd s)) = Some 0
      /\ blocks_by_spec (fst s) 20 = 2
      /\ (length (o_blocks (snd s')) - length (o_blocks (snd s)) = 1)%nat
  | None => False
  end.
Proof. vm_compute. repeat split. Qed.

(* ===================================================================== *)
(** * The chunk pool over the in-memory stream *)
(* ===================================================================== *)
(** ** The stream *)

Ltac zb :=
  repeat match goal with
  | H : (_ <? _) = true |- _ => apply Z.ltb_lt in H
  | H : (_ <? _) = false |- _ => apply Z.ltb_ge in H
  | H : (_ <=? _) = true |- _ => apply Z.leb_le in H
  | H : (_ <=? _) = false |- _ => apply Z.leb_gt in H
  | H : (_ =? _) = true |- _ => apply Z.eqb_eq in H
  | H : (_ =? _) = false |- _ => apply Z.eqb_neq in H
  end.

Lemma f_Seek_start fuel (s : PSt) off :
  0 <= off -> f_Seek fuel off SeekStart s = (Ok off, set_stream s off (pbytes s)).
Proof.
  intros Ho. destruct s as [[] [[pos b] ch fr od]].
  unfold f_Seek, on_f. cbn. unfold readWriteSeeker_Seek. cbn.
  change (SeekStart =? 0) with true. cbn.
  destruct (off <? 0) eqn:E; [lia|]. done.
Qed.

Lemma f_Seek_end fuel (s : PSt) :
  f_Seek fuel 0 SeekEnd s = (Ok (plen s), set_stream s (plen s) (pbytes s)).
Proof.
  destruct s as [[] [[pos b] ch fr od]].
  unfold f_Seek, on_f. cbn. unfold readWriteSeeker_Seek. cbn.
  change (SeekEnd =? 0) with false. change (SeekEnd =? 1) with false.
  change (SeekEnd =? 2) with true. cbn. unfold plen, pbytes. cbn.
  rewrite Z.add_0_r.
  destruct (Zlength b <? 0) eqn:E; [zb; unfold Zlength in E; lia|]. done.
Qed.

Lemma write_at_inside (b : list byte) pos p :
  (pos <= length b)%nat ->
  write_at b pos p
  = take pos b ++ p ++ drop (pos + length p) b.
Proof.
  intros Hp. unfold write_at.
  replace (pos - length b)%nat with 0%nat by lia. cbn. by rewrite app_nil_r.
Qed.

Lemma f_Write_eq (s : PSt) p :
  0 <= rws_pos (p_f (snd s)) <= plen s ->
  f_Write p s
  = (Ok tt, set_stream s (rws_pos (p_f (snd s)) + Zlength p)
              (write_at (pbytes s) (Z.to_nat (rws_pos (p_f (snd s)))) p)).
Proof.
  destruct s as [[] [[pos b] ch fr od]]. unfold plen, pbytes. cbn [snd p_f rws_pos rws_b].
  intros Hp. unfold f_Write, on_f, s_Write.
  cbv beta iota delta [mbind M_bind bind mret M_ret ret rws_Write readWriteSeeker_rws].
  cbn [snd fst p_f]. unfold readWriteSeeker_Write. cbn [rws_pos rws_b].
  unfold Zlength in *.
  rewrite write_at_inside by lia.
  destruct (Z.of_nat (length b) <? pos + Z.of_nat (length p)) eqn:E; zb.
  - destruct (Z.of_nat (length b) - pos <? 0) eqn:E2; zb; [lia|].
    cbn. unfold set_stream. cbn. do 4 f_equal.
    replace (Z.to_nat pos + Z.to_nat (Z.of_nat (length b) - pos))%nat with (length b) by lia.
    rewrite drop_all. rewrite (drop_ge b) by lia.
    cbn. by rewrite take_drop, app_nil_r.
  - destruct (Z.of_nat (length p) <? 0) eqn:E2; zb; [lia|].
    cbn. unfold set_stream. cbn. do 4 f_equal.
    rewrite Nat2Z.id. rewrite (take_ge p), (drop_ge p) by lia. by rewrite app_nil_r.
Qed.

Lemma f_Read_eq (s : PSt) n :
  0 <= rws_pos (p_f (snd s)) -> (0 < n)%nat ->
  rws_pos (p_f (snd s)) + Z.of_nat n <= plen s ->
  on_f (s_Read n) s
  = (Ok (take n (drop (Z.to_nat (rws_pos (p_f (snd s)))) (pbytes s)), None),
     set_stream s (rws_pos (p_f (snd s)) + Z.of_nat n) (pbytes s)).
Proof.
  destruct s as [[] [[pos b] ch fr od]]. unfold plen, pbytes. cbn [snd p_f rws_pos rws_b].
  intros Hp Hn Hl. unfold on_f, s_Read.
  cbv beta iota delta [rws_Read readWriteSeeker_rws].
  cbn [snd fst p_f]. unfold readWriteSeeker_Read. cbn [rws_pos rws_b].
  unfold Zlength in *.
  destruct (pos <? 0) eqn:E1; zb; [lia|].
  destruct (Z.of_nat (length b) <=? pos) eqn:E2; zb; [lia|].
  assert (Hlen : length (take n (drop (Z.to_nat pos) b)) = n).
  { rewrite length_take, length_drop. lia. }
  rewrite Hlen. rewrite Nat.ltb_irrefl. done.
Qed.

(** ** Bytes written in place *)

Lemma write_at_app (X : list byte) pos A B :
  (pos <= length X)%nat ->
  write_at (write_at X pos A) (pos + length A) B = write_at X pos (A ++ B).
Proof.
  intros Hp.
  rewrite (write_at_inside X pos A) by lia.
  rewrite write_at_inside by (rewrite !length_app, length_take, length_drop; lia).
  rewrite (write_at_inside X pos (A ++ B)) by lia.
  assert (Ht : length (take pos X) = pos) by (rewrite length_take; lia).
  rewrite (app_assoc (take pos X) A).
  rewrite take_app_length' by (rewrite length_app; lia).
  rewrite (drop_app_add' _ _ (pos + length A)) by (rewrite length_app; lia).
  rewrite drop_drop. rewrite length_app, <- !app_assoc.
  do 3 f_equal. f_equal. lia.
Qed.

Lemma agree_outside_refl a b X : agree_outside a b X X.
Proof. by intros j Hj. Qed.

Lemma agree_outside_trans a b X Y Z0 :
  agree_outside a b X Y -> agree_outside a b Y Z0 -> agree_outside a b X Z0.
Proof. intros H1 H2 j Hj. by rewrite H1, H2. Qed.

Lemma agree_outside_write_at a b (X : list byte) pos bs :
  a <= Z.of_nat pos -> Z.of_nat pos + Zlength bs <= b ->
  Z.of_nat pos <= Zlength X ->
  agree_outside a b (write_at X pos bs) X.
Proof.
  unfold Zlength. intros Ha Hb Hl j Hj.
  destruct (decide (j < length X)%nat) as [Hjl|Hjl].
  - apply write_at_lookup_other; lia.
  - rewrite !lookup_ge_None_2; [done|lia|rewrite length_write_at; lia].
Qed.

Lemma agree_outside_take_drop a b X Y p n :
  agree_outside a b X Y ->
  (Z.of_nat p + Z.of_nat n <= a \/ b <= Z.of_nat p) ->
  take n (drop p X) = take n (drop p Y).
Proof.
  intros H Hd. apply list_eq. intros i.
  destruct (decide (i < n)%nat) as [Hi|Hi].
  - rewrite !lookup_take_lt, !lookup_drop by done. apply H. lia.
  - by rewrite !lookup_take_ge by lia.
Qed.

Lemma take_drop_write_at (X : list byte) pos bs :
  take (length bs) (drop pos (write_at X pos bs)) = bs.
Proof.
  apply list_eq. intros i.
  destruct (decide (i < length bs)%nat) as [Hi|Hi].
  - rewrite lookup_take_lt, lookup_drop by done. by apply write_at_lookup_in.
  - rewrite lookup_take_ge by lia. symmetry. apply lookup_ge_None_2. lia.
Qed.

Lemma length_header_bytes c : length (header_bytes c) = 9%nat.
Proof. done. Qed.

Lemma Zlength_app {A} (l1 l2 : list A) : Zlength (l1 ++ l2) = Zlength l1 + Zlength l2.
Proof. unfold Zlength. rewrite length_app. lia. Qed.

Lemma Zlength_write_at_in (X : list byte) pos bs :
  Z.of_nat pos + Zlength bs <= Zlength X -> Zlength (write_at X pos bs) = Zlength X.
Proof. unfold Zlength. rewrite length_write_at. lia. Qed.

(** ** The header of a chunk *)

Lemma plen_set_stream s pos b : plen (set_stream s pos b) = Zlength b.
Proof. done. Qed.

Lemma pbytes_set_stream s pos b : pbytes (set_stream s pos b) = b.
Proof. done. Qed.

Lemma pos_set_stream s pos b : rws_pos (p_f (snd (set_stream s pos b))) = pos.
Proof. done. Qed.

Lemma set_stream_twice s pos b pos' b' :
  set_stream (set_stream s pos b) pos' b' = set_stream s pos' b'.
Proof. done. Qed.

Lemma Zlength_write_at (X : list byte) pos bs :
  Zlength (write_at X pos bs) = Z.max (Zlength X) (Z.of_nat pos + Zlength bs).
Proof. unfold Zlength. rewrite length_write_at. lia. Qed.

Ltac sts :=
  rewrite ?set_stream_twice, ?plen_set_stream, ?pbytes_set_stream, ?pos_set_stream,
          ?Zlength_write_at.

Lemma Chunk_writeHeaderTo_eq (s : PSt) c :
  0 <= rws_pos (p_f (snd s)) <= plen s ->
  Chunk_writeHeaderTo c s
  = (Ok tt, set_stream s (rws_pos (p_f (snd s)) + 9)
              (write_at (pbytes s) (Z.to_nat (rws_pos (p_f (snd s)))) (header_bytes c))).
Proof.
  intros Hp. unfold Chunk_writeHeaderTo.
  assert (H4 : forall z, Zlength (put_u32 z) = 4) by done.
  erewrite run_bind by (by apply f_Write_eq).
  erewrite run_bind by (apply f_Write_eq; sts; rewrite H4; unfold plen in Hp; lia).
  rewrite f_Write_eq by (sts; rewrite !H4; unfold plen in Hp; lia).
  sts. rewrite !H4. change (Zlength (put_bool (c_free c))) with 1.
  set (pos := rws_pos (p_f (snd s))) in *.
  set (b := pbytes s).
  assert (Hpl : (Z.to_nat pos <= length b)%nat).
  { unfold plen, Zlength in Hp. fold b in Hp. lia. }
  unfold header_bytes.
  rewrite <- (write_at_app b (Z.to_nat pos) (put_u32 (c_cap c))) by done.
  rewrite <- (write_at_app _ (Z.to_nat pos + length (put_u32 (c_cap c)))).
  2:{ rewrite length_write_at. lia. }
  change (length (put_u32 (c_cap c))) with 4%nat.
  change (length (put_u32 (c_size c))) with 4%nat.
  replace (Z.to_nat (pos + 4)) with (Z.to_nat pos + 4)%nat by lia.
  replace (Z.to_nat (pos + 4 + 4)) with (Z.to_nat pos + 4 + 4)%nat by lia.
  do 2 f_equal. lia.
Qed.

Lemma Chunk_writeHeader_eq fuel (s : PSt) c :
  0 <= c_pos c <= plen s ->
  Chunk_writeHeader fuel c s
  = (Ok tt, set_stream s (c_pos c + 9)
              (write_at (pbytes s) (Z.to_nat (c_pos c)) (header_bytes c))).
Proof.
  intros Hp. unfold Chunk_writeHeader.
  erewrite run_bind by (apply f_Seek_start; lia).
  rewrite Chunk_writeHeaderTo_eq by (by sts). by sts.
Qed.

(** ** One chunk changes, the others stay *)

Lemma view_lookup (s : PSt) k :
  view s !! k
  = (fun c => mkCell (c_cap c) (chunk_content (pbytes s) c)
                     (bool_decide (c_pos c ∈ p_freeChunks (snd s))))
    <$> p_chunks (snd s) !! k.
Proof. unfold view. by rewrite lookup_fmap. Qed.

Lemma view_update (s s' : PSt) k c' a e :
  p_chunks (snd s') = <[k := c']> (p_chunks (snd s)) ->
  c_pos c' = k ->
  agree_outside a e (pbytes s') (pbytes s) ->
  (forall k' c2, p_chunks (snd s) !! k' = Some c2 -> k' <> k ->
     c_pos c2 = k' /\ 0 <= k' /\ 0 <= c_size c2
     /\ (k' + headerSize + c_size c2 <= a \/ e <= k' + headerSize)
     /\ (k' ∈ p_freeChunks (snd s') <-> k' ∈ p_freeChunks (snd s))) ->
  view s'
  = <[k := mkCell (c_cap c') (chunk_content (pbytes s') c')
                  (bool_decide (k ∈ p_freeChunks (snd s')))]> (view s).
Proof.
  intros Hch Hk Hag Hoth. apply map_eq. intros k'.
  rewrite view_lookup, Hch.
  destruct (decide (k' = k)) as [->|Hne].
  - rewrite !lookup_insert_eq. cbn. by rewrite Hk.
  - rewrite !lookup_insert_ne by done. rewrite view_lookup.
    destruct (p_chunks (snd s) !! k') as [c2|] eqn:E; [|done]. cbn.
    destruct (Hoth k' c2 E Hne) as (Hp & H0 & Hsz & Hd & Hfr).
    f_equal. f_equal.
    + unfold chunk_content. eapply agree_outside_take_drop; [exact Hag|].
      rewrite Hp. unfold headerSize, sizeCap, sizeSize, sizeFree in *. lia.
    + rewrite Hp. apply bool_decide_ext. done.
Qed.

Lemma pool_ok_update (s s' : PSt) k c c' :
  pool_ok s ->
  p_chunks (snd s) !! k = Some c ->
  p_chunks (snd s') = <[k := c']> (p_chunks (snd s)) ->
  c_pos c' = k -> c_cap c' = c_cap c -> 0 <= c_size c' <= c_cap c' ->
  plen s' = plen s ->
  p_freeChunks (snd s') ⊆ {[k]} ∪ p_freeChunks (snd s) ->
  pool_ok s'.
Proof.
  intros (Hin & Hdis & Hfr) Hc Hch Hk Hcap Hsz Hlen Hfree.
  destruct (Hin k c Hc) as (_ & Hk0 & _ & Hcap32 & Hfit).
  split; [|split].
  - intros k1 c1. rewrite Hch, Hlen. destruct (decide (k1 = k)) as [->|Hne].
    + rewrite lookup_insert_eq. intros [= <-]. rewrite Hcap. repeat split; try done; lia.
    + rewrite lookup_insert_ne by done. apply Hin.
  - intros k1 c1 k2 c2. rewrite Hch.
    destruct (decide (k1 = k)) as [->|Hne1]; destruct (decide (k2 = k)) as [->|Hne2];
      rewrite ?lookup_insert_eq, ?lookup_insert_ne by done.
    + intros _ _ ?. lia.
    + intros [= <-] H2 Hlt. rewrite Hcap. by apply (Hdis k c k2 c2).
    + intros H1 [= <-] Hlt. by apply (Hdis k1 c1 k c).
    + apply Hdis.
  - intros k1 Hk1. rewrite Hch. apply Hfree in Hk1.
    apply elem_of_union in Hk1 as [Hk1|Hk1].
    + apply elem_of_singleton in Hk1 as ->. by rewrite lookup_insert_eq.
    + destruct (decide (k1 = k)) as [->|Hne]; [by rewrite lookup_insert_eq|].
      rewrite lookup_insert_ne by done. by apply Hfr.
Qed.

(** ** The operations of the pool on cells *)

Lemma view_Some (s : PSt) k cl :
  view s !! k = Some cl ->
  exists c, p_chunks (snd s) !! k = Some c
    /\ cl = mkCell (c_cap c) (chunk_content (pbytes s) c)
                   (bool_decide (c_pos c ∈ p_freeChunks (snd s))).
Proof.
  rewrite view_lookup. destruct (p_chunks (snd s) !! k) as [c|]; [|done].
  intros [= <-]. by exists c.
Qed.

Lemma the_chunk_eq (s : PSt) k c :
  p_chunks (snd s) !! k = Some c -> the_chunk k s = (Ok c, s).
Proof.
  intros Hc. unfold the_chunk. erewrite run_bind by reflexivity. by rewrite Hc.
Qed.

Ltac hs := unfold headerSize, sizeCap, sizeSize, sizeFree in *.
Ltac prj := cbn [fst snd p_f p_chunks p_freeChunks p_order rws_pos rws_b
                 c_pos c_cap c_size c_free v_cap v_content v_free] in *.

Lemma Chunk_Write_spec fuel (s : PSt) k cl bs :
  pool_ok s -> view s !! k = Some cl -> Zlength bs <= v_cap cl ->
  exists s',
    Chunk_Write fuel k bs s = (Ok tt, s') /\ pool_ok s'
    /\ view s' = <[k := mkCell (v_cap cl) bs (v_free cl)]> (view s)
    /\ plen s' = plen s.
Proof.
  intros Hok Hv Hlen. destruct (view_Some s k cl Hv) as (c & Hc & ->). prj.
  pose proof Hok as (Hin & Hdis & Hfr).
  destruct (Hin k c Hc) as (Hp & Hk0 & Hsz & Hcap & Hfit). hs.
  assert (Hl0 : 0 <= Zlength bs) by (unfold Zlength; lia).
  set (c' := mkChunk (c_pos c) (c_cap c) (u32 (Zlength bs)) (c_free c)).
  set (s1 := (fst s, mkPool (p_f (snd s)) (<[c_pos c' := c']> (p_chunks (snd s)))
                            (p_freeChunks (snd s)) (p_order (snd s)))).
  set (b1 := write_at (pbytes s) (Z.to_nat (c_pos c')) (header_bytes c')).
  set (b2 := write_at b1 (Z.to_nat (c_pos c' + 9)) bs).
  exists (set_stream s1 (c_pos c' + 9 + Zlength bs) b2).
  assert (Hl1 : Zlength b1 = plen s).
  { subst b1. apply Zlength_write_at_in. change (Zlength (header_bytes c')) with 9.
    subst c'. prj. unfold plen in Hfit. lia. }
  assert (Hl2 : Zlength b2 = plen s).
  { subst b2. rewrite Zlength_write_at_in; [done|]. subst c'. prj. lia. }
  assert (Hu : u32 (Zlength bs) = Zlength bs) by (unfold u32; apply Z.mod_small; lia).
  split; [|split; [|split; [|exact Hl2]]].
  - unfold Chunk_Write.
    erewrite run_bind by (by apply the_chunk_eq).
    destruct (c_cap c <? Zlength bs) eqn:E; zb; [lia|].
    erewrite run_bind by reflexivity. fold c'. fold s1.
    erewrite run_bind by (apply Chunk_writeHeader_eq; subst c' s1; unfold plen, pbytes; prj;
                          unfold plen, pbytes in Hfit; lia).
    change (pbytes s1) with (pbytes s). fold b1.
    rewrite f_Write_eq
      by (rewrite pos_set_stream, plen_set_stream, Hl1; subst c'; prj; lia).
    rewrite pos_set_stream, pbytes_set_stream, set_stream_twice. done.
  - eapply (pool_ok_update s _ k c c'); try done.
    + subst s1 c'. unfold set_stream. prj. by rewrite Hp.
    + subst c'. prj. lia.
    + subst s1. unfold set_stream. prj. intros x Hx. apply elem_of_union. by right.
  - erewrite (view_update s _ k c' k (k + 9 + c_cap c)).
    + assert (Hco : chunk_content b2 c' = bs).
      { unfold chunk_content. subst c' b2. prj. rewrite Hu.
        replace (Z.to_nat (Zlength bs)) with (length bs) by (unfold Zlength; lia).
        hs. replace (c_pos c + (4 + 4 + 1)) with (c_pos c + 9) by lia.
        apply take_drop_write_at. }
      rewrite pbytes_set_stream, Hco. subst k. done.
    + subst s1 c'. unfold set_stream. prj. by rewrite Hp.
    + subst c'. prj. done.
    + rewrite pbytes_set_stream. subst b2 b1. eapply agree_outside_trans.
      * apply agree_outside_write_at; subst c'; prj; [lia|lia|].
        rewrite Zlength_write_at_in; [unfold plen in Hfit; lia|].
        change (Zlength (header_bytes _)) with 9. unfold plen in Hfit. lia.
      * apply agree_outside_write_at; subst c'; prj; [lia| |unfold plen in Hfit; lia].
        change (Zlength (header_bytes _)) with 9. lia.
    + intros k' c2 Hc2 Hne. destruct (Hin k' c2 Hc2) as (Hp2 & Hk2 & Hsz2 & Hcap2 & Hfit2).
      split; [done|]. split; [done|]. split; [lia|]. split; [|done]. hs.
      destruct (Z.lt_total k' k) as [Hlt|[Heq|Hgt]]; [|done|].
      * left. pose proof (Hdis k' c2 k c Hc2 Hc Hlt). lia.
      * right. pose proof (Hdis k c k' c2 Hc Hc2 Hgt). lia.
Qed.

Lemma chunk_update_ok (s : PSt) k c c' pos' b' fr' od' :
  pool_ok s -> p_chunks (snd s) !! k = Some c ->
  c_pos c' = k -> c_cap c' = c_cap c -> 0 <= c_size c' <= c_cap c ->
  Zlength b' = plen s ->
  agree_outside k (k + 9 + c_cap c) b' (pbytes s) ->
  fr' ⊆ {[k]} ∪ p_freeChunks (snd s) ->
  (forall k', k' <> k -> k' ∈ fr' <-> k' ∈ p_freeChunks (snd s)) ->
  let s' : PSt := (tt, mkPool (mkRWS pos' b') (<[k := c']> (p_chunks (snd s))) fr' od') in
  pool_ok s'
  /\ view s' = <[k := mkCell (c_cap c) (chunk_content b' c') (bool_decide (k ∈ fr'))]> (view s)
  /\ plen s' = plen s.
Proof.
  intros Hok Hc Hk Hcap Hsz Hlen Hag Hfr' Hfr'' s'.
  pose proof Hok as (Hin & Hdis & Hfr).
  destruct (Hin k c Hc) as (Hp & Hk0 & Hsz0 & Hcap32 & Hfit).
  split; [|split; [|exact Hlen]].
  - eapply (pool_ok_update s s' k c c'); try done; try exact Hlen. lia.
  - rewrite (view_update s s' k c' k (k + 9 + c_cap c)); try done.
    + subst s'. prj. by rewrite Hcap.
    + intros k' c2 Hc2 Hne. destruct (Hin k' c2 Hc2) as (Hp2 & Hk2 & Hsz2 & Hcap2 & Hfit2).
      split; [done|]. split; [done|]. split; [lia|]. split; [|by apply Hfr''].
      hs. destruct (Z.lt_total k' k) as [Hlt|[Heq|Hgt]]; [|done|].
      * left. pose proof (Hdis k' c2 k c Hc2 Hc Hlt). lia.
      * right. pose proof (Hdis k c k' c2 Hc Hc2 Hgt). lia.
Qed.

Lemma content_length (s : PSt) k c :
  pool_ok s -> p_chunks (snd s) !! k = Some c ->
  Zlength (chunk_content (pbytes s) c) = c_size c.
Proof.
  intros (Hin & _) Hc. destruct (Hin k c Hc) as (Hp & Hk0 & Hsz & Hcap & Hfit).
  unfold chunk_content, plen in *. unfold Zlength in *. rewrite length_take, length_drop. hs. lia.
Qed.

Lemma Pool_Get_spec (s : PSt) k cl :
  view s !! k = Some cl -> Pool_Get k s = (Ok k, s).
Proof.
  intros Hv. destruct (view_Some s k cl Hv) as (c & Hc & _).
  unfold Pool_Get. erewrite run_bind by reflexivity.
  match goal with |- context [match ?x with _ => _ end] => replace x with (Some c) end. done.
Qed.

Lemma Chunk_ReadAll_spec fuel (s : PSt) k cl :
  pool_ok s -> view s !! k = Some cl -> v_content cl <> [] ->
  exists s',
    Chunk_ReadAll fuel k s = (Ok (v_content cl), s') /\ pool_ok s' /\ view s' = view s
    /\ plen s' = plen s.
Proof.
  intros Hok Hv Hne. destruct (view_Some s k cl Hv) as (c & Hc & ->). prj.
  pose proof Hok as (Hin & Hdis & Hfr).
  destruct (Hin k c Hc) as (Hp & Hk0 & Hsz & Hcap & Hfit).
  pose proof (content_length s k c Hok Hc) as Hcl.
  assert (Hpos : 0 < c_size c).
  { destruct (chunk_content (pbytes s) c) eqn:E; [done|]. unfold Zlength in Hcl. cbn in Hcl. lia. }
  exists (set_stream s (c_pos c + headerSize + Z.of_nat (Z.to_nat (c_size c))) (pbytes s)).
  split; [|split; [exact Hok|done]].
  unfold Chunk_ReadAll.
  erewrite run_bind by (by apply the_chunk_eq).
  unfold Chunk_Read.
  erewrite run_bind.
  2:{ erewrite run_bind by (by apply the_chunk_eq).
      destruct (c_size c <? Z.of_nat (Z.to_nat (c_size c))) eqn:E; zb; [lia|].
      erewrite run_bind by (apply f_Seek_start; hs; lia).
      apply f_Read_eq; rewrite ?pos_set_stream, ?plen_set_stream; hs;
        unfold plen in Hfit; lia. }
  cbn [fst snd]. rewrite pos_set_stream, pbytes_set_stream.
  rewrite length_take, length_drop.
  replace (Z.to_nat (c_size c) - _)%nat with 0%nat. 2:{ unfold plen, Zlength in Hfit. hs. lia. }
  cbn [zeros repeat]. rewrite app_nil_r. done.
Qed.

Lemma Chunk_Free_spec fuel (s : PSt) k cl :
  pool_ok s -> view s !! k = Some cl ->
  exists s',
    Chunk_Free fuel k s = (Ok tt, s') /\ pool_ok s'
    /\ view s' = <[k := mkCell (v_cap cl) (v_content cl) true]> (view s)
    /\ plen s' = plen s.
Proof.
  intros Hok Hv. destruct (view_Some s k cl Hv) as (c & Hc & ->). prj.
  pose proof Hok as (Hin & Hdis & Hfr).
  destruct (Hin k c Hc) as (Hp & Hk0 & Hsz & Hcap & Hfit). hs. subst k.
  set (c' := mkChunk (c_pos c) (c_cap c) (c_size c) true).
  set (b' := write_at (pbytes s) (Z.to_nat (c_pos c')) (header_bytes c')).
  assert (Hag : agree_outside (c_pos c) (c_pos c + 9) b' (pbytes s)).
  { subst b'. apply agree_outside_write_at; subst c'; prj; unfold plen in Hfit; try lia.
    change (Zlength (header_bytes _)) with 9. lia. }
  destruct (chunk_update_ok s (c_pos c) c c' (c_pos c' + 9) b'
              ({[c_pos c]} ∪ p_freeChunks (snd s)) (p_order (snd s))) as (Hok' & Hv' & Hpl'); try done.
  - subst b'. apply Zlength_write_at_in. change (Zlength (header_bytes _)) with 9.
    subst c'. prj. unfold plen in Hfit. lia.
  - intros j Hj. apply Hag. lia.
  - intros k' Hne. rewrite elem_of_union, elem_of_singleton.
    split; [intros [?|?]; done|intros ?; by right].
  - eexists. split; [|split; [exact Hok'|split; [|exact Hpl']]].
    + unfold Chunk_Free, Chunk_freeChunk.
      erewrite run_bind by (by apply the_chunk_eq).
      erewrite run_bind by reflexivity. fold c'.
      erewrite run_bind
        by (apply run_try, Chunk_writeHeader_eq; subst c'; unfold plen, pbytes in *; prj; lia).
      cbv beta iota. unfold modify, set_stream. destruct s as [[] ?]. done.
    + rewrite Hv'. f_equal. f_equal.
      * unfold chunk_content. subst c'. prj. eapply agree_outside_take_drop; [exact Hag|].
        right. hs. lia.
      * apply bool_decide_eq_true. apply elem_of_union. left. by apply elem_of_singleton.
Qed.

(** ** [Alloc] *)

Lemma pick_free_In order cands c order' :
  pick_free order cands = Some (c, order') -> In c cands.
Proof.
  destruct cands as [|c0 [|c1 rest]]; [done| |].
  - intros [= <- _]. by left.
  - unfold pick_free. set (l := c0 :: c1 :: rest).
    assert (Hl : (0 < length l)%nat) by (cbn; lia). clearbody l.
    intros H. assert (Hc : c = nth (hd 0%nat order mod length l) l c0) by congruence.
    rewrite Hc. apply nth_In. apply Nat.mod_upper_bound. lia.
Qed.

Lemma pick_free_None order cands : pick_free order cands = None -> cands = [].
Proof. by destruct cands as [|c0 [|c1 rest]]. Qed.

Lemma fitting_In (p : Pool readWriteSeeker) n pos :
  In pos (fitting p n) ->
  pos ∈ p_freeChunks p /\ exists c, p_chunks p !! pos = Some c /\ n <= c_cap c.
Proof.
  unfold fitting. rewrite filter_In. intros [Hin Hf]. split.
  - apply elem_of_elements. by apply list_elem_of_In.
  - destruct (p_chunks p !! pos) as [c|]; [|done]. exists c. split; [done|]. zb. done.
Qed.

Lemma pool_ok_new (s s' : PSt) c :
  pool_ok s ->
  c_pos c = plen s -> 0 <= c_size c <= c_cap c -> c_cap c < 2 ^ 32 ->
  p_chunks (snd s') = <[plen s := c]> (p_chunks (snd s)) ->
  plen s' = plen s + headerSize + c_cap c ->
  p_freeChunks (snd s') = p_freeChunks (snd s) ->
  pool_ok s'.
Proof.
  intros (Hin & Hdis & Hfr) Hp Hsz Hcap Hch Hlen Hfree.
  assert (Hl0 : 0 <= plen s) by (unfold plen, Zlength; lia).
  split; [|split].
  - intros k1 c1. rewrite Hch, Hlen. destruct (decide (k1 = plen s)) as [->|Hne].
    + rewrite lookup_insert_eq. intros [= <-]. repeat split; try done; lia.
    + rewrite lookup_insert_ne by done. intros H1.
      destruct (Hin k1 c1 H1) as (? & ? & ? & ? & ?). hs. repeat split; try done; lia.
  - intros k1 c1 k2 c2. rewrite Hch.
    destruct (decide (k1 = plen s)) as [->|Hne1]; destruct (decide (k2 = plen s)) as [->|Hne2];
      rewrite ?lookup_insert_eq, ?lookup_insert_ne by done.
    + intros _ _ ?. lia.
    + intros [= <-] H2 Hlt. destruct (Hin k2 c2 H2) as (? & ? & ? & ? & ?). hs. lia.
    + intros H1 [= <-] Hlt. destruct (Hin k1 c1 H1) as (? & ? & ? & ? & ?). done.
    + apply Hdis.
  - intros k1. rewrite Hfree, Hch. intros Hk1.
    destruct (decide (k1 = plen s)) as [->|Hne]; [by rewrite lookup_insert_eq|].
    rewrite lookup_insert_ne by done. by apply Hfr.
Qed.

Lemma Zlength_zeros n : Zlength (zeros n) = Z.of_nat n.
Proof. unfold Zlength, zeros. by rewrite repeat_length. Qed.

(** [Alloc] either takes one of the free chunks that fit, and the stream
    keeps its length, or, when none fits, appends a chunk of capacity [n]. *)
Lemma Pool_Alloc_cases fuel (s : PSt) n :
  pool_ok s -> 0 <= n < 2 ^ 32 ->
  exists k s' cap,
    Pool_Alloc fuel n s = (Ok k, s') /\ pool_ok s' /\ n <= cap
    /\ view s' = <[k := mkCell cap [] false]> (view s)
    /\ ((fitting (snd s) n = [] /\ k = plen s /\ cap = n /\ view s !! k = None
         /\ plen s' = plen s + 9 + n)
        \/ (In k (fitting (snd s) n)
            /\ (exists cl, view s !! k = Some cl /\ v_free cl = true /\ v_cap cl = cap)
            /\ plen s' = plen s)).
Proof.
  intros Hok Hn. pose proof Hok as (Hin & Hdis & Hfr).
  unfold Pool_Alloc. erewrite run_bind by reflexivity.
  destruct (pick_free (p_order (snd s)) (fitting (snd s) n)) as [[pos order']|] eqn:Epick.
  - (* a free chunk is taken *)
    apply pick_free_In in Epick. pose proof Epick as Hpicked.
    apply fitting_In in Epick as (Hfree & c & Hc & Hcap).
    destruct (Hin pos c Hc) as (Hp & Hk0 & Hsz & Hcap32 & Hfit). hs. subst pos.
    set (c' := mkChunk (c_pos c) (c_cap c) 0 false).
    set (b' := write_at (pbytes s) (Z.to_nat (c_pos c')) (header_bytes c')).
    assert (Hag : agree_outside (c_pos c) (c_pos c + 9) b' (pbytes s)).
    { subst b'. apply agree_outside_write_at; subst c'; prj; unfold plen in Hfit; try lia.
      change (Zlength (header_bytes _)) with 9. lia. }
    destruct (chunk_update_ok s (c_pos c) c c' (c_pos c' + 9) b'
                (p_freeChunks (snd s) ∖ {[c_pos c]}) order') as (Hok' & Hv' & Hpl'); try done.
    + subst c'. prj. lia.
    + subst b'. apply Zlength_write_at_in. change (Zlength (header_bytes _)) with 9.
      subst c'. prj. unfold plen in Hfit. lia.
    + intros j Hj. apply Hag. lia.
    + intros x Hx. apply elem_of_difference in Hx as [Hx _]. apply elem_of_union. by right.
    + intros k' Hne. rewrite elem_of_difference, elem_of_singleton. split; [by intros [? _]|done].
    + exists (c_pos c). eexists. exists (c_cap c).
      split; [|split; [exact Hok'|split; [done|split; [|right; split; [done|split; [|done]]]]]].
      * erewrite run_bind by reflexivity.
        erewrite run_bind by (by apply the_chunk_eq).
        erewrite run_bind by reflexivity. fold c'.
        erewrite run_bind
          by (apply Chunk_writeHeader_eq; subst c'; unfold plen, pbytes in *; prj; lia).
        erewrite run_bind by reflexivity.
        unfold set_stream. destruct s as [[] ?]. done.
      * rewrite Hv'. f_equal. f_equal.
        apply bool_decide_eq_false. rewrite elem_of_difference, elem_of_singleton. by intros [_ ?].
      * eexists. split; [|split].
        -- rewrite view_lookup, Hc. done.
        -- prj. by apply bool_decide_eq_true.
        -- done.
  - (* a new chunk at the end of the stream *)
    apply pick_free_None in Epick.
    set (c := mkChunk (plen s) n 0 false).
    set (b1 := write_at (pbytes s) (Z.to_nat (plen s)) (header_bytes c)).
    set (b2 := write_at b1 (Z.to_nat (plen s + 9)) (zeros (Z.to_nat n))).
    assert (Hl0 : 0 <= plen s) by (unfold plen, Zlength; lia).
    assert (Hl1 : Zlength b1 = plen s + 9).
    { subst b1. rewrite Zlength_write_at. change (Zlength (header_bytes c)) with 9.
      fold (plen s). lia. }
    assert (Hl2 : Zlength b2 = plen s + 9 + n).
    { subst b2. rewrite Zlength_write_at, Hl1, Zlength_zeros. lia. }
    set (s' := (tt, mkPool (mkRWS (plen s + 9 + n) b2) (<[plen s := c]> (p_chunks (snd s)))
                           (p_freeChunks (snd s)) (p_order (snd s))) : PSt).
    assert (Hnone : p_chunks (snd s) !! plen s = None).
    { destruct (p_chunks (snd s) !! plen s) as [c0|] eqn:E; [|done].
      destruct (Hin _ _ E) as (? & ? & ? & ? & ?). hs. lia. }
    exists (plen s), s', n.
    split; [|split; [|split; [lia|split;
      [|left; split; [done|split; [done|split; [done|split;
         [|change (plen s') with (Zlength b2); lia]]]]]]]].
    + unfold Chunk_initialize.
      erewrite run_bind.
      2:{ erewrite run_bind by apply f_Seek_end. fold c.
          erewrite run_bind by (apply Chunk_writeHeaderTo_eq; rewrite pos_set_stream, plen_set_stream;
                                fold (plen s); lia).
          rewrite pos_set_stream, pbytes_set_stream, set_stream_twice. fold b1.
          erewrite run_bind by (apply f_Write_eq; rewrite pos_set_stream, plen_set_stream; lia).
          rewrite pos_set_stream, pbytes_set_stream, set_stream_twice. fold b2. reflexivity. }
      erewrite run_bind by reflexivity.
      rewrite Zlength_zeros, Z2Nat.id by lia.
      unfold set_stream. subst s'. destruct s as [[] ?]. done.
    + eapply (pool_ok_new s s' c); try done.
      * subst c. prj. lia.
      * subst c. prj. lia.
    + rewrite (view_update s s' (plen s) c (plen s) (plen s + 9 + n)); try done.
      * f_equal. subst s' c. unfold chunk_content. prj. f_equal.
        apply bool_decide_eq_false. intros Hx. apply Hfr in Hx. rewrite Hnone in Hx.
        by destruct Hx.
      * subst s'. unfold pbytes at 1. prj. subst b2. eapply agree_outside_trans.
        -- apply agree_outside_write_at; rewrite ?Zlength_zeros; lia.
        -- subst b1. apply agree_outside_write_at; [lia| |fold (plen s); lia].
           change (Zlength (header_bytes c)) with 9. lia.
      * intros k' c2 Hc2 Hne. destruct (Hin k' c2 Hc2) as (Hp2 & Hk2 & Hsz2 & Hcap2 & Hfit2).
        split; [done|]. split; [done|]. split; [lia|]. split; [left; lia|done].
    + by rewrite view_lookup, Hnone.
Qed.

Lemma Pool_Alloc_spec fuel (s : PSt) n :
  pool_ok s -> 0 <= n < 2 ^ 32 ->
  exists k s' cap,
    Pool_Alloc fuel n s = (Ok k, s') /\ pool_ok s' /\ n <= cap
    /\ view s' = <[k := mkCell cap [] false]> (view s)
    /\ (view s !! k = None \/ exists cl, view s !! k = Some cl /\ v_free cl = true)
    /\ plen s <= plen s' <= plen s + 9 + n.
Proof.
  intros Hok Hn.
  destruct (Pool_Alloc_cases fuel s n Hok Hn) as (k & s' & cap & Hrun & Hok' & Hcap & Hv & Hc).
  exists k, s', cap. repeat (split; [done|]).
  destruct Hc as [(_ & _ & _ & Hnone & Hl)|(_ & (cl & Hcl & Hf & _) & Hl)].
  - split; [by left|lia].
  - split; [right; by exists cl|lia].
Qed.

(** ** [WriteAt] inside the content, and [AllocAndWrite] *)

Lemma take_drop_write_at_mid (X : list byte) p n off bs :
  (p + n <= length X)%nat -> (off + length bs <= n)%nat ->
  take n (drop p (write_at X (p + off) bs)) = write_at (take n (drop p X)) off bs.
Proof.
  intros Hx Hn. apply list_eq. intros i.
  assert (Hlen : length (take n (drop p X)) = n) by (rewrite length_take, length_drop; lia).
  destruct (decide (i < n)%nat) as [Hi|Hi].
  - rewrite lookup_take_lt, lookup_drop by done.
    destruct (decide (i < off \/ off + length bs <= i)%nat) as [Ho|Ho].
    + rewrite !write_at_lookup_other by lia.
      by rewrite lookup_take_lt, lookup_drop.
    + replace (p + i)%nat with (p + off + (i - off))%nat by lia.
      replace i with (off + (i - off))%nat at 2 by lia.
      rewrite !write_at_lookup_in by lia. done.
  - rewrite lookup_take_ge by lia. symmetry. apply lookup_ge_None_2.
    rewrite length_write_at. lia.
Qed.

Lemma Chunk_WriteAt_spec fuel (s : PSt) k cl bs off :
  pool_ok s -> view s !! k = Some cl ->
  0 <= off -> off + Zlength bs <= Zlength (v_content cl) ->
  exists s',
    Chunk_WriteAt fuel k bs off s = (Ok tt, s') /\ pool_ok s'
    /\ view s' = <[k := mkCell (v_cap cl) (write_at (v_content cl) (Z.to_nat off) bs)
                               (v_free cl)]> (view s)
    /\ plen s' = plen s.
Proof.
  intros Hok Hv Hoff Hlen. destruct (view_Some s k cl Hv) as (c & Hc & ->). prj.
  pose proof Hok as (Hin & Hdis & Hfr).
  destruct (Hin k c Hc) as (Hp & Hk0 & Hsz & Hcap & Hfit). hs. subst k.
  rewrite (content_length s _ c Hok Hc) in Hlen.
  assert (Hl0 : 0 <= Zlength bs) by (unfold Zlength; lia).
  set (pw := c_pos c + (4 + 4 + 1) + off).
  set (b' := write_at (pbytes s) (Z.to_nat pw) bs).
  destruct (chunk_update_ok s (c_pos c) c c (pw + Zlength bs) b'
              (p_freeChunks (snd s)) (p_order (snd s))) as (Hok' & Hv' & Hpl'); try done.
  - subst b'. apply Zlength_write_at_in. subst pw. unfold plen in Hfit. lia.
  - subst b'. apply agree_outside_write_at; subst pw; unfold plen in Hfit; lia.
  - intros x Hx. apply elem_of_union. by right.
  - rewrite insert_id in Hok', Hv', Hpl' by done.
    eexists. split; [|split; [exact Hok'|split; [|exact Hpl']]].
    + unfold Chunk_WriteAt.
      erewrite run_bind by (by apply the_chunk_eq).
      destruct (c_cap c <? off + Zlength bs) eqn:E1; zb; [lia|].
      destruct (c_size c <? off + Zlength bs) eqn:E2; zb; [lia|].
      erewrite run_bind by reflexivity.
      erewrite run_bind by (apply f_Seek_start; hs; lia).
      rewrite f_Write_eq by (rewrite pos_set_stream, plen_set_stream; hs; unfold plen in Hfit; lia).
      rewrite pos_set_stream, pbytes_set_stream, set_stream_twice.
      hs. fold pw. fold b'. unfold set_stream. destruct s as [[] [? ? ? ?]]. done.
    + rewrite Hv'. f_equal. f_equal. unfold chunk_content. subst b' pw. hs.
      replace (Z.to_nat (c_pos c + (4 + 4 + 1) + off))
        with (Z.to_nat (c_pos c + (4 + 4 + 1)) + Z.to_nat off)%nat by lia.
      apply take_drop_write_at_mid; unfold plen, Zlength in *; lia.
Qed.

Lemma Pool_AllocAndWrite_spec fuel (s : PSt) b :
  pool_ok s -> Zlength b < 2 ^ 32 ->
  exists k s' cap,
    Pool_AllocAndWrite fuel b s = (Ok k, s') /\ pool_ok s' /\ Zlength b <= cap
    /\ view s' = <[k := mkCell cap b false]> (view s)
    /\ unused (view s) k
    /\ plen s <= plen s' <= plen s + 9 + Zlength b.
Proof.
  intros Hok Hb. assert (Hl0 : 0 <= Zlength b) by (unfold Zlength; lia).
  assert (Hu : u32 (Zlength b) = Zlength b) by (unfold u32; apply Z.mod_small; lia).
  destruct (Pool_Alloc_spec fuel s (Zlength b) Hok ltac:(lia))
    as (k & s1 & cap & Hrun & Hok1 & Hcap & Hv1 & Hfresh & Hpl1).
  destruct (Chunk_Write_spec fuel s1 k (mkCell cap [] false) b Hok1)
    as (s2 & Hrun2 & Hok2 & Hv2 & Hpl2).
  { rewrite Hv1. apply lookup_insert_eq. }
  { done. }
  exists k, s2, cap. split; [|split; [done|split; [done|split; [|split; [done|lia]]]]].
  - unfold Pool_AllocAndWrite. rewrite Hu.
    erewrite run_bind by exact Hrun.
    erewrite run_bind by (apply run_try, Hrun2). done.
  - rewrite Hv2, Hv1. prj. apply insert_insert_eq.
Qed.

(** ** List nodes *)

Lemma take_app_le_encode n z (rest : list byte) :
  take n (le_encode n z ++ rest) = le_encode n z.
Proof. by rewrite take_app_length' by (by rewrite length_le_encode). Qed.

Lemma drop_app_le_encode n z (rest : list byte) :
  drop n (le_encode n z ++ rest) = rest.
Proof. by rewrite drop_app_length' by (by rewrite length_le_encode). Qed.

Lemma i64_fits z : fits64 z -> i64 (z mod 256 ^ Z.of_nat 8) = z.
Proof.
  unfold fits64, i64. intros Hz. change (256 ^ Z.of_nat 8) with (2 ^ 64).
  rewrite Z.mod_mod by lia.
  destruct (Z.lt_ge_cases z 0).
  - replace (z mod 2 ^ 64) with (z + 2 ^ 64).
    2:{ apply Z.mod_unique with (-1); lia. }
    destruct (z + 2 ^ 64 <? 2 ^ 63) eqn:E; zb; lia.
  - rewrite Z.mod_small by lia. destruct (z <? 2 ^ 63) eqn:E; zb; lia.
Qed.

Lemma get_put_i64 z (rest : list byte) : fits64 z -> get_i64 (put_i64 z ++ rest) = z.
Proof.
  intros Hz. unfold get_i64, put_i64. rewrite take_app_le_encode, le_decode_encode.
  by apply i64_fits.
Qed.

Lemma length_kvnode_encode n : length (kvnode_encode n) = 32%nat.
Proof. unfold kvnode_encode, put_i64. rewrite !length_app, !length_le_encode. done. Qed.

Lemma drop_put_i64 z (rest : list byte) : drop 8 (put_i64 z ++ rest) = rest.
Proof. apply drop_app_le_encode. Qed.

Lemma kvnode_decode_encode n :
  node_ok n -> kvnode_decode (n_chunk n) (kvnode_encode n) = Ok n.
Proof.
  intros (Hp & Hn & Hk & Hv). unfold kvnode_decode. rewrite length_kvnode_encode.
  cbn [Nat.eqb Nat.ltb Nat.leb].
  unfold kvnode_encode.
  set (X := put_i64 (n_prev n) ++ put_i64 (n_next n) ++ put_i64 (n_key n) ++ put_i64 (n_value n)).
  assert (H1 : drop 8 X = put_i64 (n_next n) ++ put_i64 (n_key n) ++ put_i64 (n_value n))
    by apply drop_put_i64.
  assert (H2 : drop 16 X = put_i64 (n_key n) ++ put_i64 (n_value n)).
  { change 16%nat with (8 + 8)%nat. rewrite <- drop_drop, H1. apply drop_put_i64. }
  assert (H3 : drop 24 X = put_i64 (n_value n) ++ []).
  { change 24%nat with (16 + 8)%nat. rewrite <- drop_drop, H2, app_nil_r.
    rewrite <- (app_nil_r (put_i64 (n_value n))) at 2. apply drop_put_i64. }
  rewrite H1, H2, H3. subst X. rewrite !get_put_i64 by done.
  by destruct n.
Qed.

Lemma kvnode_encode_ne n : kvnode_encode n <> [].
Proof. intros E. pose proof (length_kvnode_encode n) as H. rewrite E in H. done. Qed.

Lemma KVNode_Read_spec fuel (s : PSt) k n :
  pool_ok s -> node_at (view s) k n ->
  exists s', KVNode_Read fuel k s = (Ok n, s') /\ pool_ok s' /\ view s' = view s
    /\ plen s' = plen s.
Proof.
  intros Hok (Hk & Hn & cap & Hv).
  destruct (Chunk_ReadAll_spec fuel s k _ Hok Hv (kvnode_encode_ne n)) as (s' & Hrun & Hok' & Hv').
  exists s'. split; [|done]. unfold KVNode_Read.
  erewrite run_bind by exact Hrun. prj. unfold lift_result.
  by rewrite <- Hk, kvnode_decode_encode.
Qed.

Lemma NewKVNodeFromChunkPtr_spec fuel (s : PSt) k n :
  pool_ok s -> node_at (view s) k n ->
  exists s', NewKVNodeFromChunkPtr fuel k s = (Ok n, s') /\ pool_ok s' /\ view s' = view s
    /\ plen s' = plen s.
Proof.
  intros Hok Hn. destruct (KVNode_Read_spec fuel s k n Hok Hn) as (s' & Hrun & H').
  exists s'. split; [|done]. unfold NewKVNodeFromChunkPtr.
  destruct Hn as (_ & _ & cap & Hv).
  erewrite run_bind by (eapply Pool_Get_spec, Hv). done.
Qed.

Lemma KVNode_Write_spec fuel (s : PSt) n cl :
  pool_ok s -> view s !! n_chunk n = Some cl -> 32 <= v_cap cl ->
  exists s',
    KVNode_Write fuel n s = (Ok tt, s') /\ pool_ok s'
    /\ view s' = <[n_chunk n := mkCell (v_cap cl) (kvnode_encode n) (v_free cl)]> (view s)
    /\ plen s' = plen s.
Proof.
  intros Hok Hv Hcap. unfold KVNode_Write. apply Chunk_Write_spec; [done|done|].
  unfold Zlength. rewrite length_kvnode_encode. lia.
Qed.

Lemma NewKVNode_spec fuel (s : PSt) key value :
  pool_ok s ->
  exists k s' cap,
    NewKVNode fuel key value s = (Ok (mkKVNode k 0 0 key value), s') /\ pool_ok s'
    /\ view s' = <[k := mkCell cap (kvnode_encode (mkKVNode k 0 0 key value)) false]> (view s)
    /\ unused (view s) k
    /\ plen s <= plen s' <= plen s + 41.
Proof.
  intros Hok.
  destruct (Pool_Alloc_spec fuel s 32 Hok ltac:(lia))
    as (k & s1 & cap & Hrun & Hok1 & Hcap & Hv1 & Hfresh & Hpl1).
  destruct (KVNode_Write_spec fuel s1 (mkKVNode k 0 0 key value) (mkCell cap [] false) Hok1)
    as (s2 & Hrun2 & Hok2 & Hv2 & Hpl2).
  { rewrite Hv1. apply lookup_insert_eq. }
  { done. }
  exists k, s2, cap. split; [|split; [done|split; [|split; [done|lia]]]].
  - unfold NewKVNode. change (u32 sizeKVNode) with 32.
    erewrite run_bind by exact Hrun.
    erewrite run_bind by exact Hrun2. done.
  - rewrite Hv2, Hv1. prj. apply insert_insert_eq.
Qed.

Lemma read_bytes_spec fuel (s : PSt) k bs :
  pool_ok s -> bytes_at (view s) k bs ->
  exists s',
    (chunk ← Pool_Get k; Chunk_ReadAll fuel chunk) s = (Ok bs, s')
    /\ pool_ok s' /\ view s' = view s /\ plen s' = plen s.
Proof.
  intros Hok (Hne & cap & Hv).
  destruct (Chunk_ReadAll_spec fuel s k _ Hok Hv Hne) as (s' & Hrun & H').
  exists s'. split; [|done].
  erewrite run_bind by (eapply Pool_Get_spec, Hv). done.
Qed.

Lemma KVNode_Next_spec fuel (s : PSt) n n' :
  pool_ok s -> n_next n <> 0 -> node_at (view s) (n_next n) n' ->
  exists s', KVNode_Next fuel n s = (Ok (Some n'), s') /\ pool_ok s' /\ view s' = view s
    /\ plen s' = plen s.
Proof.
  intros Hok Hnz Hn'.
  destruct (KVNode_Read_spec fuel s _ n' Hok Hn') as (s' & Hrun & H').
  exists s'. split; [|done]. unfold KVNode_Next.
  destruct (n_next n =? 0) eqn:E; zb; [done|].
  destruct Hn' as (_ & _ & cap & Hv).
  erewrite run_bind by (eapply Pool_Get_spec, Hv).
  erewrite run_bind by exact Hrun. done.
Qed.

Lemma KVNode_Next_nil fuel (s : PSt) n :
  n_next n = 0 -> KVNode_Next fuel n s = (Ok None, s).
Proof. intros E. unfold KVNode_Next. by rewrite E. Qed.

(** ** Segments *)

Lemma view_cap (s : PSt) k cl :
  pool_ok s -> view s !! k = Some cl ->
  Zlength (v_content cl) <= v_cap cl /\ v_cap cl < 2 ^ 32.
Proof.
  intros Hok Hv. destruct (view_Some s k cl Hv) as (c & Hc & ->). prj.
  rewrite (content_length s k c Hok Hc).
  destruct Hok as (Hin & _). destruct (Hin k c Hc) as (? & ? & ? & ? & ?). lia.
Qed.

Lemma keeps_live_refl v : keeps_live v v.
Proof. by intros k cl. Qed.

Lemma keeps_live_trans v1 v2 v3 :
  keeps_live v1 v2 -> keeps_live v2 v3 -> keeps_live v1 v3.
Proof. intros H1 H2 k cl Hk Hf. apply H2; [by apply H1|done]. Qed.

Lemma keeps_live_insert v k cl : unused v k -> keeps_live v (<[k := cl]> v).
Proof.
  intros Hu k' cl' Hk Hf. destruct (decide (k' = k)) as [->|Hne].
  - destruct Hu as [Hu|(c0 & Hu & Hfr)]; rewrite Hu in Hk; [done|]. congruence.
  - by rewrite lookup_insert_ne.
Qed.

Lemma node_at_keeps v v' k n : keeps_live v v' -> node_at v k n -> node_at v' k n.
Proof.
  intros Hk (H1 & H2 & cap & Hv). split; [done|]. split; [done|].
  exists cap. by apply Hk.
Qed.

Lemma bytes_at_keeps v v' k bs : keeps_live v v' -> bytes_at v k bs -> bytes_at v' k bs.
Proof. intros Hk (H1 & cap & Hv). split; [done|]. exists cap. by apply Hk. Qed.

Lemma seg_keeps v v' hd l tl : keeps_live v v' -> seg v hd l tl -> seg v' hd l tl.
Proof.
  intros Hk. revert hd. induction l as [|e rest IH]; intros hd; [done|].
  intros (H0 & Hn & Hkey & Hval & Hrest).
  split; [done|]. split; [by eapply node_at_keeps|].
  split; [by eapply bytes_at_keeps|]. split; [by eapply bytes_at_keeps|]. by apply IH.
Qed.

Lemma node_at_live v k n : node_at v k n -> ~ unused v k.
Proof.
  intros (_ & _ & cap & Hv) [Hu|(cl & Hu & Hf)]; rewrite Hv in Hu; [done|].
  injection Hu as <-. done.
Qed.

Lemma bytes_at_live v k bs : bytes_at v k bs -> ~ unused v k.
Proof.
  intros (_ & cap & Hv) [Hu|(cl & Hu & Hf)]; rewrite Hv in Hu; [done|].
  injection Hu as <-. done.
Qed.

(** A segment only depends on the cells of its chunks. *)
Lemma seg_frame v v' hd l tl :
  (forall k, k ∈ node_ptrs l ++ data_ptrs l -> v' !! k = v !! k) ->
  seg v hd l tl -> seg v' hd l tl.
Proof.
  revert hd. induction l as [|e rest IH]; intros hd Hsame; [done|].
  intros (H0 & Hn & Hkey & Hval & Hrest).
  assert (Hhd : n_chunk (e_node e) = hd) by (by destruct Hn).
  split; [done|]. split; [|split; [|split]].
  - destruct Hn as (H1 & H2 & cap & Hv). split; [done|]. split; [done|]. exists cap.
    rewrite Hsame; [done|]. apply elem_of_app. left. cbn. rewrite H1. apply list_elem_of_here.
  - destruct Hkey as (H1 & cap & Hv). split; [done|]. exists cap.
    rewrite Hsame; [done|]. apply elem_of_app. right. cbn. apply list_elem_of_here.
  - destruct Hval as (H1 & cap & Hv). split; [done|]. exists cap.
    rewrite Hsame; [done|]. apply elem_of_app. right. cbn.
    apply list_elem_of_further, list_elem_of_here.
  - apply IH; [|done]. intros k Hk. apply Hsame.
    apply elem_of_app in Hk as [Hk|Hk]; apply elem_of_app; [left|right]; cbn.
    + by apply list_elem_of_further.
    + by do 2 apply list_elem_of_further.
Qed.

Lemma seg_app v hd l1 mid l2 tl :
  seg v hd l1 mid -> seg v mid l2 tl -> seg v hd (l1 ++ l2) tl.
Proof.
  revert hd. induction l1 as [|e rest IH]; intros hd; cbn [seg app].
  - by intros ->.
  - intros (H0 & Hn & Hkey & Hval & Hrest) H2.
    split; [done|]. split; [done|]. split; [done|]. split; [done|]. by apply IH.
Qed.

Lemma seg_app_inv v hd l1 l2 tl :
  seg v hd (l1 ++ l2) tl -> exists mid, seg v hd l1 mid /\ seg v mid l2 tl.
Proof.
  revert hd. induction l1 as [|e rest IH]; intros hd; cbn [seg app].
  - intros H. by exists hd.
  - intros (H0 & Hn & Hkey & Hval & Hrest). destruct (IH _ Hrest) as (mid & H1 & H2).
    exists mid. split; [|done]. split; [done|]. split; [done|]. split; [done|]. by split.
Qed.

(** ** Walking a list *)

Lemma pos_bound (s : PSt) k cl :
  pool_ok s -> view s !! k = Some cl -> 0 <= k < plen s.
Proof.
  intros Hok Hv. destruct (view_Some s k cl Hv) as (c & Hc & _).
  destruct Hok as (Hin & _). destruct (Hin k c Hc) as (? & ? & ? & ? & ?). hs. lia.
Qed.

Lemma seg_cons_chunk v hd e rest tl : seg v hd (e :: rest) tl -> n_chunk (e_node e) = hd.
Proof. by intros (_ & (H & _) & _). Qed.

Lemma ListSize_loop_spec fuel : forall rest e k size (s : PSt),
  pool_ok s -> seg (view s) (n_chunk (e_node e)) (e :: rest) 0 -> (length rest < k)%nat ->
  exists s',
    ListSize_loop fuel k (e_node e) size s = (Ok (size + Z.of_nat (length rest)), s')
    /\ pool_ok s' /\ view s' = view s /\ plen s' = plen s.
Proof.
  induction rest as [|e' rest IH]; intros e k size s Hok Hseg Hk;
    (destruct k as [|k]; [cbn in Hk; lia|]); cbn [ListSize_loop];
    destruct Hseg as (H0 & Hn & Hkey & Hval & Hrest).
  - cbn in Hrest. rewrite Hrest. cbn. exists s. rewrite Z.add_0_r. done.
  - pose proof Hrest as (H0' & Hn' & _).
    destruct (n_next (e_node e) =? 0) eqn:E; zb; [done|].
    destruct (KVNode_Next_spec fuel s _ _ Hok H0' Hn') as (s1 & Hrun & Hok1 & Hv1 & Hpl1).
    erewrite run_bind by exact Hrun.
    rewrite <- (seg_cons_chunk _ _ _ _ _ Hrest) in Hrest. rewrite <- Hv1 in Hrest.
    destruct (IH e' k (size + 1) s1 Hok1 Hrest ltac:(cbn in Hk; lia))
      as (s2 & Hrun2 & Hok2 & Hv2 & Hpl2).
    exists s2. rewrite Hrun2. split; [|split; [done|split; [by rewrite Hv2|by rewrite Hpl2]]].
    do 2 f_equal. cbn [length]. lia.
Qed.

Lemma last_cons_default {A} (l : list A) a d : List.last (a :: l) d = List.last l a.
Proof.
  revert a d. induction l as [|x l IH]; intros a d; [done|].
  change (List.last (a :: x :: l) d) with (List.last (x :: l) d). by rewrite !IH.
Qed.

Lemma lastNode_loop_spec fuel : forall rest e k (s : PSt),
  pool_ok s -> seg (view s) (n_chunk (e_node e)) (e :: rest) 0 -> (length rest < k)%nat ->
  exists s',
    lastNode_loop fuel k (e_node e) s = (Ok (e_node (List.last rest e)), s')
    /\ pool_ok s' /\ view s' = view s /\ plen s' = plen s.
Proof.
  induction rest as [|e' rest IH]; intros e k s Hok Hseg Hk;
    (destruct k as [|k]; [cbn in Hk; lia|]); cbn [lastNode_loop];
    destruct Hseg as (H0 & Hn & Hkey & Hval & Hrest).
  - cbn in Hrest. rewrite Hrest. cbn. by exists s.
  - pose proof Hrest as (H0' & Hn' & _).
    destruct (n_next (e_node e) =? 0) eqn:E; zb; [done|].
    destruct (KVNode_Next_spec fuel s _ _ Hok H0' Hn') as (s1 & Hrun & Hok1 & Hv1 & Hpl1).
    erewrite run_bind by exact Hrun.
    rewrite <- (seg_cons_chunk _ _ _ _ _ Hrest) in Hrest. rewrite <- Hv1 in Hrest.
    destruct (IH e' k s1 Hok1 Hrest ltac:(cbn in Hk; lia))
      as (s2 & Hrun2 & Hok2 & Hv2 & Hpl2).
    exists s2. rewrite Hrun2. split; [|split; [done|split; [by rewrite Hv2|by rewrite Hpl2]]].
    by rewrite last_cons_default.
Qed.

Lemma findHashMapItem_loop_spec fuel needle : forall l hd k (s : PSt),
  pool_ok s -> seg (view s) hd l 0 -> (length l < k)%nat ->
  exists s',
    findHashMapItem_loop fuel k (hd_node l) needle s = (Ok (find_node needle l), s')
    /\ pool_ok s' /\ view s' = view s /\ plen s' = plen s.
Proof.
  induction l as [|e rest IH]; intros hd k s Hok Hseg Hk;
    (destruct k as [|k]; [cbn in Hk; lia|]); cbn [findHashMapItem_loop hd_node].
  - by exists s.
  - destruct Hseg as (H0 & Hn & Hkey & Hval & Hrest).
    destruct (read_bytes_spec fuel s _ _ Hok Hkey) as (s1 & Hrun & Hok1 & Hv1 & Hpl1).
    unfold KVNode_KeyBytes. erewrite run_bind by exact Hrun.
    unfold find_node. cbn [List.find].
    destruct (bytes_eqb (e_key e) needle) eqn:E.
    + exists s1. done.
    + assert (Hnx : exists s2, KVNode_Next fuel (e_node e) s1 = (Ok (hd_node rest), s2)
                      /\ pool_ok s2 /\ view s2 = view s1 /\ plen s2 = plen s1).
      { destruct rest as [|e' rest'].
        - cbn in Hrest. exists s1. by rewrite KVNode_Next_nil.
        - pose proof Hrest as (H0' & Hn' & _). rewrite <- Hv1 in Hn'.
          destruct (KVNode_Next_spec fuel s1 _ _ Hok1 H0' Hn') as (s2 & Hr & H').
          by exists s2. }
      destruct Hnx as (s2 & Hrun2 & Hok2 & Hv2 & Hpl2).
      erewrite run_bind by exact Hrun2.
      rewrite <- Hv1, <- Hv2 in Hrest.
      destruct (IH _ k s2 Hok2 Hrest ltac:(cbn in Hk; lia)) as (s3 & Hrun3 & Hok3 & Hv3 & Hpl3).
      exists s3. rewrite Hrun3. split; [done|]. split; [done|].
      split; [by rewrite Hv3, Hv2|by rewrite Hpl3, Hpl2].
Qed.

(** ** Appending to a list *)

Lemma seg_ptrs_live v hd l tl k :
  seg v hd l tl -> k ∈ node_ptrs l ++ data_ptrs l -> ~ unused v k.
Proof.
  revert hd. induction l as [|e rest IH]; intros hd Hseg Hk.
  - by apply elem_of_nil in Hk.
  - destruct Hseg as (H0 & Hn & Hkey & Hval & Hrest).
    apply elem_of_app in Hk as [Hk|Hk]; cbn in Hk.
    + apply elem_of_cons in Hk as [->|Hk].
      * pose proof Hn as (Hc & _). rewrite Hc. by eapply node_at_live.
      * apply (IH _ Hrest). apply elem_of_app. by left.
    + apply elem_of_cons in Hk as [->|Hk]; [by eapply bytes_at_live|].
      apply elem_of_cons in Hk as [->|Hk]; [by eapply bytes_at_live|].
      apply (IH _ Hrest). apply elem_of_app. by right.
Qed.

Lemma node_ptrs_app l1 l2 : node_ptrs (l1 ++ l2) = node_ptrs l1 ++ node_ptrs l2.
Proof. unfold node_ptrs. by rewrite map_app. Qed.

Lemma data_ptrs_app l1 l2 : data_ptrs (l1 ++ l2) = data_ptrs l1 ++ data_ptrs l2.
Proof. unfold data_ptrs. by rewrite flat_map_app. Qed.

Lemma last_snoc_default {A} (l : list A) a d : List.last (l ++ [a]) d = a.
Proof. apply List.last_last. Qed.

Lemma KVNode_Append_spec fuel (s : PSt) hd n0 front elast key value kb vb :
  let l := front ++ [elast] in
  let kl := n_chunk (e_node elast) in
  pool_ok s -> plen s + 41 < 2 ^ 63 -> ~ unused (view s) 0 ->
  chain (view s) hd l -> sep l -> hd_node l = Some n0 ->
  bytes_at (view s) key kb -> bytes_at (view s) value vb ->
  key ∉ node_ptrs l -> value ∉ node_ptrs l ->
  (length l < fuel)%nat ->
  exists s' knew,
    let new := mkKVNode knew kl 0 key value in
    let l' := front ++ [(set_next (e_node elast) knew, e_key elast, e_val elast);
                        (new, kb, vb)] in
    KVNode_Append fuel n0 key value s = (Ok new, s')
    /\ pool_ok s' /\ unused (view s) knew
    /\ chain (view s') hd l' /\ sep l'
    /\ (forall k, k <> knew -> k <> kl -> view s' !! k = view s !! k)
    /\ plen s <= plen s' <= plen s + 41.
Proof.
  intros l kl Hok Hroom Hzero Hch Hsep Hhd Hkey Hval Hkn Hvn Hfuel.
  (* the walk to the last node *)
  assert (Hl : exists e0 rest, l = e0 :: rest /\ e_node e0 = n0) .
  { destruct l as [|e0 rest] eqn:E; [done|]. exists e0, rest. cbn in Hhd. by injection Hhd as <-. }
  destruct Hl as (e0 & rest & El & <-).
  assert (Hlast : List.last rest e0 = elast).
  { rewrite <- (last_cons_default rest e0 e0), <- El. apply last_snoc_default. }
  unfold chain in Hch. rewrite El in Hch.
  pose proof (seg_cons_chunk _ _ _ _ _ Hch) as Hc0. rewrite <- Hc0 in Hch.
  destruct (lastNode_loop_spec fuel rest e0 fuel s Hok Hch)
    as (s0 & Hrun0 & Hok0 & Hv0 & Hpl0).
  { rewrite El in Hfuel. cbn in Hfuel. lia. }
  rewrite Hlast in Hrun0. rewrite Hc0, <- El in Hch.
  (* the new node *)
  destruct (Pool_Alloc_spec fuel s0 32 Hok0 ltac:(lia))
    as (knew & s1 & cap & Hrun1 & Hok1 & Hcap & Hv1 & Hfresh & Hpl1).
  rewrite Hv0 in Hv1, Hfresh. fold (unused (view s) knew) in Hfresh.
  set (new := mkKVNode knew kl 0 key value).
  destruct (KVNode_Write_spec fuel s1 new (mkCell cap [] false) Hok1)
    as (s2 & Hrun2 & Hok2 & Hv2 & Hpl2).
  { rewrite Hv1. apply lookup_insert_eq. }
  { done. }
  rewrite Hv1, insert_insert_eq in Hv2. prj.
  (* the old last node *)
  destruct (seg_app_inv _ _ _ _ _ Hch) as (mid & Hfront & Hlastseg).
  destruct Hlastseg as (Hmid0 & Hnl & Hkl & Hvl & Hnx0). cbn in Hnx0.
  assert (Hmid : mid = kl) by (destruct Hnl as (E & _); symmetry; exact E). subst mid.
  pose proof Hnl as (_ & Hnlok & capl & Hvkl).
  assert (Hne : kl <> knew).
  { intros E. apply (node_at_live _ _ _ Hnl). by rewrite E. }
  destruct (view_cap s kl _ Hok Hvkl) as [Hcapl _]. prj.
  unfold Zlength in Hcapl. rewrite length_kvnode_encode in Hcapl.
  set (last' := set_next (e_node elast) knew).
  destruct (KVNode_Write_spec fuel s2 last' (mkCell capl (kvnode_encode (e_node elast)) false) Hok2)
    as (s3 & Hrun3 & Hok3 & Hv3 & Hpl3).
  { rewrite Hv2. subst last'. cbn [set_next n_chunk]. fold kl.
    by rewrite lookup_insert_ne. }
  { prj. lia. }
  prj. subst last'. cbn [set_next n_chunk] in Hv3. fold kl in Hv3.
  fold (set_next (e_node elast) knew) in Hrun3, Hv3.
  exists s3, knew. cbv zeta. fold new.
  (* positions fit in 64 bits *)
  assert (Hfit : forall k cl, view s3 !! k = Some cl -> fits64 k).
  { intros k cl Hk. pose proof (pos_bound s3 k cl Hok3 Hk). unfold fits64. lia. }
  assert (Hsame : forall k, k <> knew -> k <> kl -> view s3 !! k = view s !! k).
  { intros k H1 H2. rewrite Hv3, Hv2. by rewrite !lookup_insert_ne. }
  assert (Hlive : forall k bs, bytes_at (view s) k bs -> k <> kl -> bytes_at (view s3) k bs).
  { intros k bs Hb Hk. destruct Hb as (Hbne & cb & Hb). split; [done|]. exists cb.
    rewrite Hsame; [done| |done]. intros ->.
    destruct Hfresh as [Hu|(c0 & Hu & Hf)]; rewrite Hb in Hu; [done|]. by injection Hu as <-. }
  destruct Hsep as [Hnd Hdisj].
  assert (Hkl_in : kl ∈ node_ptrs l).
  { subst l. rewrite node_ptrs_app. apply elem_of_app. right. apply list_elem_of_here. }
  assert (Hknew_l : knew ∉ node_ptrs l ++ data_ptrs l).
  { intros Hin. by apply (seg_ptrs_live _ _ _ _ _ Hch Hin). }
  split; [|split; [done|split; [done|split; [|split; [|split; [done|lia]]]]]].
  - unfold KVNode_Append.
    erewrite run_bind by exact Hrun0.
    change (u32 sizeKVNode) with 32. erewrite run_bind by exact Hrun1.
    fold kl. fold new. erewrite run_bind by exact Hrun2.
    cbn [n_chunk new]. fold (set_next (e_node elast) knew).
    erewrite run_bind by exact Hrun3. done.
  - (* the list *)
    unfold chain. apply seg_app with kl.
    + eapply seg_frame; [|exact Hfront]. intros k Hk. apply Hsame.
      * intros ->. apply Hknew_l. subst l. rewrite node_ptrs_app, data_ptrs_app.
        apply elem_of_app in Hk as [Hk|Hk]; apply elem_of_app; [left|right];
          apply elem_of_app; by left.
      * intros ->. subst l. rewrite node_ptrs_app in Hnd.
        apply elem_of_app in Hk as [Hk|Hk].
        -- apply NoDup_app in Hnd as (_ & Hnd & _). apply (Hnd _ Hk). apply list_elem_of_here.
        -- apply (Hdisj _ Hkl_in). rewrite data_ptrs_app. apply elem_of_app. by left.
    + assert (Hdl : forall k, k ∈ data_ptrs [elast] -> k <> kl).
      { intros k Hk ->. apply (Hdisj _ Hkl_in). subst l. rewrite data_ptrs_app.
        apply elem_of_app. by right. }
      split; [done|]. split; [|split; [|split]].
      * split; [done|]. split.
        { destruct Hnlok as (? & ? & ? & ?). split; [done|]. split; [|done].
          cbn. apply (Hfit knew (mkCell cap (kvnode_encode new) false)).
          rewrite Hv3, Hv2. rewrite lookup_insert_ne by done. apply lookup_insert_eq. }
        exists capl. rewrite Hv3. apply lookup_insert_eq.
      * cbn [e_node e_key fst snd set_next n_key]. apply Hlive; [done|].
        apply Hdl. cbn. apply list_elem_of_here.
      * cbn [e_node e_val fst snd set_next n_value]. apply Hlive; [done|].
        apply Hdl. cbn. apply list_elem_of_further, list_elem_of_here.
      * cbn [e_node fst set_next n_next seg].
        assert (Hkk : key <> kl) by (intros ->; done).
        assert (Hvk : value <> kl) by (intros ->; done).
        split; [by intros ->|]. split; [|split; [|split; [|done]]].
        -- split; [done|]. split.
           { subst new. split; [|split; [|split]]; cbn.
             - destruct Hnl as (_ & _ & c0 & H0).
               apply (Hfit kl (mkCell capl (kvnode_encode (set_next (e_node elast) knew)) false)).
               rewrite Hv3. apply lookup_insert_eq.
             - unfold fits64. lia.
             - destruct (Hlive _ _ Hkey Hkk) as (_ & c0 & H0). by eapply Hfit.
             - destruct (Hlive _ _ Hval Hvk) as (_ & c0 & H0). by eapply Hfit. }
           exists cap. rewrite Hv3, Hv2. rewrite lookup_insert_ne by done. apply lookup_insert_eq.
        -- cbn. by apply Hlive.
        -- cbn. by apply Hlive.
  - (* the chunks of the list are apart *)
    assert (Hnp : node_ptrs (front ++ [(set_next (e_node elast) knew, e_key elast, e_val elast);
                                       (new, kb, vb)]) = node_ptrs l ++ [knew]).
    { subst l. rewrite !node_ptrs_app, <- app_assoc. done. }
    assert (Hdp : data_ptrs (front ++ [(set_next (e_node elast) knew, e_key elast, e_val elast);
                                       (new, kb, vb)]) = data_ptrs l ++ [key; value]).
    { subst l. rewrite !data_ptrs_app, <- app_assoc. done. }
    split.
    + rewrite Hnp. apply NoDup_app. split; [done|]. split; [|apply NoDup_singleton].
      intros k Hk Hk'. apply list_elem_of_singleton in Hk' as ->.
      apply Hknew_l. apply elem_of_app. by left.
    + rewrite Hnp, Hdp. intros k Hk Hk'.
      apply elem_of_app in Hk as [Hk|Hk]; apply elem_of_app in Hk' as [Hk'|Hk'].
      * by apply (Hdisj k).
      * apply elem_of_cons in Hk' as [->|Hk']; [done|].
        apply list_elem_of_singleton in Hk' as ->. done.
      * apply list_elem_of_singleton in Hk as ->. apply Hknew_l. apply elem_of_app. by right.
      * apply list_elem_of_singleton in Hk as ->.
        apply elem_of_cons in Hk' as [->|Hk'].
        -- by apply (bytes_at_live _ _ _ Hkey).
        -- apply list_elem_of_singleton in Hk' as ->. by apply (bytes_at_live _ _ _ Hval).
Qed.
